(** * Polymarket price collector: store, quote client, liveness queries, run

    A shallow embedding of [src/collect-prices.ts], [src/db.ts] and
    [migrations/001_add_price_tracking.sql], and the properties of the
    collection pipeline proved over it.

    - [Pg], [Store]: the two tables, the insert with its conflict target,
      the trigger function [update_price_extremes].
    - [Js]: numbers and [parseFloat].
    - [Catalog]: the rows of the [games] table.
    - [Runtime]: the process and its environment, as a state and error
      monad over a [world]: a clock, the scripted replies of the quote API,
      the database, and the trace of what the process did.
    - [Db], [Collector]: the functions of the two source files, with their
      names.
    - [Observe], [Logic]: what a trace shows, and Hoare triples for the
      monad.
    - [Ledger], [Migrations]: what the two tables say about each other,
      and the clean-up migrations that delete rows.
    - [Accounting]: what a run samples, asks and pushes.
    - [Process]: [main], [close] and the scheduler around the collector.

    Conventions.
    - Instants ([Date], [TIMESTAMP], [NOW()]) are integers: milliseconds
      since the epoch.  Durations are milliseconds.  Time passes only while
      the process waits for a reply or for a timer.
    - A nullable SQL column is an [option]; SQL comparisons on it are
      three-valued.
    - [DECIMAL(18,8)] is a fixed-point number: an integer count of units of
      10^-8, or PostgreSQL's [NaN], which a constrained numeric column
      accepts and orders above every other value. *)

From Stdlib Require Import Ascii.
From stdpp Require Import gmap strings list fin_maps pretty sorting.

Open Scope Z_scope.

(** ** PostgreSQL values *)

Module Pg.

(** [DECIMAL(18, 8)]. *)
Inductive numeric : Type :=
| NumNaN
| Num (units : Z).

Definition scale : Z := 10 ^ 8.
Definition precision_bound : Z := 10 ^ 18.

(** [a < b] on non-null numerics; [NaN] equals itself and is greater than
    every number. *)
Definition numeric_lt (a b : numeric) : bool :=
  match a, b with
  | Num x, Num y => bool_decide (x < y)
  | Num _, NumNaN => true
  | NumNaN, _ => false
  end.

Definition numeric_le (a b : numeric) : bool := negb (numeric_lt b a).

(** [a < b] and [a > b] where [b] is a nullable column: unknown on NULL. *)
Definition sql_lt (a : numeric) (b : option numeric) : option bool :=
  numeric_lt a <$> b.

Definition sql_gt (a : numeric) (b : option numeric) : option bool :=
  (λ y, numeric_lt y a) <$> b.

(** [CASE WHEN c THEN x ELSE y END]: the THEN branch is taken only when
    the condition is true, not when it is unknown. *)
Definition case_when {A : Type} (c : option bool) (x y : A) : A :=
  match c with
  | Some true => x
  | _ => y
  end.

(** [lo <= p <= hi] on nullable columns, as a proposition: it holds only
    when the three values are present. *)
Definition between (lo p hi : option numeric) : Prop :=
  ∃ l c h, lo = Some l ∧ p = Some c ∧ hi = Some h ∧
           numeric_le l c = true ∧ numeric_le c h = true.

(** The price range of the data model, [0 <= p <= 1]. *)
Definition in_unit_range (p : numeric) : bool :=
  match p with
  | Num u => bool_decide (0 ≤ u ≤ scale)
  | NumNaN => false
  end.

End Pg.

(** ** The price store: [migrations/001_add_price_tracking.sql] *)

Module Store.
Import Pg.

(** A row of [market_prices]. *)
Record market_prices_row : Type := MarketPrice {
  id : Z;                          (* BIGSERIAL PRIMARY KEY *)
  condition_id : string;           (* VARCHAR(255) NOT NULL *)
  token_id : string;               (* VARCHAR(255) NOT NULL *)
  outcome : option string;         (* VARCHAR(255) *)
  price : numeric;                 (* DECIMAL(18, 8) NOT NULL *)
  timestamp : Z;                   (* TIMESTAMP NOT NULL *)
  source : option string;          (* VARCHAR(50) DEFAULT 'rest' *)
  created_at : option Z;           (* TIMESTAMP DEFAULT NOW() *)
}.

(** A row of [market_price_extremes]. *)
Record market_price_extremes_row : Type := Extremes {
  ext_id : Z;                              (* SERIAL PRIMARY KEY *)
  ext_condition_id : string;
  ext_token_id : string;
  ext_outcome : option string;
  lowest_price : option numeric;
  lowest_price_timestamp : option Z;
  highest_price : option numeric;
  highest_price_timestamp : option Z;
  current_price : option numeric;
  current_price_timestamp : option Z;
  first_recorded : option Z;
  last_updated : option Z;
}.

(** The two tables and the sequences of their serial columns.
    [UNIQUE(condition_id, token_id, timestamp)] and
    [UNIQUE(condition_id, token_id)]: each table is a finite map from its
    unique key to the row that carries it. *)
Record store : Type := Tables {
  market_prices : gmap (string * string * Z) market_prices_row;
  market_price_extremes : gmap (string * string) market_price_extremes_row;
  market_prices_id_seq : Z;
  market_price_extremes_id_seq : Z;
}.

Definition empty_store : store :=
  {| market_prices := ∅; market_price_extremes := ∅;
     market_prices_id_seq := 1; market_price_extremes_id_seq := 1 |}.

(** One tuple of the VALUES list of
    [INSERT INTO market_prices (condition_id, token_id, outcome, price,
    timestamp, source)], after coercion to the column types. *)
Record price_values : Type := Values {
  v_condition_id : string;
  v_token_id : string;
  v_outcome : option string;
  v_price : numeric;
  v_timestamp : Z;
  v_source : option string;
}.

Definition values_key (v : price_values) : string * string * Z :=
  (v_condition_id v, v_token_id v, v_timestamp v).

Definition values_outcome (v : price_values) : string * string :=
  (v_condition_id v, v_token_id v).

(** The row proposed by the [INSERT INTO market_price_extremes ... VALUES
    (NEW.condition_id, ..., NOW())] of the trigger function. *)
Definition proposed_extremes (now : Z) (proposed_id : Z) (NEW : market_prices_row)
    : market_price_extremes_row :=
  {| ext_id := proposed_id;
     ext_condition_id := condition_id NEW;
     ext_token_id := token_id NEW;
     ext_outcome := outcome NEW;
     lowest_price := Some (price NEW);
     lowest_price_timestamp := Some (timestamp NEW);
     highest_price := Some (price NEW);
     highest_price_timestamp := Some (timestamp NEW);
     current_price := Some (price NEW);
     current_price_timestamp := Some (timestamp NEW);
     first_recorded := Some (timestamp NEW);
     last_updated := Some now |}.

(** Its [DO UPDATE SET] clause, applied to the existing row [old]. *)
Definition do_update_set (now : Z) (NEW : market_prices_row)
    (old : market_price_extremes_row) : market_price_extremes_row :=
  {| ext_id := ext_id old;
     ext_condition_id := ext_condition_id old;
     ext_token_id := ext_token_id old;
     ext_outcome := ext_outcome old;
     lowest_price :=
       case_when (sql_lt (price NEW) (lowest_price old))
         (Some (price NEW)) (lowest_price old);
     lowest_price_timestamp :=
       case_when (sql_lt (price NEW) (lowest_price old))
         (Some (timestamp NEW)) (lowest_price_timestamp old);
     highest_price :=
       case_when (sql_gt (price NEW) (highest_price old))
         (Some (price NEW)) (highest_price old);
     highest_price_timestamp :=
       case_when (sql_gt (price NEW) (highest_price old))
         (Some (timestamp NEW)) (highest_price_timestamp old);
     current_price := Some (price NEW);
     current_price_timestamp := Some (timestamp NEW);
     first_recorded := first_recorded old;
     last_updated := Some now |}.

(** [update_price_extremes()]: the body of the trigger function, run with
    [NEW] bound to the inserted row.  [INSERT ... ON CONFLICT
    (condition_id, token_id) DO UPDATE]; the default of the serial [id] is
    drawn for the proposed row before the conflict is detected. *)
Definition update_price_extremes (now : Z) (NEW : market_prices_row)
    (st : store) : store :=
  let k := (condition_id NEW, token_id NEW) in
  let proposed_id := market_price_extremes_id_seq st in
  let row :=
    match market_price_extremes st !! k with
    | None => proposed_extremes now proposed_id NEW
    | Some old => do_update_set now NEW old
    end in
  {| market_prices := market_prices st;
     market_price_extremes := <[k := row]> (market_price_extremes st);
     market_prices_id_seq := market_prices_id_seq st;
     market_price_extremes_id_seq := proposed_id + 1 |}.

(** The row a tuple of the VALUES list becomes: the defaults of [id] and
    [created_at] are filled in. *)
Definition new_row (now : Z) (proposed_id : Z) (v : price_values) : market_prices_row :=
  {| id := proposed_id;
     condition_id := v_condition_id v;
     token_id := v_token_id v;
     outcome := v_outcome v;
     price := v_price v;
     timestamp := v_timestamp v;
     source := v_source v;
     created_at := Some now |}.

(** One proposed row of [INSERT INTO market_prices ... ON CONFLICT
    (condition_id, token_id, timestamp) DO NOTHING].  The serial [id] is
    drawn first; a row whose key is taken is skipped; a row that is
    inserted fires [trigger_update_price_extremes] (AFTER INSERT, FOR EACH
    ROW).  The trigger reads only [NEW] and the extremes table, so running
    it right after its row gives the state the queued trigger events give
    at the end of the statement. *)
Definition insert_row (now : Z) (v : price_values) (st : store) : store :=
  let proposed_id := market_prices_id_seq st in
  match market_prices st !! values_key v with
  | Some _ =>
      {| market_prices := market_prices st;
         market_price_extremes := market_price_extremes st;
         market_prices_id_seq := proposed_id + 1;
         market_price_extremes_id_seq := market_price_extremes_id_seq st |}
  | None =>
      let NEW := new_row now proposed_id v in
      update_price_extremes now NEW
        {| market_prices := <[values_key v := NEW]> (market_prices st);
           market_price_extremes := market_price_extremes st;
           market_prices_id_seq := proposed_id + 1;
           market_price_extremes_id_seq := market_price_extremes_id_seq st |}
  end.

(** The multi-row statement: the tuples are proposed in order. *)
Definition insert_rows (now : Z) (vs : list price_values) (st : store) : store :=
  foldl (λ s v, insert_row now v s) st vs.

(** Number of rows of a statement that were inserted, not skipped. *)
Definition rows_inserted (before after : store) : nat :=
  (size (market_prices after) - size (market_prices before))%nat.

(** What an extremes record should say about the observations [seen] for
    its key: [(p, ts)] is a least (greatest) price of [seen] together with
    the timestamp of an observation that has it, or the price and
    timestamp of the observation applied last. *)
Definition attains_min (seen : list price_values)
    (p : option numeric) (ts : option Z) : Prop :=
  ∃ v, v ∈ seen ∧ p = Some (v_price v) ∧ ts = Some (v_timestamp v) ∧
       ∀ v', v' ∈ seen → numeric_le (v_price v) (v_price v') = true.

Definition attains_max (seen : list price_values)
    (p : option numeric) (ts : option Z) : Prop :=
  ∃ v, v ∈ seen ∧ p = Some (v_price v) ∧ ts = Some (v_timestamp v) ∧
       ∀ v', v' ∈ seen → numeric_le (v_price v') (v_price v) = true.

Definition is_latest (seen : list price_values)
    (p : option numeric) (ts : option Z) : Prop :=
  ∃ v, last seen = Some v ∧ p = Some (v_price v) ∧ ts = Some (v_timestamp v).

Definition summarises (r : market_price_extremes_row) (seen : list price_values) : Prop :=
  attains_min seen (lowest_price r) (lowest_price_timestamp r) ∧
  attains_max seen (highest_price r) (highest_price_timestamp r) ∧
  is_latest seen (current_price r) (current_price_timestamp r).

(** The observations of [l], all for one key, that the insert lets through
    to the trigger: the conflict target drops an observation whose
    timestamp is [taken], by a stored row or by an earlier observation of
    [l]. *)
Fixpoint let_through (taken : list Z) (l : list price_values) : list price_values :=
  match l with
  | [] => []
  | v :: l' =>
      if decide (v_timestamp v ∈ taken) then let_through taken l'
      else v :: let_through (v_timestamp v :: taken) l'
  end.

(** Every extremes record has its lowest and highest price, and the keys
    of the extremes table are the keys that have an observation. *)
Definition well_formed (st : store) : Prop :=
  (∀ k r, market_price_extremes st !! k = Some r →
          is_Some (lowest_price r) ∧ is_Some (highest_price r)) ∧
  (∀ c t, is_Some (market_price_extremes st !! (c, t)) ↔
          ∃ ts, is_Some (market_prices st !! (c, t, ts))).

(** The stores the pipeline can produce: from the empty tables, by insert
    statements only (the core never updates or deletes). *)
Inductive reachable : store → Prop :=
| reachable_empty : reachable empty_store
| reachable_insert now vs st :
    reachable st → reachable (insert_rows now vs st).

End Store.

(** ** JavaScript values *)

Module Js.
Import Pg.

(** A [number], as far as the collector computes with one: the decimal
    value [(-1)^negative * digits * 10^exponent] read from a numeral, an
    infinity, or [NaN].  The rounding of the decimal to the nearest
    binary64 is not represented. *)
Inductive number : Type :=
| NaN
| Infinity (negative : bool)
| Finite (negative : bool) (digits : N) (exponent : Z).

Definition is_digit (c : ascii) : bool :=
  let n := N_of_ascii c in ((48 <=? n) && (n <=? 57))%N.

Definition digit_value (c : ascii) : N := (N_of_ascii c - 48)%N.

(** White space and line terminators of the ASCII range. *)
Definition is_white_space (c : ascii) : bool :=
  let n := N_of_ascii c in
  ((n =? 9) || (n =? 10) || (n =? 11) || (n =? 12) || (n =? 13) || (n =? 32))%N.

Fixpoint trim_start (s : string) : string :=
  match s with
  | String c s' => if is_white_space c then trim_start s' else s
  | EmptyString => s
  end.

(** The longest run of decimal digits at the head of [s]: the value read
    on top of [acc], the number of digits read, and the rest. *)
Fixpoint read_digits (s : string) (acc : N) (count : nat) : N * nat * string :=
  match s with
  | String c s' =>
      if is_digit c
      then read_digits s' (10 * acc + digit_value c)%N (S count)
      else (acc, count, s)
  | EmptyString => (acc, count, s)
  end.

(** The value of an ExponentPart at the head of [s], 0 when there is no
    complete one. *)
Definition read_exponent (s : string) : Z :=
  match s with
  | String c s' =>
      if bool_decide (c = "e"%char ∨ c = "E"%char) then
        let '(negative, s'') :=
          match s' with
          | String "+" t => (false, t)
          | String "-" t => (true, t)
          | _ => (false, s')
          end in
        let '(v, n, _) := read_digits s'' 0%N 0%nat in
        match n with
        | O => 0
        | S _ => if negative then - Z.of_N v else Z.of_N v
        end
      else 0
  | EmptyString => 0
  end.

(** The longest prefix that is a StrUnsignedDecimalLiteral. *)
Definition parse_unsigned (negative : bool) (s : string) : number :=
  if String.prefix "Infinity" s then Infinity negative
  else
    let '(i, ni, r1) := read_digits s 0%N 0%nat in
    match r1 with
    | String "." r2 =>
        let '(m, nf, r3) := read_digits r2 i 0%nat in
        match ni, nf with
        | O, O => NaN
        | _, _ => Finite negative m (read_exponent r3 - Z.of_nat nf)
        end
    | _ =>
        match ni with
        | O => NaN
        | S _ => Finite negative i (read_exponent r1)
        end
    end.

(** [parseFloat(string)] on ASCII strings: leading white space is skipped,
    the longest prefix that is a decimal literal is read, [NaN] when there
    is none.  The white space characters beyond ASCII are not recognised. *)
Definition parseFloat (s : string) : number :=
  match trim_start s with
  | String "+" t => parse_unsigned false t
  | String "-" t => parse_unsigned true t
  | t => parse_unsigned false t
  end.


(** How PostgreSQL reads a [number] parameter into [DECIMAL(18, 8)]:
    rounded to 8 decimals, ties away from zero; an infinity or a value of
    more than 10 integer digits is refused ([None]); [NaN] is kept. *)
Definition to_decimal_18_8 (x : number) : option numeric :=
  match x with
  | NaN => Some NumNaN
  | Infinity _ => None
  | Finite negative m e =>
      let magnitude :=
        if 0 <=? e + 8 then Z.of_N m * 10 ^ (e + 8)
        else (2 * Z.of_N m + 10 ^ (- (e + 8))) / (2 * 10 ^ (- (e + 8))) in
      if magnitude <? precision_bound
      then Some (Num (if negative then - magnitude else magnitude))
      else None
  end.

End Js.

(** ** The external catalog *)

Module Catalog.

(** An entry of [markets[].outcomes], as it is read from the JSON column:
    either property may be absent or [null]. *)
Record outcome : Type := Outcome {
  title : option string;         (* absent for outcomes without a label *)
  tokenID : option string;       (* absent for outcomes without a token *)
}.

(** An entry of the [markets] JSON column. *)
Record market : Type := Market {
  sportsMarketType : option string;
  conditionId : string;
  marketSlug : string;
  outcomes : option (list outcome);
}.

(** Modelled from the spec: the declaration of the [games] table is not
    in the repository.  A market of the catalog has a stable id, a title,
    a start time, an end time that may be absent, a closed flag, and the
    nested list of markets; the column names are those of the queries. *)
Record games_row : Type := Game {
  g_id : string;
  g_title : string;
  g_markets : option (list market);
  start_date : Z;
  end_date : option Z;
  closed : bool;
}.

(** What [getActiveGames] returns for a row. *)
Record game : Type := ActiveGame {
  id : string;
  game_title : string;
  markets : list market;
}.

End Catalog.

(** ** The process and its environment *)

Module Runtime.
Import Pg Js Store Catalog.

(** The decoded JSON body of a quote response, at the type the client
    reads it: [{ price?: string; mid?: string }], a field being absent,
    [null] or a string. *)
Inductive field : Type :=
| Undefined
| Null
| Str (s : string).

Inductive body : Type :=
| BodyNotJson                      (* [response.json()] rejects *)
| BodyNull                         (* the JSON value [null] *)
| BodyObject (price mid : field).

(** What one [fetch(url)] meets; [latency] is the time until the promise
    settles. *)
Inductive reply : Type :=
| NetworkError (latency : N)
| Response (latency : N) (status : Z) (b : body).

(** Console output, one constructor per message of the sources, with the
    values the message is built from.  [LogSummary] keeps [elapsed], the
    milliseconds [Date.now() - startTime]; the line shows them as seconds
    with two decimals, [(elapsed / 1000).toFixed(2)], and the digits of
    that rendering are not represented. *)
Inductive log_line : Type :=
| LogRateLimited
| LogFetchFailed (tokenId : string) (status : Z)
| LogNoPriceData (tokenId : string)
| LogFetchError (tokenId : string)
| LogStarting
| LogFound (games : nat)
| LogNoActiveGames
| LogGame (title id : string)
| LogNoOutcomes (marketSlug : string)
| LogNoTokenId (title : option string)
| LogProgress (requestCount : Z)
| LogSuccess (title : option string) (price : number)
| LogFailure (title : option string)
| LogInserting (records : nat)
| LogStored (records : nat)
| LogNothingToInsert
| LogSummary (elapsed : Z) (games : nat) (requestCount successCount failureCount : Z)
             (stored : nat)
| LogCollectionFailed
| LogQueryExecuted
| LogQueryError
| LogBatchInserted (records : nat).

Inductive statement : Type :=
| SelectActiveGames
| SelectFrequency
| InsertMarketPrices (tuples : nat).

(** What the process does to its environment, in order. *)
Inductive event : Type :=
| EvLog (l : log_line)
| EvFetch (issued : Z) (url : string)
| EvSleep (started : Z) (ms : Z)
| EvQuery (q : statement).

(** What a promise is rejected with. *)
Inductive error : Type :=
| DatabaseError                    (* [pool.query] rejects *)
| FetchFailed                      (* [fetch] rejects: no response *)
| SyntaxError                      (* [response.json()] on a body that is not JSON *)
| TypeError.                       (* a property read on [null] *)

(** The environment of a run: a clock, the replies the quote API will give
    to the requests to come, how late each timer to come fires, whether
    the database answers, the catalog, the price store, and what has
    happened so far (oldest first). *)
Record world : Type := World {
  clock : Z;
  replies : list reply;
  lateness : list N;
  db_available : bool;
  games : list games_row;
  db : store;
  trace : list event;
}.

(** How an asynchronous call ends: its promise is fulfilled, is rejected,
    or is still pending when the scripted replies are used up. *)
Inductive result (A : Type) : Type :=
| Ret (a : A)
| Throw (e : error)
| Pending.
Arguments Ret {A} a.
Arguments Throw {A} e.
Arguments Pending {A}.

Definition M (A : Type) : Type := world → result A * world.

Definition ret {A : Type} (a : A) : M A := λ w, (Ret a, w).

Definition bind {A B : Type} (m : M A) (k : A → M B) : M B :=
  λ w, match m w with
       | (Ret a, w') => k a w'
       | (Throw e, w') => (Throw e, w')
       | (Pending, w') => (Pending, w')
       end.

#[global] Instance M_ret : MRet M := @ret.
#[global] Instance M_bind : MBind M := λ A B k m, bind m k.

Definition throw {A : Type} (e : error) : M A := λ w, (Throw e, w).

(** [try { m } catch (error) { handler }]. *)
Definition try_catch {A : Type} (m : M A) (handler : error → M A) : M A :=
  λ w, match m w with
       | (Throw e, w') => handler e w'
       | other => other
       end.

Definition emit (e : event) : M unit :=
  λ w, (Ret tt,
        {| clock := clock w; replies := replies w; lateness := lateness w;
           db_available := db_available w; games := games w; db := db w;
           trace := trace w ++ [e] |}).

Definition log (l : log_line) : M unit := emit (EvLog l).

(** [Date.now()], [new Date()] and the database's [NOW()]. *)
Definition now : M Z := λ w, (Ret (clock w), w).

Definition advance (ms : Z) : M unit :=
  λ w, (Ret tt,
        {| clock := clock w + ms; replies := replies w; lateness := lateness w;
           db_available := db_available w; games := games w; db := db w;
           trace := trace w |}).

Definition next_lateness : M N :=
  λ w, (Ret (default 0%N (head (lateness w))),
        {| clock := clock w; replies := replies w; lateness := tail (lateness w);
           db_available := db_available w; games := games w; db := db w;
           trace := trace w |}).

Definition next_reply : M reply :=
  λ w, match replies w with
       | [] => (Pending, w)
       | r :: rest =>
           (Ret r,
            {| clock := clock w; replies := rest; lateness := lateness w;
               db_available := db_available w; games := games w; db := db w;
               trace := trace w |})
       end.

(** Whether [pool.query] will answer. *)
Definition database_up : M bool := λ w, (Ret (db_available w), w).

Definition get_db : M store := λ w, (Ret (db w), w).

Definition put_db (st : store) : M unit :=
  λ w, (Ret tt,
        {| clock := clock w; replies := replies w; lateness := lateness w;
           db_available := db_available w; games := games w; db := st;
           trace := trace w |}).

Definition get_games : M (list games_row) := λ w, (Ret (games w), w).

Definition reply_latency (r : reply) : N :=
  match r with
  | NetworkError l => l
  | Response l _ _ => l
  end.

End Runtime.


(** ** [src/db.ts] *)

Module Db.
Import Pg Js Store Catalog Runtime.

(** The argument of [insertPrice] and the element of the argument of
    [batchInsertPrices].  [outcome] is whatever the caller read from the
    catalog: [None] is [undefined] or [null], which the driver sends as
    NULL. *)
Record price_record : Type := PriceRecord {
  pr_conditionId : string;
  pr_tokenId : string;
  pr_outcome : option string;
  pr_price : number;
  pr_timestamp : Z;
  pr_source : option string;
}.

(** [query(text, params)]: the statement runs against the catalog and the
    store at the database's [NOW()]; when the pool rejects, or the
    statement is refused ([None]), the error is logged and thrown again
    and no table has changed. *)
Definition query {A : Type} (q : statement)
    (run : Z → list games_row → store → option (A * store)) : M A :=
  emit (EvQuery q);;
  up ← database_up;
  NOW ← now;
  catalog ← get_games;
  st ← get_db;
  match (if up : bool then run NOW catalog st else None) with
  | Some (a, st') => put_db st';; log LogQueryExecuted;; mret a
  | None => log LogQueryError;; throw DatabaseError
  end.

(** [a || b] on strings that may be absent. *)
Definition or_string (a : option string) (b : string) : string :=
  match a with
  | Some s => if bool_decide (s = "") then b else s
  | None => b
  end.

(** [VARCHAR(n)] takes [s]: it has at most [n] characters.  A longer
    string is refused; the server would cut off an excess that consists of
    spaces only, which is not represented. *)
Definition fits (n : nat) (s : string) : bool := bool_decide (String.length s ≤ n)%nat.

(** The six parameters of one tuple, read into the column types.  [None]
    when the server refuses one: a string longer than its [VARCHAR], a
    price [DECIMAL(18, 8)] cannot hold.  Identifiers are ASCII, so bytes
    count characters.  An outcome label that is absent is sent as NULL,
    which the column takes. *)
Definition to_values (p : price_record) : option price_values :=
  let src := or_string (pr_source p) "rest" in
  if fits 255 (pr_conditionId p) && fits 255 (pr_tokenId p)
     && from_option (fits 255) true (pr_outcome p) && fits 50 src
  then
    x ← to_decimal_18_8 (pr_price p);
    Some {| v_condition_id := pr_conditionId p;
            v_token_id := pr_tokenId p;
            v_outcome := pr_outcome p;
            v_price := x;
            v_timestamp := pr_timestamp p;
            v_source := Some src |}
  else None.

(** The INSERT of [insertPrice] and [batchInsertPrices] as [query] runs
    it: every tuple is read first, and one that is refused aborts the
    statement. *)
Definition insert_market_prices (prices : list price_record)
    (NOW : Z) (catalog : list games_row) (st : store) : option (unit * store) :=
  vs ← mapM to_values prices;
  Some (tt, insert_rows NOW vs st).

Definition insertPrice (data : price_record) : M unit :=
  query (InsertMarketPrices 1) (insert_market_prices [data]).

Definition batchInsertPrices (prices : list price_record) : M unit :=
  match prices with
  | [] => mret tt
  | _ :: _ =>
      query (InsertMarketPrices (length prices)) (insert_market_prices prices);;
      log (LogBatchInserted (length prices))
  end.

Definition hours (n : Z) : Z := n * 3600000.
Definition minutes (n : Z) : Z := n * 60000.

(** The WHERE clause of [getActiveGames]. *)
Definition active_where (NOW : Z) (g : games_row) : Prop :=
  closed g = false ∧
  (start_date g ≤ NOW ∨ (NOW < start_date g ∧ start_date g < NOW + hours 48)).

#[global] Instance active_where_dec NOW g : Decision (active_where NOW g).
Proof. unfold active_where. apply _. Defined.

(** The enumeration as the specification words it: not closed, and either
    underway (started, and the end still to come or absent) or starting
    within the next 48 hours. *)
Definition trackable_as_specified (NOW : Z) (g : games_row) : Prop :=
  closed g = false ∧
  ((start_date g ≤ NOW ∧
    match end_date g with
    | Some e => NOW < e
    | None => True
    end) ∨
   (NOW < start_date g ∧ start_date g < NOW + hours 48)).

Definition by_start_date (a b : games_row) : Prop := start_date a ≤ start_date b.

#[global] Instance by_start_date_dec a b : Decision (by_start_date a b).
Proof. unfold by_start_date. apply _. Defined.

(** [SELECT id, title, markets FROM games WHERE ... ORDER BY start_date
    ASC].  Rows with equal start dates come in an order SQL leaves open;
    here they keep the order of the table. *)
Definition select_active_games (NOW : Z) (catalog : list games_row) : list games_row :=
  merge_sort by_start_date (filter (active_where NOW) catalog).

Definition is_moneyline (m : market) : Prop := sportsMarketType m = Some "moneyline".

#[global] Instance is_moneyline_dec m : Decision (is_moneyline m).
Proof. unfold is_moneyline. apply _. Defined.

Definition to_game (row : games_row) : game :=
  {| id := g_id row;
     game_title := g_title row;
     markets := filter is_moneyline (default [] (g_markets row)) |}.

Definition getActiveGames : M (list game) :=
  rows ← query SelectActiveGames
            (λ NOW catalog st, Some (select_active_games NOW catalog, st));
  mret (to_game <$> rows).

(** The one row of the aggregate query of [shouldUseHighFrequency].  The
    driver hands the two counts over as decimal strings and [parseInt]
    reads them back; they are kept as numbers here. *)
Record frequency_row : Type := FrequencyRow {
  active_count : N;
  upcoming_count : N;
  next_start_date : option Z;
}.

(** [WHERE closed = false AND start_date < NOW() + INTERVAL '48 hours']. *)
Definition frequency_where (NOW : Z) (g : games_row) : Prop :=
  closed g = false ∧ start_date g < NOW + hours 48.

#[global] Instance frequency_where_dec NOW g : Decision (frequency_where NOW g).
Proof. unfold frequency_where. apply _. Defined.

(** [MIN(x)] over the non-null values. *)
Definition sql_min (l : list Z) : option Z :=
  foldr (λ x acc, match acc with
                  | None => Some x
                  | Some y => Some (Z.min x y)
                  end) None l.

Definition select_frequency (NOW : Z) (catalog : list games_row) : frequency_row :=
  let rows := filter (frequency_where NOW) catalog in
  {| active_count :=
       N.of_nat (length (filter (λ g, start_date g ≤ NOW) rows));
     upcoming_count :=
       N.of_nat (length (filter (λ g, NOW < start_date g ∧
                                      start_date g ≤ NOW + minutes 10) rows));
     next_start_date :=
       sql_min (start_date <$> filter (λ g, NOW < start_date g) rows) |}.

Record frequency : Type := Frequency {
  highFrequency : bool;
  reason : string;
  nextGameStart : option Z;
}.

Section should_use_high_frequency.
(** [Date.prototype.toISOString]. *)
Variable toISOString : Z → string.

Definition shouldUseHighFrequency : M frequency :=
  row ← query SelectFrequency
           (λ NOW catalog st, Some (select_frequency NOW catalog, st));
  let activeCount := active_count row in
  let upcomingCount := upcoming_count row in
  if (0 <? activeCount)%N then
    mret {| highFrequency := true;
            reason := pretty activeCount +:+ " active game(s) in progress";
            nextGameStart := next_start_date row |}
  else if (0 <? upcomingCount)%N then
    mret {| highFrequency := true;
            reason := pretty upcomingCount +:+ " game(s) starting within 10 minutes";
            nextGameStart := next_start_date row |}
  else
    mret {| highFrequency := false;
            reason := match next_start_date row with
                      | Some d => "Next game starts at " +:+ toISOString d
                      | None => "No upcoming games"
                      end;
            nextGameStart := next_start_date row |}.
End should_use_high_frequency.

End Db.

(** ** [src/collect-prices.ts] *)

Module Collector.
Import Pg Js Store Catalog Runtime Db.

Definition CLOB_BASE_URL : string := "https://clob.polymarket.com".

Definition RATE_LIMIT_PER_MINUTE : Z := 90.

(** [Math.ceil(a / b)] for positive integers. *)
Definition ceil_div (a b : Z) : Z := (a + b - 1) / b.

Definition DELAY_BETWEEN_REQUESTS : Z := ceil_div 60000 RATE_LIMIT_PER_MINUTE.

(** [sleep(ms)]: the timer fires after [ms], or later. *)
Definition sleep (ms : Z) : M unit :=
  t ← now;
  emit (EvSleep t ms);;
  late ← next_lateness;
  advance (ms + Z.of_N late).

Record response : Type := HttpResponse {
  status : Z;
  payload : body;
}.

(** [response.ok]. *)
Definition ok (r : response) : bool :=
  bool_decide (200 ≤ status r ≤ 299).

(** [fetch(url)]. *)
Definition fetch (url : string) : M response :=
  t ← now;
  emit (EvFetch t url);;
  r ← next_reply;
  advance (Z.of_N (reply_latency r));;
  match r with
  | NetworkError _ => throw FetchFailed
  | Response _ st b => mret {| status := st; payload := b |}
  end.

(** [response.json()] followed by the reads of [data.price] and
    [data.mid]. *)
Definition json_price_mid (r : response) : M (field * field) :=
  match payload r with
  | BodyNotJson => throw SyntaxError
  | BodyNull => throw TypeError
  | BodyObject p m => mret (p, m)
  end.

Definition truthy (f : field) : bool :=
  match f with
  | Str s => negb (bool_decide (s = ""))
  | _ => false
  end.

(** [a || b]. *)
Definition or_field (a b : field) : field := if truthy a then a else b.

Definition price_url (tokenId : string) : string :=
  CLOB_BASE_URL +:+ "/price?token_id=" +:+ tokenId +:+ "&side=SELL".

(** [fetchTokenPrice(tokenId)]; [None] is [null].  [fuel] bounds the depth
    of the recursion.  Every attempt consumes one scripted reply, so with
    more fuel than replies left the recursion ends on the script and never
    on [fuel]. *)
Fixpoint fetchTokenPrice_rec (fuel : nat) (tokenId : string) : M (option number) :=
  match fuel with
  | O => λ w, (Pending, w)
  | S fuel' =>
      try_catch
        (response ← fetch (price_url tokenId);
         if negb (ok response) then
           if bool_decide (status response = 429) then
             log LogRateLimited;;
             sleep 30000;;
             fetchTokenPrice_rec fuel' tokenId
           else
             log (LogFetchFailed tokenId (status response));;
             mret None
         else
           '(price_field, mid_field) ← json_price_mid response;
           match or_field price_field mid_field with
           | Undefined | Null =>
               log (LogNoPriceData tokenId);;
               mret None
           | Str price => mret (Some (parseFloat price))
           end)
        (λ _, log (LogFetchError tokenId);; mret None)
  end.

Definition fetchTokenPrice (tokenId : string) : M (option number) :=
  λ w, fetchTokenPrice_rec (S (length (replies w))) tokenId w.

(** The local variables of [collectPrices] that the loops update. *)
Record run_vars : Type := RunVars {
  priceRecords : list price_record;
  requestCount : Z;
  successCount : Z;
  failureCount : Z;
}.

(** [for (const x of l) { body }] over the loop-carried variables. *)
Fixpoint for_of {A S : Type} (l : list A) (body : A → S → M S) (s : S) : M S :=
  match l with
  | [] => mret s
  | x :: l' => s' ← body x s; for_of l' body s'
  end.

(** The body of the innermost loop. *)
Definition collect_outcome (timestamp : Z) (m : market) (o : outcome)
    (vars : run_vars) : M run_vars :=
  match tokenID o with
  | None => log (LogNoTokenId (title o));; mret vars
  | Some tokenId =>
      if bool_decide (tokenId = "") then
        log (LogNoTokenId (title o));; mret vars
      else
        (if bool_decide (0 < requestCount vars) &&
            bool_decide (requestCount vars `mod` 10 = 0)
         then log (LogProgress (requestCount vars));;
              sleep DELAY_BETWEEN_REQUESTS
         else mret tt);;
        price ← fetchTokenPrice tokenId;
        vars' ←
          match price with
          | Some p =>
              log (LogSuccess (title o) p);;
              mret {| priceRecords :=
                        priceRecords vars ++
                        [{| pr_conditionId := conditionId m;
                            pr_tokenId := tokenId;
                            pr_outcome := title o;
                            pr_price := p;
                            pr_timestamp := timestamp;
                            pr_source := Some "rest" |}];
                      requestCount := requestCount vars + 1;
                      successCount := successCount vars + 1;
                      failureCount := failureCount vars |}
          | None =>
              log (LogFailure (title o));;
              mret {| priceRecords := priceRecords vars;
                      requestCount := requestCount vars + 1;
                      successCount := successCount vars;
                      failureCount := failureCount vars + 1 |}
          end;
        sleep DELAY_BETWEEN_REQUESTS;;
        mret vars'
  end.

Definition collect_market (timestamp : Z) (m : market) (vars : run_vars) : M run_vars :=
  match outcomes m with
  | None | Some [] => log (LogNoOutcomes (marketSlug m));; mret vars
  | Some os => for_of os (collect_outcome timestamp m) vars
  end.

Definition collect_game (timestamp : Z) (g : game) (vars : run_vars) : M run_vars :=
  log (LogGame (game_title g) (id g));;
  for_of (markets g) (collect_market timestamp) vars.

(** [collectPrices()].  The banner and the summary are one log line
    each. *)
Definition collectPrices : M unit :=
  startTime ← now;
  log LogStarting;;
  try_catch
    (games ← getActiveGames;
     log (LogFound (length games));;
     match games with
     | [] => log LogNoActiveGames;; mret tt
     | _ :: _ =>
         timestamp ← now;
         vars ← for_of games (collect_game timestamp)
                  {| priceRecords := []; requestCount := 0;
                     successCount := 0; failureCount := 0 |};
         (match priceRecords vars with
          | _ :: _ =>
              log (LogInserting (length (priceRecords vars)));;
              batchInsertPrices (priceRecords vars);;
              log (LogStored (length (priceRecords vars)))
          | [] => log LogNothingToInsert
          end);;
         finished ← now;
         log (LogSummary (finished - startTime) (length games)
                (requestCount vars) (successCount vars) (failureCount vars)
                (length (priceRecords vars)))
     end)
    (λ error, log LogCollectionFailed;; throw error).

End Collector.

(** ** What a trace shows *)

Module Observe.
Import Pg Js Store Catalog Runtime Db Collector.

(** The same environment with another script of replies. *)
Definition with_replies (w : world) (rs : list reply) : world :=
  {| clock := clock w; replies := rs; lateness := lateness w;
     db_available := db_available w; games := games w; db := db w;
     trace := trace w |}.

(** The events of a call that took [w] to [w']. *)
Definition events_since (w w' : world) : list event :=
  drop (length (trace w)) (trace w').

Definition request_of (e : event) : option (Z * string) :=
  match e with
  | EvFetch t url => Some (t, url)
  | _ => None
  end.

(** The quote requests of a trace: when each was issued, and its URL. *)
Definition requests (tr : list event) : list (Z * string) := omap request_of tr.

Definition request_times (tr : list event) : list Z := (requests tr).*1.

Definition timer_of (e : event) : option Z :=
  match e with
  | EvSleep _ ms => Some ms
  | _ => None
  end.

(** The durations slept, in order. *)
Definition timers (tr : list event) : list Z := omap timer_of tr.

(** The counts of a run, read off its events: the games found, the calls
    of [fetchTokenPrice] that gave a price and those that gave none (their
    sum is the number of calls that returned), the records reported
    stored, and the INSERT statements issued. *)
Definition games_found (e : event) : nat :=
  match e with
  | EvLog (LogFound n) => n
  | _ => 0
  end.

Definition is_success (e : event) : bool :=
  match e with
  | EvLog (LogSuccess _ _) => true
  | _ => false
  end.

Definition is_failure (e : event) : bool :=
  match e with
  | EvLog (LogFailure _) => true
  | _ => false
  end.

Definition records_stored (e : event) : nat :=
  match e with
  | EvLog (LogStored n) => n
  | _ => 0
  end.

Definition is_store_write (e : event) : bool :=
  match e with
  | EvQuery (InsertMarketPrices _) => true
  | _ => false
  end.

Definition gamesProcessed (tr : list event) : nat := sum_list_with games_found tr.
Definition successes (tr : list event) : nat := length (filter is_success tr).
Definition failures (tr : list event) : nat := length (filter is_failure tr).
Definition calls (tr : list event) : nat := (successes tr + failures tr)%nat.
Definition priceRecordsStored (tr : list event) : nat :=
  sum_list_with records_stored tr.
Definition store_writes (tr : list event) : nat := length (filter is_store_write tr).

Definition tally (tr : list event) : nat * nat * nat * nat :=
  (gamesProcessed tr, successes tr, failures tr, priceRecordsStored tr).

(** A log line that none of the counts reads. *)
Definition uncounted (l : log_line) : bool :=
  match l with
  | LogFound _ | LogSuccess _ _ | LogFailure _ | LogStored _ => false
  | _ => true
  end.

(** Each instant of [ts] is at least [d] after the one before it. *)
Fixpoint spaced (d : Z) (ts : list Z) : bool :=
  match ts with
  | t1 :: (t2 :: _) as rest => bool_decide (t1 + d ≤ t2) && spaced d rest
  | _ => true
  end.

(** The requests issued since the first [n] events are [d] apart and none
    lies in the future: the state right after a request. *)
Definition settled (n : nat) (d : Z) (w : world) : Prop :=
  (n ≤ length (trace w))%nat ∧
  spaced d (request_times (drop n (trace w))) = true ∧
  Forall (λ t, t ≤ clock w) (request_times (drop n (trace w))).

(** They are [d] apart and the last one is at least [d] ago: the state in
    which the next request may go out. *)
Definition paced (n : nat) (d : Z) (w : world) : Prop :=
  (n ≤ length (trace w))%nat ∧
  spaced d (request_times (drop n (trace w))) = true ∧
  Forall (λ t, t + d ≤ clock w) (request_times (drop n (trace w))).

(** Every request of [tr] comes after a timer of at least [d] that was
    started since the request before it, or since the start of [tr] when
    [waited] is false. *)
Fixpoint delay_before_each_request (d : Z) (waited : bool) (tr : list event) : bool :=
  match tr with
  | [] => true
  | EvSleep _ ms :: rest =>
      delay_before_each_request d (waited || bool_decide (d ≤ ms)) rest
  | EvFetch _ _ :: rest => waited && delay_before_each_request d false rest
  | _ :: rest => delay_before_each_request d waited rest
  end.

(** The instants of [ts] that fall in the minute that starts at [T]. *)
Definition in_minute (T : Z) (ts : list Z) : list Z :=
  filter (λ t, T ≤ t < T + 60000) ts.

(** The state a call of [fetchTokenPrice] is in once a rate-limit
    response that took [latency] has been waited out. *)
Definition after_rate_limit (tokenId : string) (latency : N) (w : world) : world :=
  {| clock := clock w + Z.of_N latency
              + (30000 + Z.of_N (default 0%N (head (lateness w))));
     replies := tail (replies w);
     lateness := tail (lateness w);
     db_available := db_available w; games := games w; db := db w;
     trace := trace w ++ [EvFetch (clock w) (price_url tokenId);
                          EvLog LogRateLimited;
                          EvSleep (clock w + Z.of_N latency) 30000] |}.

Definition is_rate_limited (r : reply) : Prop :=
  match r with
  | Response _ st _ => st = 429
  | NetworkError _ => False
  end.

#[global] Instance is_rate_limited_dec r : Decision (is_rate_limited r).
Proof. destruct r; simpl; apply _. Defined.

End Observe.

(** ** A program logic for the run monad *)

Module Logic.
Import Runtime Db Collector Observe.

(** From a world that satisfies [P], [m] ends in a world that satisfies
    [Qn a] when it returns [a] and [Qa] when it throws or stays pending. *)
Definition triple {A : Type} (P : world → Prop) (m : M A)
    (Qn : A → world → Prop) (Qa : world → Prop) : Prop :=
  ∀ w, P w → match (m w).1 with
             | Ret a => Qn a (m w).2
             | _ => Qa (m w).2
             end.

(** [m] leaves the counts of the trace as they are. *)
Definition silent {A : Type} (m : M A) : Prop :=
  ∀ w, tally (trace (m w).2) = tally (trace w).

(** The loop variables of a run agree with the counts [c] of its trace,
    [g0], [s0], [f0] and [p0] being the counts when the loops began. *)
Definition counted (g0 s0 f0 p0 : nat) (vars : run_vars)
    (c : nat * nat * nat * nat) : Prop :=
  let '(g, s, f, p) := c in
  g = g0 ∧ p = p0 ∧
  Z.of_nat s = Z.of_nat s0 + successCount vars ∧
  Z.of_nat f = Z.of_nat f0 + failureCount vars ∧
  requestCount vars = successCount vars + failureCount vars ∧
  Z.of_nat (length (priceRecords vars)) = successCount vars.

(** The summary line, when it is the last event of [tr], reports the
    counts that [tr] has gained over [g0], [s0], [f0] and [p0]. *)
Definition summary_agrees (g0 s0 f0 p0 : nat) (tr : list event) : Prop :=
  ∀ d g rq sc fl n,
    last tr = Some (EvLog (LogSummary d g rq sc fl n)) →
    gamesProcessed tr = (g0 + g)%nat ∧
    Z.of_nat (successes tr) = Z.of_nat s0 + sc ∧
    Z.of_nat (failures tr) = Z.of_nat f0 + fl ∧
    rq = sc + fl ∧
    priceRecordsStored tr = (p0 + n)%nat.

End Logic.

(** ** Sample catalogs, scripts and batches *)

Module Examples.
Import Pg Js Store Catalog Runtime Db Collector Observe.

(** A process that has just started: nothing scripted, nothing stored. *)
Definition idle : world :=
  {| clock := 10; replies := []; lateness := []; db_available := true;
     games := []; db := empty_store; trace := [] |}.

Definition one_outcome : market :=
  {| sportsMarketType := Some "moneyline"; conditionId := "0xabc";
     marketSlug := "a-b";
     outcomes := Some [ {| title := Some "A"; tokenID := Some "111" |} ] |}.

(** A game under way with one moneyline market of one outcome. *)
Definition started_game : games_row :=
  {| g_id := "g1"; g_title := "A v B"; g_markets := Some [one_outcome];
     start_date := 1000; end_date := None; closed := false |}.

(** A game that ended at 5 and has not been closed. *)
Definition ended_game : games_row :=
  {| g_id := "g2"; g_title := "C v D"; g_markets := None;
     start_date := 0; end_date := Some 5; closed := false |}.

(** A game that starts 40 hours after 10. *)
Definition game_in_40_hours : games_row :=
  {| g_id := "g3"; g_title := "E v F"; g_markets := None;
     start_date := 10 + hours 40; end_date := None; closed := false |}.

Definition after_the_end : world :=
  {| clock := 10; replies := []; lateness := []; db_available := true;
     games := [ended_game]; db := empty_store; trace := [] |}.

Definition two_days_ahead : world :=
  {| clock := 10; replies := []; lateness := []; db_available := true;
     games := [game_in_40_hours]; db := empty_store; trace := [] |}.

(** One outcome to sample, and a quote API that answers at once. *)
Definition single_quote : world :=
  {| clock := 5000;
     replies := [Response 80 200 (BodyObject (Str "0.5") Undefined)];
     lateness := []; db_available := true; games := [started_game];
     db := empty_store; trace := [] |}.

(** One outcome to sample, and a quote API that is rate limiting at
    first. *)
Definition limited_once : world :=
  {| clock := 5000;
     replies := [Response 120 429 BodyNotJson;
                 Response 80 200 (BodyObject (Str "0.65") Undefined)];
     lateness := [3%N]; db_available := true; games := [started_game];
     db := empty_store; trace := [] |}.







Definition server_error : world :=
  {| clock := 0; replies := [Response 25 500 BodyNotJson];
     lateness := []; db_available := true; games := [];
     db := empty_store; trace := [] |}.

Definition batch : list price_record :=
  [ {| pr_conditionId := "0xabc"; pr_tokenId := "111"; pr_outcome := Some "A";
       pr_price := Finite false 65 (-2); pr_timestamp := 5000;
       pr_source := Some "rest" |};
    {| pr_conditionId := "0xabc"; pr_tokenId := "222"; pr_outcome := Some "B";
       pr_price := Finite false 35 (-2); pr_timestamp := 5000;
       pr_source := None |} ].

(** The world a minute after [batch] was written from [idle]. *)
Definition a_minute_later : world :=
  {| clock := 60010; replies := []; lateness := []; db_available := true;
     games := []; db := db (batchInsertPrices batch idle).2; trace := [] |}.

Definition observation (p ts : Z) : price_values :=
  {| v_condition_id := "0xabc"; v_token_id := "111"; v_outcome := Some "A";
     v_price := Num p; v_timestamp := ts; v_source := Some "rest" |}.

(** Prices 0.5, 0.3 and 0.7 observed at 1, 2 and 3. *)
Definition observations : list price_values :=
  [observation 50000000 1; observation 30000000 2; observation 70000000 3].

Definition observations_swapped : list price_values :=
  [observation 30000000 2; observation 50000000 1; observation 70000000 3].

(** Prices 0.5 and 0.3 observed at the same timestamp 1, in both orders. *)
Definition repeated_timestamp : list price_values :=
  [observation 50000000 1; observation 30000000 1].

Definition repeated_timestamp_swapped : list price_values :=
  [observation 30000000 1; observation 50000000 1].

(** Two games under way: one market with outcomes A and B, one with
    outcome C.  The quote API answers 0.3 (as price) and 0.7 (as mid), and
    the third request gets no response. *)
Definition two_outcomes : market :=
  {| sportsMarketType := Some "moneyline"; conditionId := "0xabc";
     marketSlug := "a-b";
     outcomes := Some [ {| title := Some "A"; tokenID := Some "111" |};
                        {| title := Some "B"; tokenID := Some "222" |} ] |}.

Definition other_outcome : market :=
  {| sportsMarketType := Some "moneyline"; conditionId := "0xdef";
     marketSlug := "c-d";
     outcomes := Some [ {| title := Some "C"; tokenID := Some "333" |} ] |}.

Definition two_games : world :=
  {| clock := 5000;
     replies := [Response 80 200 (BodyObject (Str "0.3") Undefined);
                 Response 90 200 (BodyObject Undefined (Str "0.7"));
                 NetworkError 40];
     lateness := [1%N; 0%N; 2%N]; db_available := true;
     games := [ {| g_id := "g1"; g_title := "A v B";
                   g_markets := Some [two_outcomes];
                   start_date := 1000; end_date := None; closed := false |};
                {| g_id := "g2"; g_title := "C v D";
                   g_markets := Some [other_outcome];
                   start_date := 2000; end_date := None; closed := false |} ];
     db := empty_store; trace := [] |}.

(** The three prices an extremes row keeps. *)
Definition price_columns (r : market_price_extremes_row)
  : option numeric * option numeric * option numeric :=
  (lowest_price r, highest_price r, current_price r).

End Examples.

(** ** What the two tables say about each other *)

Module Ledger.
Import Pg Store.

(** Every row sits under its own unique key. *)
Definition keyed (st : store) : Prop :=
  (∀ k r, market_prices st !! k = Some r →
          (condition_id r, token_id r, timestamp r) = k) ∧
  (∀ k r, market_price_extremes st !! k = Some r →
          (ext_condition_id r, ext_token_id r) = k).

(** The serial ids handed out so far lie below the sequences, and no two
    rows of a table share one. *)
Definition serial (st : store) : Prop :=
  (∀ k r, market_prices st !! k = Some r → id r < market_prices_id_seq st) ∧
  (∀ k r, market_price_extremes st !! k = Some r →
          ext_id r < market_price_extremes_id_seq st) ∧
  (∀ k k' r r', market_prices st !! k = Some r → market_prices st !! k' = Some r' →
                id r = id r' → k = k') ∧
  (∀ k k' r r', market_price_extremes st !! k = Some r →
                market_price_extremes st !! k' = Some r' →
                ext_id r = ext_id r' → k = k').

(** The stored observation of outcome [(c, t)] that was inserted first,
    and the one that was inserted last: the serial id tells the order. *)
Definition inserted_first (st : store) (c t : string) (ts : Z)
    (row : market_prices_row) : Prop :=
  market_prices st !! (c, t, ts) = Some row ∧
  ∀ ts' row', market_prices st !! (c, t, ts') = Some row' → id row ≤ id row'.

Definition inserted_last (st : store) (c t : string) (ts : Z)
    (row : market_prices_row) : Prop :=
  market_prices st !! (c, t, ts) = Some row ∧
  ∀ ts' row', market_prices st !! (c, t, ts') = Some row' → id row' ≤ id row.

(** What the extremes record [r] of outcome [(c, t)] says about the stored
    observations of that outcome: its lowest and highest price are prices
    of stored observations, with their timestamps, and bound the price of
    every stored observation; its current price is that of the observation
    inserted last; [first_recorded] is the timestamp of the observation
    inserted first. *)
Definition tracks (st : store) (c t : string) (r : market_price_extremes_row) : Prop :=
  (∃ ts row, market_prices st !! (c, t, ts) = Some row ∧
             lowest_price r = Some (price row) ∧
             lowest_price_timestamp r = Some ts) ∧
  (∃ ts row, market_prices st !! (c, t, ts) = Some row ∧
             highest_price r = Some (price row) ∧
             highest_price_timestamp r = Some ts) ∧
  (∃ ts row, inserted_last st c t ts row ∧
             current_price r = Some (price row) ∧
             current_price_timestamp r = Some ts) ∧
  (∃ ts row, inserted_first st c t ts row ∧
             first_recorded r = Some ts ∧
             ext_outcome r = outcome row) ∧
  (∀ ts row, market_prices st !! (c, t, ts) = Some row →
             ∃ lo hi, lowest_price r = Some lo ∧ highest_price r = Some hi ∧
                      numeric_le lo (price row) = true ∧
                      numeric_le (price row) hi = true).

(** The invariant of the pipeline's stores. *)
Definition consistent (st : store) : Prop :=
  keyed st ∧ serial st ∧ well_formed st ∧
  ∀ c t r, market_price_extremes st !! (c, t) = Some r → tracks st c t r.

(** [a <= b] on nullable prices that are present. *)
Definition price_le (a b : option numeric) : Prop :=
  ∃ x y, a = Some x ∧ b = Some y ∧ numeric_le x y = true.

(** The extremes record [r'] is a later state of the record [r]: the same
    id, outcome label and [first_recorded], a lowest price that is no
    higher and a highest price that is no lower. *)
Definition later_state (r r' : market_price_extremes_row) : Prop :=
  ext_id r' = ext_id r ∧
  ext_condition_id r' = ext_condition_id r ∧
  ext_token_id r' = ext_token_id r ∧
  ext_outcome r' = ext_outcome r ∧
  first_recorded r' = first_recorded r ∧
  price_le (lowest_price r') (lowest_price r) ∧
  price_le (highest_price r) (highest_price r').

End Ledger.

(** ** The clean-up migrations:
    [migrations/006_delete_orphaned_extremes.sql] and
    [migrations/002_delete_old_prices_ALTERNATIVE.sql] *)

Module Migrations.
Import Pg Store.

(** [condition_id LIKE '0x%']. *)
Definition like_0x (condition_id : string) : bool := String.prefix "0x" condition_id.

(** [DELETE FROM market_price_extremes WHERE condition_id NOT LIKE '0x%']. *)
Definition delete_orphaned_extremes (st : store) : store :=
  {| market_prices := market_prices st;
     market_price_extremes :=
       filter (λ kr, like_0x (ext_condition_id kr.2) = true) (market_price_extremes st);
     market_prices_id_seq := market_prices_id_seq st;
     market_price_extremes_id_seq := market_price_extremes_id_seq st |}.

(** [DELETE FROM market_prices WHERE condition_id NOT LIKE '0x%']. *)
Definition delete_non_hex_prices (st : store) : store :=
  {| market_prices :=
       filter (λ kr, like_0x (condition_id kr.2) = true) (market_prices st);
     market_price_extremes := market_price_extremes st;
     market_prices_id_seq := market_prices_id_seq st;
     market_price_extremes_id_seq := market_price_extremes_id_seq st |}.

(** The alternative migration: step 1, then step 2. *)
Definition delete_old_prices (st : store) : store :=
  delete_non_hex_prices (delete_orphaned_extremes st).

(** The count of its verification query,
    [SELECT COUNT( * ) FROM market_price_extremes WHERE condition_id NOT
    LIKE '0x%']. *)
Definition remaining_non_hex (st : store) : nat :=
  size (filter (λ kr : string * string * market_price_extremes_row,
                  like_0x (ext_condition_id kr.2) = false)
               (market_price_extremes st)).

End Migrations.

(** ** What a run samples and what it leaves behind *)

Module Accounting.
Import Pg Js Store Catalog Runtime Db Collector Observe.

(** The title of the outcome whose result a log line reports. *)
Definition result_of (e : event) : option (option string) :=
  match e with
  | EvLog (LogSuccess title _) => Some title
  | EvLog (LogFailure title) => Some title
  | _ => None
  end.

(** The results of a trace: the outcome titles of its success and failure
    lines, in order. *)
Definition results (tr : list event) : list (option string) := omap result_of tr.

(** [outcome.tokenID] is truthy. *)
Definition has_token (o : outcome) : bool :=
  match tokenID o with
  | Some tokenId => negb (bool_decide (tokenId = ""))
  | None => false
  end.

(** The titles of the outcomes the loops of [collectPrices] ask a price
    for, in the order of the loops. *)
Definition titles_of_outcome (o : outcome) : list (option string) :=
  if has_token o then [title o] else [].

Definition titles_of_market (m : market) : list (option string) :=
  default [] (outcomes m) ≫= titles_of_outcome.

Definition titles_of_game (g : game) : list (option string) :=
  markets g ≫= titles_of_market.

Definition sampled_titles (gs : list game) : list (option string) :=
  gs ≫= titles_of_game.

(** [m] throws nothing but the database error. *)
Definition throws_only_database_error {A : Type} (m : M A) : Prop :=
  ∀ w e, (m w).1 = Throw e → e = DatabaseError.

(** [w0] after the events [evs], nothing else having changed. *)
Definition with_events (w0 : world) (evs : list event) : world :=
  {| clock := clock w0; replies := replies w0; lateness := lateness w0;
     db_available := db_available w0; games := games w0; db := db w0;
     trace := trace w0 ++ evs |}.

(** A world in the loops of the run that began in [w0]: the results so far
    are [acc], no INSERT was issued, the clock is at [lo] or later and has
    not gone back, and the store is untouched. *)
Definition in_loops (w0 : world) (acc : list (option string)) (lo : Z) (w : world) : Prop :=
  (∃ evs, trace w = trace w0 ++ evs ∧ results evs = acc ∧
          store_writes evs = 0%nat) ∧
  (lo ≤ clock w ∧ clock w0 ≤ clock w) ∧
  db w = db w0 ∧
  db_available w = db_available w0.

(** A world the run that began in [w0] has not written to. *)
Definition unwritten (w0 w : world) : Prop :=
  db w = db w0 ∧ clock w0 ≤ clock w.

(** What the loop variables say, given the results so far: one request per
    result, one record per success, and records that carry the timestamp of
    the run and the source "rest". *)
Definition booked (ts : Z) (acc : list (option string)) (vars : run_vars) : Prop :=
  (requestCount vars = Z.of_nat (length acc) ∧
   successCount vars = Z.of_nat (length (priceRecords vars))) ∧
  Forall (λ p, pr_timestamp p = ts ∧ pr_source p = Some "rest") (priceRecords vars).

(** What the run that took [w0] to [w'] and returned has done, [gs] being
    the games it found. *)
Definition run_account (w0 : world) (gs : list game) (w' : world) : Prop :=
  ∃ vars evs,
    trace w' = trace w0 ++ evs ∧
    results evs = sampled_titles gs ∧
    (store_writes evs ≤ 1)%nat ∧
    booked (clock w0) (sampled_titles gs) vars ∧
    clock w0 + DELAY_BETWEEN_REQUESTS * requestCount vars ≤ clock w' ∧
    match gs with
    | [] => evs = [EvLog LogStarting; EvQuery SelectActiveGames;
                   EvLog LogQueryExecuted; EvLog (LogFound 0);
                   EvLog LogNoActiveGames]
    | _ :: _ =>
        last evs = Some (EvLog (LogSummary (clock w' - clock w0) (length gs)
                                  (requestCount vars) (successCount vars)
                                  (failureCount vars) (length (priceRecords vars))))
    end ∧
    ((priceRecords vars = [] ∧ db w' = db w0) ∨
     (∃ vs, mapM to_values (priceRecords vars) = Some vs ∧
            db w' = insert_rows (clock w') vs (db w0))).

(** An outcome the loops of [collectPrices] ask a price for: its market,
    the outcome, and its token id, which is not empty. *)
Record sample : Type := Sample {
  of_market : market;
  of_outcome : outcome;
  token : string;
}.

Definition samples_of_outcome (m : market) (o : outcome) : list sample :=
  match tokenID o with
  | Some tokenId => if bool_decide (tokenId = "") then [] else [Sample m o tokenId]
  | None => []
  end.

Definition samples_of_market (m : market) : list sample :=
  default [] (outcomes m) ≫= samples_of_outcome m.

Definition samples_of_game (g : game) : list sample :=
  markets g ≫= samples_of_market.

(** The outcomes sampled for the games [gs], in the order of the loops. *)
Definition samples (gs : list game) : list sample := gs ≫= samples_of_game.

(** What a trace shows of the sampling: the quote requests, by URL, the
    rate-limit warnings, and the result lines. *)
Inductive step : Type :=
| Asked (url : string)
| RateLimited
| Succeeded (title : option string) (price : number)
| Failed (title : option string).

Definition step_of (e : event) : option step :=
  match e with
  | EvFetch _ url => Some (Asked url)
  | EvLog LogRateLimited => Some RateLimited
  | EvLog (LogSuccess title price) => Some (Succeeded title price)
  | EvLog (LogFailure title) => Some (Failed title)
  | _ => None
  end.

Definition steps (tr : list event) : list step := omap step_of tr.

(** How one call of [fetchTokenPrice] went: how often it was told to
    retry by the rate-limit status, and what it returned. *)
Record quote : Type := Quote {
  retries : nat;
  quoted : option number;
}.

(** One call of [fetchTokenPrice] that is told [k] times to retry:
    the URL is requested, and after every rate-limit warning once more. *)
Definition attempts (url : string) (k : nat) : list step :=
  Asked url :: mjoin (replicate k [RateLimited; Asked url]).

(** The steps of sampling [s] when the call went as [q]: the attempts on
    the URL of the token, then the result line, which names the outcome. *)
Definition steps_of_sample (s : sample) (q : quote) : list step :=
  attempts (price_url (token s)) (retries q) ++
  [match quoted q with
   | Some p => Succeeded (title (of_outcome s)) p
   | None => Failed (title (of_outcome s))
   end].

(** The record pushed for [s], if any. *)
Definition record_of_sample (timestamp : Z) (s : sample) (q : quote)
    : option price_record :=
  p ← quoted q;
  Some {| pr_conditionId := conditionId (of_market s);
          pr_tokenId := token s;
          pr_outcome := title (of_outcome s);
          pr_price := p;
          pr_timestamp := timestamp;
          pr_source := Some "rest" |}.

(** The events [evs] show the sampling of [ss], in order and nothing else
    of the kind, and [recs] are the records it pushed. *)
Definition sampled (timestamp : Z) (ss : list sample) (evs : list event)
    (recs : list price_record) : Prop :=
  ∃ qs : list quote,
    length qs = length ss ∧
    steps evs = mjoin (zip_with steps_of_sample ss qs) ∧
    recs = omap (λ sq, record_of_sample timestamp sq.1 sq.2) (zip ss qs).

(** A world in the run that began in [w0]: the steps so far are [sts], and
    the store is untouched. *)
Definition stepped (w0 : world) (sts : list step) (w : world) : Prop :=
  (∃ evs, trace w = trace w0 ++ evs ∧ steps evs = sts) ∧ db w = db w0.

(** What the run that took [w0] to [w'] and returned has sampled and
    written, [gs] being the games it found and [w0] its first world. *)
Definition sampling_account (w0 : world) (gs : list game) (w' : world) : Prop :=
  ∃ evs recs,
    trace w' = trace w0 ++ evs ∧
    sampled (clock w0) (samples gs) evs recs ∧
    ((recs = [] ∧ db w' = db w0) ∨
     (∃ vs, mapM to_values recs = Some vs ∧
            db w' = insert_rows (clock w') vs (db w0))).

End Accounting.

(** ** The process around the collector: [main], [close], and
    [src/scheduler.ts] *)

Module Process.
Import Pg Js Store Catalog Runtime Db Collector Observe.

(** Console output of [scheduler.ts], of [main] and of [close], one
    constructor per message; the banner, the rule lines around a message
    and the lines of one report count with their message. *)
Inductive console_line : Type :=
| LogPoolClosed
| LogFatalUnhandled
| LogSchedulerBanner
| LogCycleStarting (at_ : Z) (runCount : Z)
| LogFrequencyCheck (highFrequency : bool) (reason : string)
| LogNextGame (nextGameStart : Z)
| LogStartingCollection
| LogCycleCompleted (duration : string)
| LogNextCollection (wait : string)
| LogCycleFailed
| LogWaitingToRetry
| LogShutdown (signal : string).

(** What a promise of this layer is rejected with: an error of the
    collector, or the error of [pool.end()] on a pool that has ended. *)
Inductive failure : Type :=
| Failure (e : error)
| EndCalledTwice.

(** The process: the environment of the collector, whether the pool has
    ended, and the console lines of this layer, each with the number of
    events of the environment that came before it. *)
Record process : Type := Process_ {
  env : world;
  pool_ended : bool;
  console : list (nat * console_line);
}.

(** How a call ends: its promise is fulfilled, is rejected, is still
    pending, or the process has exited. *)
Inductive ending (A : Type) : Type :=
| Fulfilled (a : A)
| Rejected (f : failure)
| Unsettled
| Exited (code : Z).
Arguments Fulfilled {A} a.
Arguments Rejected {A} f.
Arguments Unsettled {A}.
Arguments Exited {A} code.

Definition Proc (A : Type) : Type := process → ending A * process.

Definition proc_ret {A : Type} (a : A) : Proc A := λ p, (Fulfilled a, p).

Definition proc_bind {A B : Type} (m : Proc A) (k : A → Proc B) : Proc B :=
  λ p, match m p with
       | (Fulfilled a, p') => k a p'
       | (Rejected f, p') => (Rejected f, p')
       | (Unsettled, p') => (Unsettled, p')
       | (Exited code, p') => (Exited code, p')
       end.

#[global] Instance Proc_ret : MRet Proc := @proc_ret.
#[global] Instance Proc_bind : MBind Proc := λ A B k m, proc_bind m k.

(** A call of the collector, run in the environment of the process. *)
Definition lift {A : Type} (m : M A) : Proc A :=
  λ p, let '(r, w') := m (env p) in
       let p' := {| env := w'; pool_ended := pool_ended p; console := console p |} in
       match r with
       | Ret a => (Fulfilled a, p')
       | Throw e => (Rejected (Failure e), p')
       | Pending => (Unsettled, p')
       end.

Definition say (l : console_line) : Proc unit :=
  λ p, (Fulfilled tt,
        {| env := env p; pool_ended := pool_ended p;
           console := console p ++ [(length (trace (env p)), l)] |}).

(** [process.exit(code)]: nothing of the program runs after it. *)
Definition exit {A : Type} (code : Z) : Proc A := λ p, (Exited code, p).

(** [try { m } catch (error) { handler }]. *)
Definition try_catch_proc {A : Type} (m : Proc A) (handler : failure → Proc A) : Proc A :=
  λ p, match m p with
       | (Rejected f, p') => handler f p'
       | other => other
       end.

(** [try { m } finally { cleanup }]: the cleanup runs when [m] has
    settled, and its own failure replaces the outcome of [m]. *)
Definition try_finally {A : Type} (m : Proc A) (cleanup : Proc unit) : Proc A :=
  λ p, match m p with
       | (Fulfilled a, p') =>
           match cleanup p' with
           | (Fulfilled _, p'') => (Fulfilled a, p'')
           | (Rejected f, p'') => (Rejected f, p'')
           | (Unsettled, p'') => (Unsettled, p'')
           | (Exited code, p'') => (Exited code, p'')
           end
       | (Rejected f, p') =>
           match cleanup p' with
           | (Fulfilled _, p'') => (Rejected f, p'')
           | (Rejected f', p'') => (Rejected f', p'')
           | (Unsettled, p'') => (Unsettled, p'')
           | (Exited code, p'') => (Exited code, p'')
           end
       | other => other
       end.

(** [close()] of [db.ts]: [pool.end()], after which the pool answers no
    query, then one console line. *)
Definition close : Proc unit :=
  λ p, if pool_ended p then (Rejected EndCalledTwice, p)
       else
         say LogPoolClosed
           {| env := {| clock := clock (env p); replies := replies (env p);
                        lateness := lateness (env p); db_available := false;
                        games := games (env p); db := db (env p);
                        trace := trace (env p) |};
              pool_ended := true; console := console p |}.

(** [main()] of [collect-prices.ts]. *)
Definition main : Proc unit :=
  try_finally
    (try_catch_proc (lift collectPrices)
       (λ _, say LogFatalUnhandled;; exit 1))
    close.

(** [shutdown(signal)] of [scheduler.ts]. *)
Definition shutdown (signal : string) : Proc unit :=
  say (LogShutdown signal);;
  close;;
  exit 0.

(** [formatDuration(ms)]: [Math.floor] of a quotient by a positive number
    is the floor division, [%] is the remainder that takes the sign of the
    dividend. *)
Definition formatDuration (ms : Z) : string :=
  let minutes := ms `div` 60000 in
  let seconds := (ms `rem` 60000) `div` 1000 in
  pretty minutes +:+ "m " +:+ pretty seconds +:+ "s".

Section scheduler.
(** [Date.prototype.toISOString]. *)
Variable toISOString : Z → string.

(** One turn of the [while (true)] loop of [scheduler()], [runCount]
    having been incremented. *)
Definition cycle (runCount : Z) : Proc unit :=
  cycleStart ← lift now;
  say (LogCycleStarting cycleStart runCount);;
  try_catch_proc
    (frequencyCheck ← lift (shouldUseHighFrequency toISOString);
     say (LogFrequencyCheck (highFrequency frequencyCheck) (reason frequencyCheck));;
     match nextGameStart frequencyCheck with
     | Some d => say (LogNextGame d)
     | None => mret tt
     end;;
     say LogStartingCollection;;
     lift collectPrices;;
     let intervalMs := if highFrequency frequencyCheck
                       then 2 * 60 * 1000 else 10 * 60 * 1000 in
     finished ← lift now;
     let cycleDuration := finished - cycleStart in
     let sleepTime := Z.max 0 (intervalMs - cycleDuration) in
     say (LogCycleCompleted (formatDuration cycleDuration));;
     say (LogNextCollection (formatDuration sleepTime));;
     if bool_decide (0 < sleepTime) then lift (sleep sleepTime) else mret tt)
    (λ _, say LogCycleFailed;;
          say LogWaitingToRetry;;
          lift (sleep 60000)).

(** The first [turns] turns of the loop, from [runCount]; the value is the
    [runCount] reached. *)
Fixpoint cycles (turns : nat) (runCount : Z) : Proc Z :=
  match turns with
  | O => mret runCount
  | S turns' => cycle (runCount + 1);; cycles turns' (runCount + 1)
  end.

(** [scheduler()], as far as its first [turns] turns. *)
Definition scheduler (turns : nat) : Proc Z :=
  say LogSchedulerBanner;;
  cycles turns 0.

End scheduler.

(** The process at its start, in the environment [w]. *)
Definition started (w : world) : process :=
  {| env := w; pool_ended := false; console := [] |}.

(** The console lines of this layer since [p]. *)
Definition said_since (p p' : process) : list console_line :=
  (drop (length (console p)) (console p')).*2.

(** From an environment that satisfies [Pre], [m] ends in one that
    satisfies [Qn a] when it is fulfilled with [a], and [Qa] otherwise. *)
Definition proc_triple {A : Type} (Pre : world → Prop) (m : Proc A)
    (Qn : A → world → Prop) (Qa : world → Prop) : Prop :=
  ∀ p, Pre (env p) → match (m p).1 with
                     | Fulfilled a => Qn a (env (m p).2)
                     | _ => Qa (env (m p).2)
                     end.

(** [m] is fulfilled or still pending: it does not reject and does not
    exit. *)
Definition carries_on {A : Type} (m : Proc A) : Prop :=
  ∀ p, match (m p).1 with
       | Fulfilled _ | Unsettled => True
       | Rejected _ | Exited _ => False
       end.

(** [m] does not exit the process. *)
Definition stays {A : Type} (m : Proc A) : Prop :=
  ∀ p code, (m p).1 ≠ Exited code.

(** The interval a frequency decision asks for. *)
Definition interval_of (f : frequency) : Z :=
  if highFrequency f then 120000 else 600000.

End Process.

(** ** More sample data *)

Module Samples.
Import Pg Js Store Catalog Runtime Db Collector Observe.

(** Another price for the first observation of [Examples.batch], with the
    same key. *)
Definition correction : price_record :=
  {| pr_conditionId := "0xabc"; pr_tokenId := "111"; pr_outcome := Some "A";
     pr_price := Finite false 99 (-2); pr_timestamp := 5000;
     pr_source := None |}.

(** An observation whose quote did not parse. *)
Definition unparsed : price_record :=
  {| pr_conditionId := "0xabc"; pr_tokenId := "111"; pr_outcome := Some "A";
     pr_price := parseFloat "abc"; pr_timestamp := 4000;
     pr_source := Some "rest" |}.

(** [Examples.single_quote], a run that will observe 0.5 for the same
    outcome, once [unparsed] has been stored. *)
Definition after_unparsed : world :=
  {| clock := 5000;
     replies := [Response 80 200 (BodyObject (Str "0.5") Undefined)];
     lateness := []; db_available := true; games := [Examples.started_game];
     db := db (insertPrice unparsed Examples.idle).2; trace := [] |}.

(** Observations stored under a game id instead of a condition id, as the
    first version of the collector wrote them: 0.2 at 1 and 0.4 at 2. *)
Definition legacy (p ts : Z) : price_values :=
  {| v_condition_id := "82104"; v_token_id := "111"; v_outcome := None;
     v_price := Num p; v_timestamp := ts; v_source := Some "rest" |}.

Definition mixed_store : store :=
  insert_rows 100 (legacy 20000000 1 :: legacy 40000000 2 :: Examples.observations)
    empty_store.

(** A catalog that lists the same outcome twice, and a quote API that
    answers both requests. *)
Definition listed_twice : world :=
  {| clock := 5000;
     replies := [Response 80 200 (BodyObject (Str "0.5") Undefined);
                 Response 80 200 (BodyObject (Str "0.6") Undefined)];
     lateness := []; db_available := true;
     games := [ {| g_id := "g1"; g_title := "A v B";
                   g_markets := Some [Examples.one_outcome; Examples.one_outcome];
                   start_date := 1000; end_date := None; closed := false |} ];
     db := empty_store; trace := [] |}.

(** A catalog whose only outcome has a token and no title, and a quote
    API that answers. *)
Definition unlabelled : world :=
  {| clock := 5000;
     replies := [Response 80 200 (BodyObject (Str "0.5") Undefined)];
     lateness := []; db_available := true;
     games := [ {| g_id := "g1"; g_title := "A v B";
                   g_markets :=
                     Some [ {| sportsMarketType := Some "moneyline";
                               conditionId := "0xabc"; marketSlug := "a-b";
                               outcomes := Some [ {| title := None;
                                                     tokenID := Some "111" |} ] |} ];
                   start_date := 1000; end_date := None; closed := false |} ];
     db := empty_store; trace := [] |}.

(** A world whose database does not answer. *)
Definition database_down : world :=
  {| clock := 10; replies := []; lateness := []; db_available := false;
     games := []; db := empty_store; trace := [] |}.

End Samples.

(** * Properties *)

Import Pg Js Store Catalog Runtime Db Collector Observe Logic.

(** ** Facts about the store *)

Section store_facts.
Implicit Types (st : store) (v : price_values) (vs : list price_values).

Lemma update_price_extremes_prices now NEW st :
  market_prices (update_price_extremes now NEW st) = market_prices st.
Proof. reflexivity. Qed.

Lemma insert_row_conflict now v st r :
  market_prices st !! values_key v = Some r →
  market_prices (insert_row now v st) = market_prices st ∧
  market_price_extremes (insert_row now v st) = market_price_extremes st.
Proof. intros Hr. unfold insert_row. rewrite Hr. done. Qed.

Lemma insert_row_present now v st :
  is_Some (market_prices (insert_row now v st) !! values_key v).
Proof.
  unfold insert_row.
  destruct (market_prices st !! values_key v) as [r|] eqn:Hr; simpl.
  - rewrite Hr. eauto.
  - rewrite lookup_insert_eq. eauto.
Qed.

(** Rows are never changed or removed by an insert. *)
Lemma insert_row_keeps now v st k r :
  market_prices st !! k = Some r →
  market_prices (insert_row now v st) !! k = Some r.
Proof.
  intros Hk. unfold insert_row.
  destruct (market_prices st !! values_key v) as [r'|] eqn:Hr; simpl; [done|].
  rewrite lookup_insert_ne; [done|]. intros <-. congruence.
Qed.

Lemma insert_rows_keeps now vs st k r :
  market_prices st !! k = Some r →
  market_prices (insert_rows now vs st) !! k = Some r.
Proof.
  revert st. induction vs as [|v vs IH]; intros st Hk; [done|].
  apply IH. by apply insert_row_keeps.
Qed.

Lemma insert_rows_present now vs st v :
  v ∈ vs → is_Some (market_prices (insert_rows now vs st) !! values_key v).
Proof.
  revert st. induction vs as [|v' vs IH]; intros st Hin.
  - by apply elem_of_nil in Hin.
  - apply elem_of_cons in Hin as [->|Hin]; [|by apply IH].
    destruct (insert_row_present now v' st) as [r Hr].
    exists r. simpl. by apply insert_rows_keeps.
Qed.

(** A statement all of whose tuples conflict leaves both tables alone. *)
Lemma insert_rows_all_conflict now vs st :
  (∀ v, v ∈ vs → is_Some (market_prices st !! values_key v)) →
  market_prices (insert_rows now vs st) = market_prices st ∧
  market_price_extremes (insert_rows now vs st) = market_price_extremes st.
Proof.
  revert st. induction vs as [|v vs IH]; intros st Hall; [done|].
  destruct (Hall v) as [r Hr]; [left|].
  destruct (insert_row_conflict now v st r Hr) as [Hp He].
  simpl. destruct (IH (insert_row now v st)) as [Hp' He'].
  - intros v' Hv'. rewrite Hp. apply Hall. by right.
  - split; congruence.
Qed.

End store_facts.


(** ** The order on prices *)

Section numeric_order.
Implicit Types a b c : numeric.

Lemma numeric_le_refl a : numeric_le a a = true.
Proof.
  destruct a as [|x]; [done|].
  unfold numeric_le; simpl. rewrite bool_decide_eq_false_2; [done | lia].
Qed.

Lemma numeric_le_trans a b c :
  numeric_le a b = true → numeric_le b c = true → numeric_le a c = true.
Proof.
  unfold numeric_le.
  destruct a as [|x], b as [|y], c as [|z]; simpl; try done.
  rewrite !negb_true_iff, !bool_decide_eq_false. lia.
Qed.

Lemma numeric_le_antisym a b :
  numeric_le a b = true → numeric_le b a = true → a = b.
Proof.
  unfold numeric_le.
  destruct a as [|x], b as [|y]; simpl; try done.
  rewrite !negb_true_iff, !bool_decide_eq_false. intros. f_equal. lia.
Qed.

Lemma numeric_lt_le a b : numeric_lt a b = true → numeric_le a b = true.
Proof.
  unfold numeric_le.
  destruct a as [|x], b as [|y]; simpl; try done.
  rewrite negb_true_iff, bool_decide_eq_true, bool_decide_eq_false. lia.
Qed.

Lemma numeric_not_lt_le a b : numeric_lt a b = false → numeric_le b a = true.
Proof. unfold numeric_le. by intros ->. Qed.

End numeric_order.

Create HintDb price_order.
#[export] Hint Resolve numeric_le_refl numeric_lt_le numeric_not_lt_le : price_order.

(** ** Stepping through the run monad *)

Ltac unfold_run :=
  unfold query, getActiveGames, log, emit, now, advance, database_up, get_db, put_db,
    get_games, next_lateness, next_reply, throw, try_catch;
  unfold mbind, mret, M_bind, M_ret, bind, ret.

Section batch_insert_facts.
Implicit Types (w : world) (B : list price_record).

(** What a non-empty batch write does to the store, and when it completes. *)
Lemma batchInsertPrices_cases B w :
  B ≠ [] →
  (db_available w = true ∧
   ∃ vs, mapM to_values B = Some vs ∧
         (batchInsertPrices B w).1 = Ret tt ∧
         db (batchInsertPrices B w).2 = insert_rows (clock w) vs (db w)) ∨
  ((db_available w = false ∨ mapM to_values B = None) ∧
   (batchInsertPrices B w).1 = Throw DatabaseError ∧
   db (batchInsertPrices B w).2 = db w).
Proof.
  intros HB. destruct B as [|p B]; [done|].
  unfold batchInsertPrices, insert_market_prices. unfold_run. simpl.
  destruct (db_available w) eqn:Hup; simpl.
  - destruct (mapM to_values (p :: B)) as [vs|] eqn:Hvs.
    + left. split; [done|]. exists vs.
      change (to_values p ≫= λ y, mapM to_values B ≫= λ k, mret (y :: k))
        with (mapM to_values (p :: B)).
      rewrite Hvs. simpl. done.
    + right.
      change (to_values p ≫= λ y, mapM to_values B ≫= λ k, mret (y :: k))
        with (mapM to_values (p :: B)).
      rewrite Hvs. simpl. auto.
  - right. auto.
Qed.

Lemma to_values_key p v :
  to_values p = Some v →
  values_key v = (pr_conditionId p, pr_tokenId p, pr_timestamp p).
Proof.
  unfold to_values. case_match; [|done].
  destruct (to_decimal_18_8 (pr_price p)); simpl; [|done].
  by intros [= <-].
Qed.

End batch_insert_facts.

(** ** Idempotent batch writes *)

(** C1.  Writing a batch a second time changes nothing: once
    [batchInsertPrices B] has completed, a second [batchInsertPrices B] on
    the resulting store, at any later time, leaves [market_prices] (and
    [market_price_extremes]) exactly as the first write left them; every
    tuple of [B] finds its (condition_id, token_id, timestamp) key taken,
    so no row is inserted. *)
Theorem batchInsertPrices_idempotent (B : list price_record) (w w' : world) :
  (batchInsertPrices B w).1 = Ret tt →
  db w' = db (batchInsertPrices B w).2 →
  market_prices (db (batchInsertPrices B w').2) = market_prices (db w') ∧
  market_price_extremes (db (batchInsertPrices B w').2) = market_price_extremes (db w') ∧
  (∀ p, p ∈ B →
     is_Some (market_prices (db w') !!
                (pr_conditionId p, pr_tokenId p, pr_timestamp p))) ∧
  rows_inserted (db w') (db (batchInsertPrices B w').2) = 0%nat.
Proof.
  intros Hfirst Hdb.
  destruct B as [|p0 B0].
  { unfold rows_inserted. simpl. repeat split; try done; try lia.
    intros p Hp. by apply elem_of_nil in Hp. }
  set (B := p0 :: B0) in *.
  assert (HB : B ≠ []) by done.
  destruct (batchInsertPrices_cases B w HB) as [(Hup & vs & Hvs & _ & Hst)|(_ & Hthrow & _)];
    [|congruence].
  assert (Hconf : ∀ v, v ∈ vs → is_Some (market_prices (db w') !! values_key v)).
  { intros v Hv. rewrite Hdb, Hst. by apply insert_rows_present. }
  assert (Hkeys : ∀ p, p ∈ B →
            is_Some (market_prices (db w') !!
                       (pr_conditionId p, pr_tokenId p, pr_timestamp p))).
  { intros p Hp.
    apply mapM_Some_1 in Hvs.
    apply list_elem_of_lookup_1 in Hp as [i Hi].
    destruct (Forall2_lookup_l _ _ _ _ _ Hvs Hi) as (v & Hv & Hpv).
    rewrite <- (to_values_key p v Hpv). apply Hconf.
    by apply list_elem_of_lookup_2 with i. }
  assert (Hsame : market_prices (db (batchInsertPrices B w').2) = market_prices (db w') ∧
                  market_price_extremes (db (batchInsertPrices B w').2)
                  = market_price_extremes (db w')).
  { destruct (batchInsertPrices_cases B w' HB)
      as [(_ & vs' & Hvs' & _ & Hst')|(_ & _ & Hst')].
    - rewrite Hst'. assert (vs' = vs) as -> by congruence.
      by apply insert_rows_all_conflict.
    - by rewrite Hst'. }
  destruct Hsame as [Hp He].
  repeat split; try done.
  unfold rows_inserted. rewrite Hp. lia.
Qed.

Lemma batchInsertPrices_idempotent_witness :
  market_prices (db (batchInsertPrices Examples.batch Examples.a_minute_later).2)
  = market_prices (db Examples.a_minute_later) ∧
  market_price_extremes (db (batchInsertPrices Examples.batch Examples.a_minute_later).2)
  = market_price_extremes (db Examples.a_minute_later) ∧
  (∀ p, p ∈ Examples.batch →
     is_Some (market_prices (db Examples.a_minute_later) !!
                (pr_conditionId p, pr_tokenId p, pr_timestamp p))) ∧
  rows_inserted (db Examples.a_minute_later)
    (db (batchInsertPrices Examples.batch Examples.a_minute_later).2) = 0%nat.
Proof.
  apply (batchInsertPrices_idempotent Examples.batch Examples.idle Examples.a_minute_later).
  - vm_compute. reflexivity.
  - reflexivity.
Defined.

(** ** Extremes maintenance *)

Section extremes_facts.
Implicit Types (st : store) (v : price_values) (r : market_price_extremes_row).

Lemma insert_row_new_prices now v st :
  market_prices st !! values_key v = None →
  ∃ NEW, market_prices (insert_row now v st) = <[values_key v := NEW]> (market_prices st).
Proof. intros Hn. unfold insert_row. rewrite Hn. simpl. eauto. Qed.

Lemma insert_row_new_first now v st :
  market_prices st !! values_key v = None →
  market_price_extremes st !! values_outcome v = None →
  ∃ r, market_price_extremes (insert_row now v st) !! values_outcome v = Some r ∧
       lowest_price r = Some (v_price v) ∧
       lowest_price_timestamp r = Some (v_timestamp v) ∧
       highest_price r = Some (v_price v) ∧
       highest_price_timestamp r = Some (v_timestamp v) ∧
       current_price r = Some (v_price v) ∧
       current_price_timestamp r = Some (v_timestamp v).
Proof.
  intros Hn He. unfold insert_row. rewrite Hn.
  unfold update_price_extremes, values_outcome in *. simpl. rewrite He.
  rewrite lookup_insert_eq. eexists. split; [done|]. simpl. done.
Qed.

Lemma insert_row_new_next now v st old :
  market_prices st !! values_key v = None →
  market_price_extremes st !! values_outcome v = Some old →
  market_price_extremes (insert_row now v st) !! values_outcome v
  = Some (do_update_set now (new_row now (market_prices_id_seq st) v) old).
Proof.
  intros Hn He. unfold insert_row. rewrite Hn.
  unfold update_price_extremes, values_outcome in *. simpl. rewrite He.
  by rewrite lookup_insert_eq.
Qed.

(** The trigger touches the record of the inserted row's key only. *)
Lemma insert_row_other_key now v st k :
  k ≠ values_outcome v →
  market_price_extremes (insert_row now v st) !! k = market_price_extremes st !! k.
Proof.
  intros Hk. unfold insert_row.
  destruct (market_prices st !! values_key v); [done|].
  unfold update_price_extremes, values_outcome in *. simpl.
  destruct (market_price_extremes st !! _); by rewrite lookup_insert_ne.
Qed.

Lemma summarises_first r v :
  lowest_price r = Some (v_price v) →
  lowest_price_timestamp r = Some (v_timestamp v) →
  highest_price r = Some (v_price v) →
  highest_price_timestamp r = Some (v_timestamp v) →
  current_price r = Some (v_price v) →
  current_price_timestamp r = Some (v_timestamp v) →
  summarises r [v].
Proof.
  intros. repeat split.
  - exists v. repeat split; [by left|done|done|].
    intros v' ->%list_elem_of_singleton. auto with price_order.
  - exists v. repeat split; [by left|done|done|].
    intros v' ->%list_elem_of_singleton. auto with price_order.
  - exists v. done.
Qed.

Lemma summarises_snoc now i old seen v :
  summarises old seen →
  summarises (do_update_set now (new_row now i v) old) (seen ++ [v]).
Proof.
  intros ((lo & Hlo & Hlp & Hlt & Hmin) & (hi & Hhi & Hhp & Hht & Hmax) & _).
  repeat split.
  - unfold do_update_set; simpl. rewrite Hlp, Hlt. simpl.
    destruct (numeric_lt (v_price v) (v_price lo)) eqn:Hcmp; simpl.
    + exists v. repeat split; [set_solver|].
      intros v' [Hv'| ->%list_elem_of_singleton]%elem_of_app.
      * eapply numeric_le_trans; [by apply numeric_lt_le|by apply Hmin].
      * auto with price_order.
    + exists lo. repeat split; [set_solver|].
      intros v' [Hv'| ->%list_elem_of_singleton]%elem_of_app.
      * by apply Hmin.
      * auto with price_order.
  - unfold do_update_set; simpl. rewrite Hhp, Hht. simpl.
    destruct (numeric_lt (v_price hi) (v_price v)) eqn:Hcmp; simpl.
    + exists v. repeat split; [set_solver|].
      intros v' [Hv'| ->%list_elem_of_singleton]%elem_of_app.
      * eapply numeric_le_trans; [by apply Hmax|by apply numeric_lt_le].
      * auto with price_order.
    + exists hi. repeat split; [set_solver|].
      intros v' [Hv'| ->%list_elem_of_singleton]%elem_of_app.
      * by apply Hmax.
      * auto with price_order.
  - exists v. by rewrite last_snoc.
Qed.

(** Two records that summarise the same observations agree on the
    extreme prices, whatever the order of the observations. *)
Lemma summarises_extremes_unique r r' seen seen' :
  seen' ≡ₚ seen → summarises r seen → summarises r' seen' →
  lowest_price r' = lowest_price r ∧ highest_price r' = highest_price r.
Proof.
  intros Hperm ((lo & Hlo & -> & _ & Hmin) & (hi & Hhi & -> & _ & Hmax) & _)
               ((lo' & Hlo' & -> & _ & Hmin') & (hi' & Hhi' & -> & _ & Hmax') & _).
  split; f_equal; apply numeric_le_antisym.
  - apply Hmin'. by rewrite Hperm.
  - apply Hmin. by rewrite <- Hperm.
  - apply Hmax. by rewrite <- Hperm.
  - apply Hmax'. by rewrite Hperm.
Qed.

End extremes_facts.

Section replay.
Variables (c t : string).
Implicit Types (st : store) (l seen : list price_values) (taken : list Z).

Lemma let_through_ext l : ∀ taken taken',
  (∀ ts, ts ∈ taken ↔ ts ∈ taken') → let_through taken l = let_through taken' l.
Proof.
  induction l as [|v l IH]; intros taken taken' Hsame; [done|]. cbn [let_through].
  destruct (decide (v_timestamp v ∈ taken)) as [Hin|Hout].
  - rewrite decide_True by (by apply Hsame). by apply IH.
  - rewrite decide_False by (by rewrite <- Hsame). f_equal. apply IH.
    intros ts. rewrite !elem_of_cons, Hsame. done.
Qed.

Lemma let_through_NoDup l : ∀ taken,
  NoDup (taken ++ (v_timestamp <$> l)) → let_through taken l = l.
Proof.
  induction l as [|v l IH]; intros taken Hnd; [done|]. cbn [let_through fmap list_fmap] in *.
  apply NoDup_app in Hnd as (Htaken & Hdisj & Hl).
  apply NoDup_cons in Hl as [Hv Hl].
  rewrite decide_False.
  2: { intros Hin. apply (Hdisj _ Hin). simpl. by left. }
  f_equal. apply IH. apply NoDup_app. split; [|split; [|done]].
  - apply NoDup_cons. split; [|done]. intros Hin. apply (Hdisj _ Hin). by left.
  - intros ts [->|Hin]%elem_of_cons; [done|].
    intros Hl'. apply (Hdisj _ Hin). by right.
Qed.

Lemma let_through_first v l : let_through [] (v :: l) = v :: let_through [v_timestamp v] l.
Proof. cbn [let_through]. case_decide as Hin; [by apply elem_of_nil in Hin|done]. Qed.

Lemma replay_invariant now l : ∀ st seen r,
  market_price_extremes st !! (c, t) = Some r →
  summarises r seen →
  (∀ ts, is_Some (market_prices st !! (c, t, ts)) ↔ ts ∈ v_timestamp <$> seen) →
  (∀ v, v ∈ l → values_outcome v = (c, t)) →
  ∃ r', market_price_extremes (insert_rows now l st) !! (c, t) = Some r' ∧
        summarises r' (seen ++ let_through (v_timestamp <$> seen) l).
Proof.
  induction l as [|v l IH]; intros st seen r Hr Hsum Hkeys Hl.
  - exists r. by rewrite app_nil_r.
  - assert (Hv : values_outcome v = (c, t)) by (apply Hl; by left).
    assert (Hkv : values_key v = (c, t, v_timestamp v)).
    { unfold values_key, values_outcome in *. by simplify_eq. }
    simpl.
    destruct (decide (v_timestamp v ∈ v_timestamp <$> seen)) as [Htaken|Hfree].
    + apply Hkeys in Htaken as [old Hold]. rewrite <- Hkv in Hold.
      destruct (insert_row_conflict now v st old Hold) as [Hmp Hext].
      apply (IH (insert_row now v st) seen r).
      * by rewrite Hext.
      * done.
      * intros ts. rewrite Hmp. apply Hkeys.
      * intros v' Hv'. apply Hl. by right.
    + assert (Hfresh : market_prices st !! values_key v = None).
      { apply eq_None_not_Some. intros Hs. rewrite Hkv in Hs. by apply Hkeys in Hs. }
      destruct (insert_row_new_prices now v st Hfresh) as [NEW HNEW].
      destruct (IH (insert_row now v st) (seen ++ [v])
                  (do_update_set now (new_row now (market_prices_id_seq st) v) r))
        as (r' & Hr' & Hsum').
      * rewrite <- Hv. apply insert_row_new_next; [done|]. by rewrite Hv.
      * by apply summarises_snoc.
      * intros ts. rewrite HNEW, Hkv. rewrite fmap_app. simpl.
        destruct (decide (ts = v_timestamp v)) as [->|Hne].
        -- rewrite lookup_insert_eq. split; [|eauto].
           intros _. apply elem_of_app. right. by left.
        -- rewrite lookup_insert_ne by congruence.
           rewrite Hkeys, elem_of_app, list_elem_of_singleton. tauto.
      * intros v' Hv'. apply Hl. by right.
      * exists r'. split; [done|]. rewrite <- app_assoc in Hsum'. simpl in Hsum'.
        rewrite (let_through_ext l (v_timestamp v :: (v_timestamp <$> seen))
                   (v_timestamp <$> seen ++ [v])); [done|].
        intros ts. rewrite fmap_app. simpl.
        rewrite elem_of_cons, elem_of_app, list_elem_of_singleton. tauto.
Qed.

Lemma replay_from_scratch now l st :
  l ≠ [] →
  (∀ v, v ∈ l → values_outcome v = (c, t)) →
  (∀ ts, market_prices st !! (c, t, ts) = None) →
  market_price_extremes st !! (c, t) = None →
  ∃ r, market_price_extremes (insert_rows now l st) !! (c, t) = Some r ∧
       summarises r (let_through [] l).
Proof.
  intros Hne Hl Hnone Hext.
  destruct l as [|v l]; [done|].
  assert (Hv : values_outcome v = (c, t)) by (apply Hl; by left).
  assert (Hkv : values_key v = (c, t, v_timestamp v)).
  { unfold values_key, values_outcome in *. by simplify_eq. }
  assert (Hfresh : market_prices st !! values_key v = None) by (by rewrite Hkv).
  destruct (insert_row_new_first now v st Hfresh) as (r0 & Hr0 & H1 & H2 & H3 & H4 & H5 & H6);
    [by rewrite Hv|].
  destruct (insert_row_new_prices now v st Hfresh) as [NEW HNEW].
  rewrite let_through_first. simpl.
  apply (replay_invariant now l (insert_row now v st) [v] r0).
  - by rewrite <- Hv.
  - by apply summarises_first.
  - intros ts. rewrite HNEW, Hkv. simpl.
    destruct (decide (ts = v_timestamp v)) as [->|Hne'].
    + rewrite lookup_insert_eq. split; [intros _; by left|eauto].
    + rewrite lookup_insert_ne by congruence. rewrite Hnone.
      split; [by intros [? ?]|by intros ->%list_elem_of_singleton].
  - intros v' Hv'. apply Hl. by right.
Qed.

End replay.

(** C2, as the specification states it, fails on a sequence that repeats a
    timestamp: of the two observations 0.5 and 0.3 at timestamp 1 the second
    meets the key of the first and is dropped before the trigger, so the
    lowest price is 0.5, not the minimum 0.3 of the sequence; in the other
    order it is 0.3. *)
Lemma extremes_replay_repeated_timestamp :
  Forall (λ v, values_outcome v = ("0xabc", "111")) Examples.repeated_timestamp ∧
  Examples.repeated_timestamp_swapped ≡ₚ Examples.repeated_timestamp ∧
  (∃ r, market_price_extremes (insert_rows 100 Examples.repeated_timestamp empty_store)
          !! ("0xabc", "111") = Some r ∧
        lowest_price r = Some (Num 50000000) ∧
        Examples.observation 30000000 1 ∈ Examples.repeated_timestamp ∧
        numeric_lt (Num 30000000) (Num 50000000) = true ∧
        ¬ attains_min Examples.repeated_timestamp
            (lowest_price r) (lowest_price_timestamp r)) ∧
  (∃ r', market_price_extremes
           (insert_rows 100 Examples.repeated_timestamp_swapped empty_store)
           !! ("0xabc", "111") = Some r' ∧
         lowest_price r' = Some (Num 30000000)).
Proof.
  split; [by repeat constructor|]. split; [apply perm_swap|]. split.
  - eexists. split; [by vm_compute|]. split; [done|].
    split; [by right; left|]. split; [done|].
    intros (v & _ & Hp & _ & Hmin). simpl in Hp. injection Hp as Hp.
    assert (Hle := Hmin (Examples.observation 30000000 1) ltac:(by right; left)).
    rewrite <- Hp in Hle. done.
  - eexists. split; by vm_compute.
Qed.

(** C2, amended.  Replaying any non-empty sequence of observations for one
    (market, outcome-token) key through a store that holds nothing for that
    key leaves an extremes record that summarises the observations the
    insert let through, the first of each timestamp: its lowest (highest)
    price is a least (greatest) of their prices, paired with the timestamp
    of one that has it, and its current price and timestamp are those of
    the last of them.  The same holds of the same observations replayed in
    any other order.  When the timestamps are pairwise distinct every
    observation is let through, and the two orders give the same lowest
    and highest price. *)
Theorem extremes_replay_min_max (c t : string) (now now' : Z)
    (l l' : list price_values) (st : store) :
  l ≠ [] →
  Forall (λ v, values_outcome v = (c, t)) l →
  (∀ ts, market_prices st !! (c, t, ts) = None) →
  market_price_extremes st !! (c, t) = None →
  l' ≡ₚ l →
  ∃ r r',
    market_price_extremes (insert_rows now l st) !! (c, t) = Some r ∧
    attains_min (let_through [] l) (lowest_price r) (lowest_price_timestamp r) ∧
    attains_max (let_through [] l) (highest_price r) (highest_price_timestamp r) ∧
    is_latest (let_through [] l) (current_price r) (current_price_timestamp r) ∧
    market_price_extremes (insert_rows now' l' st) !! (c, t) = Some r' ∧
    attains_min (let_through [] l') (lowest_price r') (lowest_price_timestamp r') ∧
    attains_max (let_through [] l') (highest_price r') (highest_price_timestamp r') ∧
    is_latest (let_through [] l') (current_price r') (current_price_timestamp r') ∧
    (NoDup (v_timestamp <$> l) →
       let_through [] l = l ∧ let_through [] l' = l' ∧
       lowest_price r' = lowest_price r ∧
       highest_price r' = highest_price r).
Proof.
  intros Hne Hl Hnone Hext Hperm.
  rewrite Forall_forall in Hl.
  destruct (replay_from_scratch c t now l st) as (r & Hr & Hsum); try done.
  destruct (replay_from_scratch c t now' l' st) as (r' & Hr' & Hsum'); try done.
  - intros ->. apply Permutation_nil_l in Hperm. done.
  - intros v Hv. apply Hl. by rewrite <- Hperm.
  - exists r, r'.
    pose proof Hsum as (? & ? & ?). pose proof Hsum' as (? & ? & ?).
    do 8 (split; [done|]). intros Hnd.
    assert (Hall : let_through [] l = l) by (by apply let_through_NoDup).
    assert (Hall' : let_through [] l' = l').
    { apply let_through_NoDup. simpl. by rewrite Hperm. }
    rewrite Hall in Hsum. rewrite Hall' in Hsum'.
    destruct (summarises_extremes_unique r r' l l' Hperm Hsum Hsum') as [Hlo Hhi].
    done.
Qed.

Lemma extremes_replay_min_max_witness :
  NoDup (v_timestamp <$> Examples.observations) ∧
  ∃ r r',
    market_price_extremes (insert_rows 100 Examples.observations empty_store)
      !! ("0xabc", "111") = Some r ∧
    attains_min Examples.observations (lowest_price r) (lowest_price_timestamp r) ∧
    attains_max Examples.observations (highest_price r) (highest_price_timestamp r) ∧
    is_latest Examples.observations (current_price r) (current_price_timestamp r) ∧
    market_price_extremes (insert_rows 200 Examples.observations_swapped empty_store)
      !! ("0xabc", "111") = Some r' ∧
    lowest_price r' = lowest_price r ∧
    highest_price r' = highest_price r ∧
    is_latest Examples.observations_swapped
      (current_price r') (current_price_timestamp r').
Proof.
  assert (Hnd : NoDup (v_timestamp <$> Examples.observations)) by compute_done.
  split; [exact Hnd|].
  destruct (extremes_replay_min_max "0xabc" "111" 100 200
              Examples.observations Examples.observations_swapped empty_store)
    as (r & r' & Hr & Hmin & Hmax & Hcur & Hr' & _ & _ & Hcur' & Hdistinct).
  - discriminate.
  - repeat constructor.
  - intros ts. reflexivity.
  - reflexivity.
  - apply perm_swap.
  - destruct (Hdistinct Hnd) as (Hall & Hall' & Hlo & Hhi).
    rewrite Hall in Hmin, Hmax, Hcur. rewrite Hall' in Hcur'.
    exists r, r'. done.
Defined.

(** ** Invariants of the reachable stores *)

Section store_invariant.
Implicit Types (st : store) (v : price_values).

Lemma well_formed_empty : well_formed empty_store.
Proof.
  split; simpl.
  - intros k r. by rewrite lookup_empty.
  - intros c t. rewrite lookup_empty. split.
    + by intros [? ?].
    + intros [ts Hts]. rewrite lookup_empty in Hts. by destruct Hts.
Qed.

Lemma do_update_set_present now NEW old :
  is_Some (lowest_price old) → is_Some (highest_price old) →
  is_Some (lowest_price (do_update_set now NEW old)) ∧
  is_Some (highest_price (do_update_set now NEW old)).
Proof.
  intros [lo Hlo] [hi Hhi]. unfold do_update_set; simpl. rewrite Hlo, Hhi. simpl.
  split.
  - destruct (numeric_lt (price NEW) lo); simpl; eauto.
  - destruct (numeric_lt hi (price NEW)); simpl; eauto.
Qed.

Lemma well_formed_insert_row now v st :
  well_formed st → well_formed (insert_row now v st).
Proof.
  intros [Hpres Hkeys].
  destruct (market_prices st !! values_key v) as [r0|] eqn:Hlook.
  { destruct (insert_row_conflict now v st r0 Hlook) as [Hp He].
    split.
    - intros k r. rewrite He. apply Hpres.
    - intros c t. rewrite He, Hp. apply Hkeys. }
  destruct (insert_row_new_prices now v st Hlook) as [NEW HNEW].
  split.
  - intros k r Hk.
    destruct (decide (k = values_outcome v)) as [->|Hne].
    + destruct (market_price_extremes st !! values_outcome v) as [old|] eqn:Hold.
      * rewrite (insert_row_new_next now v st old Hlook Hold) in Hk.
        injection Hk as <-. destruct (Hpres _ _ Hold). by apply do_update_set_present.
      * destruct (insert_row_new_first now v st Hlook Hold)
          as (r1 & Hr1 & Hlo & _ & Hhi & _).
        rewrite Hr1 in Hk. injection Hk as <-. rewrite Hlo, Hhi. eauto.
    + rewrite insert_row_other_key in Hk by done. by eapply Hpres.
  - intros c t.
    destruct (decide ((c, t) = values_outcome v)) as [Heq|Hne].
    + split.
      * intros _. exists (v_timestamp v). rewrite HNEW.
        unfold values_key, values_outcome in *. simplify_eq.
        rewrite lookup_insert_eq. eauto.
      * intros _. rewrite Heq.
        destruct (market_price_extremes st !! values_outcome v) as [old|] eqn:Hold.
        -- rewrite (insert_row_new_next now v st old Hlook Hold). eauto.
        -- destruct (insert_row_new_first now v st Hlook Hold) as (r1 & Hr1 & _).
           rewrite Hr1. eauto.
    + rewrite insert_row_other_key by done. rewrite Hkeys.
      split; intros [ts Hts]; exists ts.
      * rewrite HNEW. rewrite lookup_insert_ne; [done|].
        unfold values_key, values_outcome in *. congruence.
      * rewrite HNEW in Hts. rewrite lookup_insert_ne in Hts; [done|].
        unfold values_key, values_outcome in *. congruence.
Qed.

Lemma well_formed_insert_rows now vs st :
  well_formed st → well_formed (insert_rows now vs st).
Proof.
  revert st. induction vs as [|v vs IH]; intros st Hwf; [done|].
  simpl. apply IH. by apply well_formed_insert_row.
Qed.

Lemma reachable_well_formed st : reachable st → well_formed st.
Proof.
  induction 1 as [|now vs st _ IH].
  - apply well_formed_empty.
  - by apply well_formed_insert_rows.
Qed.

Lemma between_after_update now NEW old :
  is_Some (lowest_price old) → is_Some (highest_price old) →
  between (lowest_price (do_update_set now NEW old))
          (current_price (do_update_set now NEW old))
          (highest_price (do_update_set now NEW old)).
Proof.
  intros [lo Hlo] [hi Hhi]. unfold between, do_update_set; simpl.
  rewrite Hlo, Hhi. simpl.
  destruct (numeric_lt (price NEW) lo) eqn:Hl, (numeric_lt hi (price NEW)) eqn:Hh; simpl;
    eexists _, _, _; (split; [done|]); (split; [done|]); (split; [done|]); split;
    auto with price_order.
Qed.

End store_invariant.

(** C3.  In a store the pipeline can reach, the extremes update triggered
    by inserting an observation whose price lies in [0, 1] leaves the record
    of its key with lowest_price <= current_price <= highest_price; and a
    (market, outcome-token) key has an extremes record exactly when an
    observation for it has been inserted. *)
Theorem extremes_ordered_and_present (st : store) (now : Z) (v : price_values)
    (c t : string) :
  reachable st →
  in_unit_range (v_price v) = true →
  market_prices st !! values_key v = None →
  (∃ r, market_price_extremes (insert_row now v st) !! values_outcome v = Some r ∧
        between (lowest_price r) (current_price r) (highest_price r)) ∧
  (is_Some (market_price_extremes st !! (c, t)) ↔
   ∃ ts, is_Some (market_prices st !! (c, t, ts))).
Proof.
  intros Hreach _ Hfresh.
  destruct (reachable_well_formed st Hreach) as [Hpres Hkeys].
  split; [|apply Hkeys].
  destruct (market_price_extremes st !! values_outcome v) as [old|] eqn:Hold.
  - exists (do_update_set now (new_row now (market_prices_id_seq st) v) old).
    split; [by apply insert_row_new_next|].
    destruct (Hpres _ _ Hold). by apply between_after_update.
  - destruct (insert_row_new_first now v st Hfresh Hold)
      as (r & Hr & Hlo & _ & Hhi & _ & Hcur & _).
    exists r. split; [done|]. rewrite Hlo, Hhi, Hcur.
    exists (v_price v), (v_price v), (v_price v).
    repeat split; auto with price_order.
Qed.

Lemma extremes_ordered_and_present_witness :
  (∃ r, market_price_extremes
          (insert_row 100 (Examples.observation 30000000 2)
             (insert_rows 50 [Examples.observation 50000000 1] empty_store))
          !! values_outcome (Examples.observation 30000000 2) = Some r ∧
        between (lowest_price r) (current_price r) (highest_price r)) ∧
  (is_Some (market_price_extremes
              (insert_rows 50 [Examples.observation 50000000 1] empty_store)
              !! ("0xabc", "111")) ↔
   ∃ ts, is_Some (market_prices
                    (insert_rows 50 [Examples.observation 50000000 1] empty_store)
                    !! ("0xabc", "111", ts))).
Proof.
  apply (extremes_ordered_and_present
           (insert_rows 50 [Examples.observation 50000000 1] empty_store)
           100 (Examples.observation 30000000 2) "0xabc" "111").
  - apply reachable_insert, reachable_empty.
  - reflexivity.
  - reflexivity.
Defined.

(** ** The quote client *)

Ltac unfold_fetch :=
  unfold fetch, sleep, json_price_mid, log, emit, now, advance, next_reply,
    next_lateness, throw, try_catch;
  unfold mbind, mret, M_bind, M_ret, bind, ret.

Section quote_client.
Implicit Types (w : world) (tokenId : string).

Lemma ok_true r : ok r = true ↔ 200 ≤ status r ≤ 299.
Proof. unfold ok. apply bool_decide_eq_true. Qed.



Lemma fetchTokenPrice_ok tokenId w lat st b rest :
  replies w = Response lat st b :: rest →
  200 ≤ st ≤ 299 →
  (fetchTokenPrice tokenId w).1 =
    match b with
    | BodyNotJson | BodyNull => Ret None
    | BodyObject p m =>
        match or_field p m with
        | Undefined | Null => Ret None
        | Str s => Ret (Some (parseFloat s))
        end
    end.
Proof.
  intros Hr Hst. unfold fetchTokenPrice. rewrite Hr. simpl. unfold_fetch. simpl.
  rewrite Hr. simpl. unfold ok. simpl.
  rewrite bool_decide_eq_true_2 by done. simpl.
  destruct b as [| |p m]; simpl; try done.
  destruct (or_field p m); done.
Qed.

End quote_client.

Section quote_client_retry.
Implicit Types (w : world) (tokenId : string).

Lemma fetchTokenPrice_rec_no_throw fuel tokenId : ∀ w e,
  (fetchTokenPrice_rec fuel tokenId w).1 ≠ Throw e.
Proof.
  induction fuel as [|fuel IH]; intros w e; [done|].
  simpl. unfold_fetch. simpl.
  destruct (replies w) as [|[lat|lat st b] rest] eqn:Hr; simpl; try done.
  unfold ok; simpl.
  destruct (bool_decide (200 ≤ st ≤ 299)); simpl.
  - destruct b as [| |p m]; simpl; try done.
    destruct (or_field p m); done.
  - destruct (bool_decide (st = 429)); simpl; [|done].
    match goal with
    | |- context [fetchTokenPrice_rec fuel tokenId ?w1] =>
        pose proof (IH w1) as Hno;
        destruct (fetchTokenPrice_rec fuel tokenId w1) as [[a|e'|] w2]
    end; simpl in *; done.
Qed.


(** On a rate-limit response the call waits and starts over. *)
Lemma fetchTokenPrice_rec_rate_limited fuel tokenId w lat b rest :
  replies w = Response lat 429 b :: rest →
  fetchTokenPrice_rec (S fuel) tokenId w
  = fetchTokenPrice_rec fuel tokenId (after_rate_limit tokenId lat w).
Proof.
  intros Hr.
  change (fetchTokenPrice_rec (S fuel) tokenId w)
    with (try_catch
            (response ← fetch (price_url tokenId);
             if negb (ok response) then
               if bool_decide (status response = 429) then
                 log LogRateLimited;; sleep 30000;;
                 fetchTokenPrice_rec fuel tokenId
               else log (LogFetchFailed tokenId (status response));; mret None
             else
               '(price_field, mid_field) ← json_price_mid response;
               match or_field price_field mid_field with
               | Undefined | Null => log (LogNoPriceData tokenId);; mret None
               | Str price => mret (Some (parseFloat price))
               end)
            (λ _, log (LogFetchError tokenId);; mret None) w).
  unfold_fetch. simpl. rewrite Hr. simpl.
  unfold after_rate_limit. rewrite Hr. simpl.
  rewrite <- !app_assoc. simpl.
  match goal with
  | |- (let (r, w') := ?X in _) = _ =>
      assert (Hno : ∀ e, X.1 ≠ Throw e)
        by (intros e; apply (fetchTokenPrice_rec_no_throw fuel));
      destruct X as [[a|e'|] w2]
  end; simpl in *; try done.
  exfalso. by apply (Hno e').
Qed.

Lemma fetchTokenPrice_rate_limited tokenId w lat b rest :
  replies w = Response lat 429 b :: rest →
  fetchTokenPrice tokenId w = fetchTokenPrice tokenId (after_rate_limit tokenId lat w).
Proof.
  intros Hr. unfold fetchTokenPrice at 1. rewrite Hr.
  change (S (length (Response lat 429 b :: rest))) with (S (S (length rest))).
  rewrite (fetchTokenPrice_rec_rate_limited _ tokenId w lat b rest Hr).
  unfold fetchTokenPrice, after_rate_limit. simpl. by rewrite Hr.
Qed.

(** More fuel than replies left is enough fuel. *)
Lemma fetchTokenPrice_rec_enough_fuel fuel tokenId : ∀ w,
  (length (replies w) < fuel)%nat →
  fetchTokenPrice_rec fuel tokenId w = fetchTokenPrice tokenId w.
Proof.
  induction fuel as [|fuel IH]; intros w Hfuel; [lia|].
  destruct (replies w) as [|r rest] eqn:Hr.
  - unfold fetchTokenPrice. rewrite Hr. simpl. unfold_fetch. simpl. by rewrite Hr.
  - simpl in Hfuel. destruct r as [lat|lat st b].
    + unfold fetchTokenPrice. rewrite Hr. simpl. unfold_fetch. simpl. by rewrite Hr.
    + destruct (decide (st = 429)) as [->|Hst].
      * rewrite (fetchTokenPrice_rec_rate_limited fuel tokenId w lat b rest Hr).
        rewrite (fetchTokenPrice_rate_limited tokenId w lat b rest Hr).
        apply IH. simpl. rewrite Hr. simpl. lia.
      * unfold fetchTokenPrice. rewrite Hr. simpl. unfold_fetch. simpl.
        rewrite Hr. simpl. unfold ok; simpl.
        destruct (bool_decide (200 ≤ st ≤ 299)); simpl; [done|].
        by rewrite bool_decide_eq_false_2.
Qed.

End quote_client_retry.




(** C10.  On a success response whose [price] is a non-empty string the
    call returns that string parsed, whatever [mid] is; when [price] is the
    empty string it falls back to [mid]: it returns [mid] parsed if [mid] is
    a string, and [null] if [mid] is absent. *)
Theorem fetchTokenPrice_price_then_mid (tokenId : string) (env : world)
    (lat : N) (st : Z) (rest : list reply) (s s' : string) (m : field) :
  200 ≤ st ≤ 299 → s ≠ "" →
  (fetchTokenPrice tokenId
     (with_replies env (Response lat st (BodyObject (Str s) m) :: rest))).1
  = Ret (Some (parseFloat s)) ∧
  (fetchTokenPrice tokenId
     (with_replies env (Response lat st (BodyObject (Str "") (Str s')) :: rest))).1
  = Ret (Some (parseFloat s')) ∧
  (fetchTokenPrice tokenId
     (with_replies env (Response lat st (BodyObject (Str "") Undefined) :: rest))).1
  = Ret None.
Proof.
  intros Hst Hs. repeat split.
  - erewrite fetchTokenPrice_ok; [|reflexivity|done].
    unfold or_field; simpl. by rewrite bool_decide_eq_false_2.
  - erewrite fetchTokenPrice_ok; [|reflexivity|done]. done.
  - erewrite fetchTokenPrice_ok; [|reflexivity|done]. done.
Qed.

Lemma fetchTokenPrice_price_then_mid_witness :
  (fetchTokenPrice "111"
     (with_replies Examples.idle
        [Response 40 200 (BodyObject (Str "0.65") (Str "0.10"))])).1
  = Ret (Some (parseFloat "0.65")) ∧
  (fetchTokenPrice "111"
     (with_replies Examples.idle
        [Response 40 200 (BodyObject (Str "") (Str "0.4"))])).1
  = Ret (Some (parseFloat "0.4")) ∧
  (fetchTokenPrice "111"
     (with_replies Examples.idle
        [Response 40 200 (BodyObject (Str "") Undefined)])).1
  = Ret None.
Proof.
  apply (fetchTokenPrice_price_then_mid "111" Examples.idle
           40%N 200 [] "0.65" "0.4" (Str "0.10")).
  - lia.
  - discriminate.
Defined.

(** ** Liveness queries *)

Section liveness.
Implicit Types (w : world) (g : games_row).

#[local] Instance by_start_date_total : Total by_start_date.
Proof. intros a b. unfold by_start_date. lia. Qed.

#[local] Instance by_start_date_trans : Transitive by_start_date.
Proof. intros a b c. unfold by_start_date. lia. Qed.

Lemma getActiveGames_result w :
  db_available w = true →
  (getActiveGames w).1 = Ret (to_game <$> select_active_games (clock w) (games w)).
Proof. intros Hup. unfold getActiveGames. unfold_run. simpl. by rewrite Hup. Qed.

Lemma getActiveGames_down w :
  db_available w = false → (getActiveGames w).1 = Throw DatabaseError.
Proof. intros Hup. unfold getActiveGames. unfold_run. simpl. by rewrite Hup. Qed.

Lemma select_active_games_elem NOW catalog g :
  g ∈ select_active_games NOW catalog ↔ g ∈ catalog ∧ active_where NOW g.
Proof.
  unfold select_active_games. rewrite merge_sort_Permutation.
  rewrite list_elem_of_filter. tauto.
Qed.

Lemma select_active_games_sorted NOW catalog :
  StronglySorted by_start_date (select_active_games NOW catalog).
Proof. apply StronglySorted_merge_sort; apply _. Qed.

End liveness.

(** C5, as the specification states it, fails on a market that has ended
    but is not closed: it is not underway in the specification's sense, and
    [getActiveGames] returns it. *)
Lemma getActiveGames_returns_ended_market :
  games Examples.after_the_end = [Examples.ended_game] ∧
  ¬ trackable_as_specified (clock Examples.after_the_end) Examples.ended_game ∧
  (getActiveGames Examples.after_the_end).1 = Ret [to_game Examples.ended_game].
Proof.
  split; [reflexivity|]. split; [|reflexivity].
  unfold trackable_as_specified; simpl. unfold hours. lia.
Qed.

(** C5, amended.  [getActiveGames] returns exactly the markets that are not
    closed and have either started (start <= now, whatever their end time)
    or start within the next 48 hours (now < start < now + 48 h), each
    once, ordered by start time ascending; a market that starts in 72 hours
    is left out and one that is not closed and starts in 40 hours is
    included. *)
Theorem getActiveGames_enumerates (w : world) (g : games_row) :
  db_available w = true →
  ∃ rows,
    (getActiveGames w).1 = Ret (to_game <$> rows) ∧
    rows ≡ₚ filter (active_where (clock w)) (games w) ∧
    StronglySorted by_start_date rows ∧
    (g ∈ rows ↔
       g ∈ games w ∧ closed g = false ∧
       (start_date g ≤ clock w ∨
        (clock w < start_date g ∧ start_date g < clock w + hours 48))) ∧
    (start_date g = clock w + hours 72 → g ∉ rows) ∧
    (g ∈ games w → closed g = false → start_date g = clock w + hours 40 → g ∈ rows).
Proof.
  intros Hup. exists (select_active_games (clock w) (games w)).
  split; [by apply getActiveGames_result|].
  split; [apply merge_sort_Permutation|].
  split; [apply select_active_games_sorted|].
  rewrite select_active_games_elem. unfold active_where, hours.
  repeat split; try tauto.
  - intros Hs [_ [_ H]]. lia.
  - lia.
Qed.

Lemma getActiveGames_enumerates_witness :
  ∃ rows,
    (getActiveGames Examples.two_days_ahead).1 = Ret (to_game <$> rows) ∧
    rows ≡ₚ filter (active_where (clock Examples.two_days_ahead))
              (games Examples.two_days_ahead) ∧
    StronglySorted by_start_date rows ∧
    (Examples.game_in_40_hours ∈ rows ↔
       Examples.game_in_40_hours ∈ games Examples.two_days_ahead ∧
       closed Examples.game_in_40_hours = false ∧
       (start_date Examples.game_in_40_hours ≤ clock Examples.two_days_ahead ∨
        (clock Examples.two_days_ahead < start_date Examples.game_in_40_hours ∧
         start_date Examples.game_in_40_hours
         < clock Examples.two_days_ahead + hours 48))) ∧
    (start_date Examples.game_in_40_hours = clock Examples.two_days_ahead + hours 72 →
     Examples.game_in_40_hours ∉ rows) ∧
    (Examples.game_in_40_hours ∈ games Examples.two_days_ahead →
     closed Examples.game_in_40_hours = false →
     start_date Examples.game_in_40_hours = clock Examples.two_days_ahead + hours 40 →
     Examples.game_in_40_hours ∈ rows).
Proof.
  apply (getActiveGames_enumerates Examples.two_days_ahead Examples.game_in_40_hours).
  reflexivity.
Defined.

Section frequency.
Variable toISOString : Z → string.
Implicit Types (w : world) (g : games_row).

Lemma shouldUseHighFrequency_result w :
  db_available w = true →
  let row := select_frequency (clock w) (games w) in
  (shouldUseHighFrequency toISOString w).1 =
    Ret (if (0 <? active_count row)%N then
           {| highFrequency := true;
              reason := pretty (active_count row) +:+ " active game(s) in progress";
              nextGameStart := next_start_date row |}
         else if (0 <? upcoming_count row)%N then
           {| highFrequency := true;
              reason := pretty (upcoming_count row)
                        +:+ " game(s) starting within 10 minutes";
              nextGameStart := next_start_date row |}
         else
           {| highFrequency := false;
              reason := match next_start_date row with
                        | Some d => "Next game starts at " +:+ toISOString d
                        | None => "No upcoming games"
                        end;
              nextGameStart := next_start_date row |}).
Proof.
  intros Hup row. unfold shouldUseHighFrequency. unfold_run. simpl. rewrite Hup.
  simpl. subst row. unfold select_frequency; simpl.
  repeat case_match; done.
Qed.

(** A count is positive exactly when some row satisfies the condition. *)
Lemma count_positive {A} (P : A → Prop) `{!∀ x, Decision (P x)} (l : list A) :
  (0 <? N.of_nat (length (filter P l)))%N = true ↔ ∃ x, x ∈ l ∧ P x.
Proof.
  rewrite N.ltb_lt. split.
  - intros Hpos. destruct (filter P l) as [|x l'] eqn:Hf; [simpl in Hpos; lia|].
    assert (Hx : x ∈ filter P l) by (rewrite Hf; by left).
    apply list_elem_of_filter in Hx as [HP Hx]. eauto.
  - intros (x & Hx & HP).
    assert (Hin : x ∈ filter P l) by (by apply list_elem_of_filter).
    destruct (filter P l); [by apply elem_of_nil in Hin|simpl; lia].
Qed.

Lemma count_zero {A} (P : A → Prop) `{!∀ x, Decision (P x)} (l : list A) :
  l = [] → (0 <? N.of_nat (length (filter P l)))%N = false.
Proof. by intros ->. Qed.

End frequency.

(** C8, as the specification states it, fails on a market that has ended
    but is not closed: no market is trackable in the specification's sense,
    and the decision is high, with an active game counted. *)
Lemma shouldUseHighFrequency_high_on_ended_market :
  games Examples.after_the_end = [Examples.ended_game] ∧
  ¬ trackable_as_specified (clock Examples.after_the_end) Examples.ended_game ∧
  (shouldUseHighFrequency (λ _, "") Examples.after_the_end).1
  = Ret {| highFrequency := true;
           reason := "1 active game(s) in progress";
           nextGameStart := None |}.
Proof.
  split; [reflexivity|]. split; [|reflexivity].
  unfold trackable_as_specified; simpl. unfold hours. lia.
Qed.

(** C8, amended.  The frequency decision is high exactly when some market
    that is not closed and starts before now + 48 h, whatever its end time,
    has started or starts within the next 10 minutes; and when no market is
    not closed and starts before now + 48 h the decision is low, with the
    reason "No upcoming games" and no next start time. *)
Theorem shouldUseHighFrequency_decision (toISOString : Z → string) (w : world) :
  db_available w = true →
  ∃ f,
    (shouldUseHighFrequency toISOString w).1 = Ret f ∧
    (highFrequency f = true ↔
       ∃ g, g ∈ games w ∧
            (closed g = false ∧ start_date g < clock w + hours 48) ∧
            (start_date g ≤ clock w ∨
             (clock w < start_date g ∧ start_date g ≤ clock w + minutes 10))) ∧
    ((∀ g, g ∈ games w →
           ¬ (closed g = false ∧ start_date g < clock w + hours 48)) →
       highFrequency f = false ∧ reason f = "No upcoming games" ∧
       nextGameStart f = None).
Proof.
  intros Hup. eexists. split; [by apply shouldUseHighFrequency_result|].
  set (rows := filter (frequency_where (clock w)) (games w)).
  unfold select_frequency; simpl. fold rows.
  split.
  - destruct (N.ltb 0 (N.of_nat (length (filter (λ g, start_date g ≤ clock w) rows))))
      eqn:Ha.
    { simpl. split; [intros _|done].
      apply count_positive in Ha as (g & Hg & Hs).
      apply list_elem_of_filter in Hg as [Hq Hg]. exists g.
      unfold frequency_where in Hq. tauto. }
    destruct (N.ltb 0 (N.of_nat (length (filter
                (λ g, clock w < start_date g ∧ start_date g ≤ clock w + minutes 10) rows))))
      eqn:Hu.
    { simpl. split; [intros _|done].
      apply count_positive in Hu as (g & Hg & Hs).
      apply list_elem_of_filter in Hg as [Hq Hg]. exists g.
      unfold frequency_where in Hq. tauto. }
    simpl. split; [done|].
    intros (g & Hg & Hq & [Hs|Hs]).
    + assert (Hex : ∃ x, x ∈ rows ∧ start_date x ≤ clock w).
      { exists g. split; [by apply list_elem_of_filter|done]. }
      apply (count_positive (λ g, start_date g ≤ clock w)) in Hex. congruence.
    + assert (Hex : ∃ x, x ∈ rows ∧
                clock w < start_date x ∧ start_date x ≤ clock w + minutes 10).
      { exists g. split; [by apply list_elem_of_filter|done]. }
      apply (count_positive
               (λ g, clock w < start_date g ∧ start_date g ≤ clock w + minutes 10)) in Hex.
      congruence.
  - intros Hnone.
    assert (Hrows : rows = []).
    { destruct rows as [|g rows'] eqn:Hrows; [done|].
      assert (Hg : g ∈ filter (frequency_where (clock w)) (games w))
        by (fold rows; rewrite Hrows; by left).
      apply list_elem_of_filter in Hg as [Hq Hg]. by destruct (Hnone g Hg). }
    rewrite Hrows. done.
Qed.

Lemma shouldUseHighFrequency_decision_witness :
  db_available Examples.after_the_end = true ∧
  ∃ f,
    (shouldUseHighFrequency (λ _, "") Examples.after_the_end).1 = Ret f ∧
    highFrequency f = true.
Proof.
  split; [reflexivity|].
  destruct (shouldUseHighFrequency_decision (λ _, "") Examples.after_the_end eq_refl)
    as (f & Hret & Hhigh & _).
  exists f. split; [exact Hret|]. apply Hhigh.
  exists Examples.ended_game. split; [by left|].
  split; [split; [reflexivity|by vm_compute]|left; by vm_compute].
Defined.

(** ** The collection run *)

Section run_facts.
Implicit Types (w : world).

Lemma getActiveGames_run w :
  db_available w = true →
  getActiveGames w =
    (Ret (to_game <$> select_active_games (clock w) (games w)),
     {| clock := clock w; replies := replies w; lateness := lateness w;
        db_available := db_available w; games := games w; db := db w;
        trace := trace w ++ [EvQuery SelectActiveGames; EvLog LogQueryExecuted] |}).
Proof.
  intros Hup. unfold getActiveGames. unfold_run. simpl. rewrite Hup. simpl.
  by rewrite <- app_assoc.
Qed.

Lemma getActiveGames_Ret_inv w gs :
  (getActiveGames w).1 = Ret gs →
  db_available w = true ∧ gs = to_game <$> select_active_games (clock w) (games w).
Proof.
  destruct (db_available w) eqn:Hup.
  - rewrite getActiveGames_result by done. by intros [= <-].
  - by rewrite getActiveGames_down.
Qed.

Lemma events_since_app w w' evs :
  trace w' = trace w ++ evs → events_since w w' = evs.
Proof. intros Htr. unfold events_since. by rewrite Htr, drop_app_length. Qed.

End run_facts.

(** C9.  When the enumeration returns no game the run ends at once and
    normally: it issues no quote request, starts no timer and sends no
    INSERT, the store is as it was, and every count of the run (games
    processed, calls, successes, failures, records stored) is zero. *)
Theorem collectPrices_no_games (w : world) :
  (getActiveGames w).1 = Ret [] →
  (collectPrices w).1 = Ret tt ∧
  events_since w (collectPrices w).2 =
    [EvLog LogStarting; EvQuery SelectActiveGames; EvLog LogQueryExecuted;
     EvLog (LogFound 0); EvLog LogNoActiveGames] ∧
  requests (events_since w (collectPrices w).2) = [] ∧
  store_writes (events_since w (collectPrices w).2) = 0%nat ∧
  db (collectPrices w).2 = db w ∧
  replies (collectPrices w).2 = replies w ∧
  clock (collectPrices w).2 = clock w ∧
  gamesProcessed (events_since w (collectPrices w).2) = 0%nat ∧
  calls (events_since w (collectPrices w).2) = 0%nat ∧
  successes (events_since w (collectPrices w).2) = 0%nat ∧
  failures (events_since w (collectPrices w).2) = 0%nat ∧
  priceRecordsStored (events_since w (collectPrices w).2) = 0%nat.
Proof.
  intros Hgames. apply getActiveGames_Ret_inv in Hgames as [Hup Hnone].
  assert (Hrun : collectPrices w =
            (Ret tt,
             {| clock := clock w; replies := replies w; lateness := lateness w;
                db_available := db_available w; games := games w; db := db w;
                trace := trace w ++
                  [EvLog LogStarting; EvQuery SelectActiveGames; EvLog LogQueryExecuted;
                   EvLog (LogFound 0); EvLog LogNoActiveGames] |})).
  { unfold collectPrices.
    unfold mbind at 1, M_bind, bind at 1. simpl.
    unfold mbind at 1, M_bind, bind at 1. simpl.
    unfold try_catch.
    unfold mbind at 1, M_bind, bind at 1.
    rewrite getActiveGames_run by done. simpl. rewrite <- Hnone. simpl.
    unfold_run. simpl. by rewrite <- !app_assoc. }
  rewrite Hrun. simpl.
  erewrite events_since_app by reflexivity.
  repeat split.
Qed.

Lemma collectPrices_no_games_witness :
  (collectPrices Examples.idle).1 = Ret tt ∧
  events_since Examples.idle (collectPrices Examples.idle).2 =
    [EvLog LogStarting; EvQuery SelectActiveGames; EvLog LogQueryExecuted;
     EvLog (LogFound 0); EvLog LogNoActiveGames] ∧
  requests (events_since Examples.idle (collectPrices Examples.idle).2) = [] ∧
  store_writes (events_since Examples.idle (collectPrices Examples.idle).2) = 0%nat ∧
  db (collectPrices Examples.idle).2 = db Examples.idle ∧
  replies (collectPrices Examples.idle).2 = replies Examples.idle ∧
  clock (collectPrices Examples.idle).2 = clock Examples.idle ∧
  gamesProcessed (events_since Examples.idle (collectPrices Examples.idle).2) = 0%nat ∧
  calls (events_since Examples.idle (collectPrices Examples.idle).2) = 0%nat ∧
  successes (events_since Examples.idle (collectPrices Examples.idle).2) = 0%nat ∧
  failures (events_since Examples.idle (collectPrices Examples.idle).2) = 0%nat ∧
  priceRecordsStored (events_since Examples.idle (collectPrices Examples.idle).2) = 0%nat.
Proof.
  apply (collectPrices_no_games Examples.idle). reflexivity.
Defined.

(** ** A program logic for the run monad *)

Section triples.
Context {A : Type}.

Lemma triple_ret (P : world → Prop) (a : A) Qn Qa :
  (∀ w, P w → Qn a w) → triple P (mret a) Qn Qa.
Proof. intros H w Hw. by apply H. Qed.

Lemma triple_consequence (P P' : world → Prop) (m : M A) (Qn Qn' : A → world → Prop)
    (Qa Qa' : world → Prop) :
  triple P' m Qn' Qa' →
  (∀ w, P w → P' w) → (∀ a w, Qn' a w → Qn a w) → (∀ w, Qa' w → Qa w) →
  triple P m Qn Qa.
Proof.
  intros Hm HP HQn HQa w Hw. specialize (Hm w (HP w Hw)).
  destruct (m w).1; auto.
Qed.

Lemma triple_try_catch (P : world → Prop) (m : M A) (h : error → M A) Qn Qa Qa' :
  triple P m Qn Qa' →
  (∀ e, triple Qa' (h e) Qn Qa) →
  (∀ w, Qa' w → Qa w) →
  triple P (try_catch m h) Qn Qa.
Proof.
  intros Hm Hh Hpend w Hw. specialize (Hm w Hw). unfold try_catch.
  destruct (m w) as [[a|e|] w1]; simpl in *; auto.
  by apply Hh.
Qed.

End triples.

Lemma triple_bind {A B : Type} (P : world → Prop) (m : M A) (k : A → M B)
    (R : A → world → Prop) Qn Qa :
  triple P m R Qa →
  (∀ a, triple (R a) (k a) Qn Qa) →
  triple P (m ≫= k) Qn Qa.
Proof.
  intros Hm Hk w Hw. specialize (Hm w Hw).
  unfold mbind, M_bind, bind.
  destruct (m w) as [[a|e|] w1]; simpl in *; auto.
  by apply Hk.
Qed.

Lemma triple_for_of {X S : Type} (I : S → world → Prop) (Qa : world → Prop)
    (body : X → S → M S) (l : list X) :
  (∀ x s, x ∈ l → triple (I s) (body x s) I Qa) →
  ∀ s, triple (I s) (for_of l body s) I Qa.
Proof.
  induction l as [|x l IH]; intros Hbody s; simpl.
  - by apply triple_ret.
  - eapply triple_bind.
    + apply Hbody. by left.
    + intros s'. apply IH. intros x' s'' Hx'. apply Hbody. by right.
Qed.

(** [step with H]: the first statement of a sequence is covered by [H];
    go on with the rest. *)
Tactic Notation "step" "with" uconstr(H) :=
  eapply triple_bind; [by eapply H|]; intros ?.

Tactic Notation "step" "with" uconstr(H) "as" simple_intropattern(x) :=
  eapply triple_bind; [by eapply H|]; intros x.

(** ** What a run does to the store *)

Section store_through_run.
Variable P : store → Prop.
Hypothesis P_insert_rows : ∀ now vs st, P st → P (insert_rows now vs st).

(** [m] keeps the store within [P], however it ends. *)
#[local] Abbreviation keeps m := (triple (λ w, P (db w)) m (λ _ w, P (db w)) (λ w, P (db w))).

Lemma keeps_ret {A} (a : A) : keeps (mret a).
Proof. by apply triple_ret. Qed.

Lemma keeps_bind {A B} (m : M A) (k : A → M B) :
  keeps m → (∀ a, keeps (k a)) → keeps (m ≫= k).
Proof. intros Hm Hk. eapply triple_bind; [exact Hm|]. intros a. apply Hk. Qed.

Lemma keeps_log l : keeps (log l).
Proof. by intros w Hw. Qed.

Lemma keeps_now : keeps now.
Proof. by intros w Hw. Qed.

Lemma keeps_sleep ms : keeps (sleep ms).
Proof. by intros w Hw. Qed.

Lemma keeps_fetch url : keeps (fetch url).
Proof.
  intros w Hw. unfold fetch. unfold_fetch. simpl.
  by destruct (replies w) as [|[lat|lat st b] rest].
Qed.

Lemma keeps_query {A} q (run : Z → list games_row → store → option (A * store)) :
  (∀ NOW catalog st a st', run NOW catalog st = Some (a, st') → P st → P st') →
  keeps (query q run).
Proof.
  intros Hrun w Hw. unfold query. unfold_run. simpl.
  destruct (db_available w); [|done].
  destruct (run (clock w) (games w) (db w)) as [[a st']|] eqn:Hr; simpl; [|done].
  by eapply Hrun.
Qed.

Lemma keeps_fetchTokenPrice tokenId : keeps (fetchTokenPrice tokenId).
Proof.
  assert (Hrec : ∀ fuel, keeps (fetchTokenPrice_rec fuel tokenId)).
  { induction fuel as [|fuel IH]; [by intros w Hw|].
    simpl. eapply triple_try_catch with (Qa' := λ w, P (db w)); [| |done].
    - step with keeps_fetch as response.
      destruct (negb (ok response)).
      + case_bool_decide.
        * step with keeps_log.
          step with keeps_sleep. apply IH.
        * step with keeps_log. apply keeps_ret.
      + apply keeps_bind.
        * intros w Hw. unfold json_price_mid. by destruct (payload response).
        * intros [p m]. destruct (or_field p m).
          -- step with keeps_log. apply keeps_ret.
          -- step with keeps_log. apply keeps_ret.
          -- apply keeps_ret.
    - intros e. step with keeps_log. apply keeps_ret. }
  intros w Hw. by apply (Hrec _ w).
Qed.

Lemma keeps_batchInsertPrices prices : keeps (batchInsertPrices prices).
Proof.
  unfold batchInsertPrices. destruct prices as [|p prices]; [apply keeps_ret|].
  apply keeps_bind; [|intros ?; apply keeps_log].
  apply keeps_query. intros NOW catalog st a st' Hrun Hst.
  unfold insert_market_prices in Hrun.
  destruct (mapM to_values (p :: prices)) as [vs|]; simpl in Hrun; [|done].
  injection Hrun as _ <-. by apply P_insert_rows.
Qed.

Lemma keeps_getActiveGames : keeps getActiveGames.
Proof.
  unfold getActiveGames. apply keeps_bind; [|intros ?; apply keeps_ret].
  apply keeps_query. by intros NOW catalog st a st' [= _ <-].
Qed.

Lemma keeps_collect_outcome timestamp m o vars :
  keeps (collect_outcome timestamp m o vars).
Proof.
  unfold collect_outcome.
  assert (Hskip : keeps (log (LogNoTokenId (title o));; mret vars)).
  { step with keeps_log. apply keeps_ret. }
  destruct (tokenID o) as [tokenId|]; [|done].
  case_bool_decide; [done|].
  apply keeps_bind.
  { destruct (_ && _).
    - step with keeps_log. apply keeps_sleep.
    - apply keeps_ret. }
  intros ?. step with keeps_fetchTokenPrice as price.
  apply keeps_bind.
  { destruct price as [p|].
    - step with keeps_log. apply keeps_ret.
    - step with keeps_log. apply keeps_ret. }
  intros vars'. step with keeps_sleep. apply keeps_ret.
Qed.

Lemma keeps_collect_game timestamp g vars : keeps (collect_game timestamp g vars).
Proof.
  unfold collect_game. step with keeps_log.
  apply (triple_for_of (λ _ w, P (db w))). intros m vars' _.
  unfold collect_market.
  assert (Hskip : keeps (log (LogNoOutcomes (marketSlug m));; mret vars')).
  { step with keeps_log. apply keeps_ret. }
  destruct (outcomes m) as [[|o os]|]; try done.
  apply (triple_for_of (λ _ w, P (db w))). intros. apply keeps_collect_outcome.
Qed.

Lemma keeps_collectPrices : keeps collectPrices.
Proof.
  unfold collectPrices.
  step with keeps_now as startTime.
  step with keeps_log.
  eapply triple_try_catch with (Qa' := λ w, P (db w)); [| |done].
  - step with keeps_getActiveGames as gs.
    step with keeps_log.
    destruct gs as [|g gs].
    { step with keeps_log. apply keeps_ret. }
    step with keeps_now as timestamp.
    apply keeps_bind.
    { apply (triple_for_of (λ _ w, P (db w))). intros. apply keeps_collect_game. }
    intros vars. apply keeps_bind.
    { destruct (priceRecords vars) as [|p ps].
      - apply keeps_log.
      - step with keeps_log.
        step with keeps_batchInsertPrices.
        apply keeps_log. }
    intros ?. step with keeps_now as finished.
    apply keeps_log.
  - intros e. step with keeps_log. by intros w Hw.
Qed.

End store_through_run.

(** Runs and batch writes take reachable stores to reachable stores. *)
Lemma collectPrices_reachable (w : world) :
  reachable (db w) → reachable (db (collectPrices w).2).
Proof.
  intros Hw.
  pose proof (keeps_collectPrices reachable reachable_insert w Hw) as Hrun.
  by destruct (collectPrices w).1.
Qed.

Lemma batchInsertPrices_reachable (prices : list price_record) (w : world) :
  reachable (db w) → reachable (db (batchInsertPrices prices w).2).
Proof.
  intros Hw.
  pose proof (keeps_batchInsertPrices reachable reachable_insert prices w Hw) as Hrun.
  by destruct (batchInsertPrices prices w).1.
Qed.

(** ** The summary of a run and its events *)

Section tally.
Implicit Types (tr : list event) (e : event) (w : world).

Lemma gamesProcessed_snoc tr e :
  gamesProcessed (tr ++ [e]) = (gamesProcessed tr + games_found e)%nat.
Proof.
  unfold gamesProcessed. rewrite sum_list_with_app. simpl. lia.
Qed.

Lemma priceRecordsStored_snoc tr e :
  priceRecordsStored (tr ++ [e]) = (priceRecordsStored tr + records_stored e)%nat.
Proof.
  unfold priceRecordsStored. rewrite sum_list_with_app. simpl. lia.
Qed.

Lemma successes_snoc tr e :
  successes (tr ++ [e]) = (successes tr + if is_success e then 1 else 0)%nat.
Proof.
  unfold successes. rewrite filter_app, length_app, filter_cons.
  destruct (is_success e); simpl; [|done]. done.
Qed.

Lemma failures_snoc tr e :
  failures (tr ++ [e]) = (failures tr + if is_failure e then 1 else 0)%nat.
Proof.
  unfold failures. rewrite filter_app, length_app, filter_cons.
  destruct (is_failure e); simpl; [|done]. done.
Qed.

End tally.

Section silent_steps.
Implicit Types (w : world).

Lemma tally_snoc_uncounted tr e :
  games_found e = 0%nat → is_success e = false → is_failure e = false →
  records_stored e = 0%nat →
  tally (tr ++ [e]) = tally tr.
Proof.
  intros Hg Hs Hf Hp. unfold tally.
  rewrite gamesProcessed_snoc, successes_snoc, failures_snoc, priceRecordsStored_snoc.
  rewrite Hg, Hs, Hf, Hp. by rewrite !Nat.add_0_r.
Qed.

Lemma silent_ret {A} (a : A) : silent (mret a).
Proof. by intros w. Qed.

Lemma silent_bind {A B} (m : M A) (k : A → M B) :
  silent m → (∀ a, silent (k a)) → silent (m ≫= k).
Proof.
  intros Hm Hk w. specialize (Hm w). unfold mbind, M_bind, bind.
  destruct (m w) as [[a|e|] w1]; simpl in *; try done.
  by rewrite Hk.
Qed.

Lemma silent_try_catch {A} (m : M A) (h : error → M A) :
  silent m → (∀ e, silent (h e)) → silent (try_catch m h).
Proof.
  intros Hm Hh w. specialize (Hm w). unfold try_catch.
  destruct (m w) as [[a|e|] w1]; simpl in *; try done.
  by rewrite Hh.
Qed.

Lemma silent_log l : uncounted l = true → silent (log l).
Proof.
  intros Hl w. simpl. apply tally_snoc_uncounted; by destruct l.
Qed.

Lemma silent_now : silent now.
Proof. by intros w. Qed.

Lemma silent_sleep ms : silent (sleep ms).
Proof. intros w. simpl. by apply tally_snoc_uncounted. Qed.

Lemma silent_fetch url : silent (fetch url).
Proof.
  intros w. unfold fetch. unfold_fetch. simpl.
  destruct (replies w) as [|[lat|lat st b] rest]; simpl;
    by apply tally_snoc_uncounted.
Qed.

Lemma silent_query {A} q (run : Z → list games_row → store → option (A * store)) :
  silent (query q run).
Proof.
  intros w. unfold query. unfold_run. simpl.
  destruct (if db_available w then run (clock w) (games w) (db w) else None)
    as [[a st']|]; simpl; by rewrite !tally_snoc_uncounted.
Qed.

Lemma silent_fetchTokenPrice tokenId : silent (fetchTokenPrice tokenId).
Proof.
  assert (Hrec : ∀ fuel, silent (fetchTokenPrice_rec fuel tokenId)).
  { induction fuel as [|fuel IH]; [by intros w|].
    simpl. apply silent_try_catch.
    - apply silent_bind; [apply silent_fetch|]. intros response.
      destruct (negb (ok response)).
      + case_bool_decide.
        * apply silent_bind; [by apply silent_log|]. intros ?.
          apply silent_bind; [apply silent_sleep|]. intros ?. apply IH.
        * apply silent_bind; [by apply silent_log|]. intros ?. apply silent_ret.
      + apply silent_bind.
        * intros w. unfold json_price_mid. by destruct (payload response).
        * intros [p m]. destruct (or_field p m).
          -- apply silent_bind; [by apply silent_log|]. intros ?. apply silent_ret.
          -- apply silent_bind; [by apply silent_log|]. intros ?. apply silent_ret.
          -- apply silent_ret.
    - intros e. apply silent_bind; [by apply silent_log|]. intros ?. apply silent_ret. }
  intros w. apply (Hrec _ w).
Qed.

Lemma silent_batchInsertPrices prices : silent (batchInsertPrices prices).
Proof.
  unfold batchInsertPrices. destruct prices as [|p prices]; [apply silent_ret|].
  apply silent_bind; [apply silent_query|]. intros ?. by apply silent_log.
Qed.

Lemma silent_getActiveGames : silent getActiveGames.
Proof.
  unfold getActiveGames. apply silent_bind; [apply silent_query|].
  intros ?. apply silent_ret.
Qed.

(** A silent step keeps whatever holds of the counts. *)
Lemma triple_silent {A} (m : M A) (Q : nat * nat * nat * nat → Prop) :
  silent m →
  triple (λ w, Q (tally (trace w))) m (λ _ w, Q (tally (trace w))) (λ _, True).
Proof.
  intros Hm w Hw. rewrite <- (Hm w) in Hw. by destruct (m w).1.
Qed.

End silent_steps.

Section counted_loops.
Variables g0 s0 f0 p0 : nat.
Implicit Types (w : world) (vars : run_vars).

#[local] Abbreviation Counted vars := (λ w, counted g0 s0 f0 p0 vars (tally (trace w))).

Lemma triple_counted_silent {A} (m : M A) vars :
  silent m → triple (Counted vars) m (λ _, Counted vars) (λ _, True).
Proof. intros Hm. by apply (triple_silent m (counted g0 s0 f0 p0 vars)). Qed.

Lemma triple_collect_outcome_counted timestamp m o vars :
  triple (Counted vars) (collect_outcome timestamp m o vars)
         (λ vars', Counted vars') (λ _, True).
Proof.
  unfold collect_outcome.
  assert (Hskip : triple (Counted vars) (log (LogNoTokenId (title o));; mret vars)
                         (λ vars', Counted vars') (λ _, True)).
  { eapply triple_bind; [by apply triple_counted_silent, silent_log|].
    intros ?. by apply triple_ret. }
  destruct (tokenID o) as [tokenId|]; [|done].
  case_bool_decide; [done|].
  eapply triple_bind.
  { apply triple_counted_silent. destruct (_ && _).
    - apply silent_bind; [by apply silent_log|]. intros ?. apply silent_sleep.
    - apply silent_ret. }
  intros ?.
  eapply triple_bind; [apply triple_counted_silent, silent_fetchTokenPrice|].
  intros price.
  eapply triple_bind with (R := λ vars', Counted vars').
  { intros w Hw. unfold counted, tally in *.
    destruct price as [p|]; simpl;
      rewrite gamesProcessed_snoc, successes_snoc, failures_snoc,
        priceRecordsStored_snoc; simpl; rewrite ?length_app; simpl; lia. }
  intros vars'.
  eapply triple_bind; [apply triple_counted_silent, silent_sleep|].
  intros ?. by apply triple_ret.
Qed.

Lemma triple_collect_game_counted timestamp g vars :
  triple (Counted vars) (collect_game timestamp g vars)
         (λ vars', Counted vars') (λ _, True).
Proof.
  unfold collect_game.
  eapply triple_bind; [by apply triple_counted_silent, silent_log|]. intros ?.
  apply (triple_for_of (λ vars', Counted vars')). intros m vars' _.
  unfold collect_market.
  assert (Hskip : triple (Counted vars') (log (LogNoOutcomes (marketSlug m));; mret vars')
                         (λ vars'', Counted vars'') (λ _, True)).
  { eapply triple_bind; [by apply triple_counted_silent, silent_log|].
    intros ?. by apply triple_ret. }
  destruct (outcomes m) as [[|o os]|]; try done.
  apply (triple_for_of (λ vars'', Counted vars'')). intros.
  apply triple_collect_outcome_counted.
Qed.

End counted_loops.

(** The summary line of a run reports the counts of the run's events: the
    games found, the calls that gave a price and those that gave none,
    their sum, and the records stored. *)
Lemma collectPrices_summary (g0 s0 f0 p0 : nat) :
  triple (λ w, tally (trace w) = (g0, s0, f0, p0)) collectPrices
         (λ _ w, summary_agrees g0 s0 f0 p0 (trace w)) (λ _, True).
Proof.
  unfold collectPrices.
  eapply triple_bind;
    [apply (triple_silent now (λ c, c = (g0, s0, f0, p0))), silent_now|].
  intros startTime.
  eapply triple_bind;
    [by apply (triple_silent (log LogStarting) (λ c, c = (g0, s0, f0, p0))), silent_log|].
  intros ?.
  eapply triple_try_catch with (Qa' := λ _, True); [|by intros e w _; unfold_run|done].
  eapply triple_bind;
    [apply (triple_silent getActiveGames (λ c, c = (g0, s0, f0, p0))),
       silent_getActiveGames|].
  intros gs.
  eapply triple_bind
    with (R := λ _ w, tally (trace w) = ((g0 + length gs)%nat, s0, f0, p0)).
  { intros w Hw. simpl. unfold tally in *.
    rewrite gamesProcessed_snoc, successes_snoc, failures_snoc, priceRecordsStored_snoc.
    simpl. injection Hw as -> -> -> ->. f_equal; [f_equal; [f_equal|]|]; lia. }
  intros ?. destruct gs as [|g gs].
  { intros w Hw. simpl. intros d g rq sc fl n Hlast.
    rewrite last_snoc in Hlast. done. }
  set (games := g :: gs).
  eapply triple_bind;
    [apply (triple_silent now (λ c, c = ((g0 + length games)%nat, s0, f0, p0))),
       silent_now|].
  intros timestamp.
  eapply triple_bind with (R := λ vars w,
    counted (g0 + length games) s0 f0 p0 vars (tally (trace w))).
  { eapply triple_consequence.
    - apply (triple_for_of
               (λ vars w, counted (g0 + length games) s0 f0 p0 vars (tally (trace w)))
               (λ _, True)).
      intros. apply triple_collect_game_counted.
    - intros w Hw. cbv beta in *. rewrite Hw. unfold counted; simpl. lia.
    - done.
    - done. }
  intros vars.
  eapply triple_bind with (R := λ _ w,
    counted (g0 + length games) s0 f0 (p0 + length (priceRecords vars)) vars
      (tally (trace w))).
  { destruct (priceRecords vars) as [|p ps] eqn:Hrecords.
    - eapply triple_consequence;
        [by apply (triple_counted_silent (g0 + length games) s0 f0 p0
                     (log LogNothingToInsert) vars), silent_log| | |done].
      + done.
      + intros ? w. unfold counted. destruct (tally (trace w)) as [[[? ?] ?] ?].
        rewrite Hrecords. simpl. lia.
    - eapply triple_bind;
        [by apply (triple_counted_silent (g0 + length games) s0 f0 p0), silent_log|].
      intros ?.
      eapply triple_bind;
        [apply (triple_counted_silent (g0 + length games) s0 f0 p0),
           silent_batchInsertPrices|].
      intros ?. intros w Hw. simpl. unfold counted, tally in *.
      rewrite gamesProcessed_snoc, successes_snoc, failures_snoc, priceRecordsStored_snoc.
      simpl. rewrite Hrecords in *. simpl in *. lia. }
  intros ?.
  eapply triple_bind;
    [apply (triple_counted_silent (g0 + length games) s0 f0
              (p0 + length (priceRecords vars)) now vars), silent_now|].
  intros finished.
  intros w Hw. simpl. intros d g' rq sc fl n Hlast.
  rewrite last_snoc in Hlast. injection Hlast as <- <- <- <- <- <-.
  unfold counted, tally in *.
  rewrite gamesProcessed_snoc, successes_snoc, failures_snoc, priceRecordsStored_snoc.
  subst games. simpl in *. lia.
Qed.

(** ** Pacing of the quote requests *)

Section spacing.
Implicit Types (d t : Z) (ts : list Z) (tr : list event).

Lemma spaced_snoc d ts t :
  spaced d ts = true → Forall (λ x, x + d ≤ t) ts → spaced d (ts ++ [t]) = true.
Proof.
  induction ts as [|x [|y ts] IH]; intros Hsp Hall; [done| |].
  - simpl. apply Forall_cons in Hall as [Hx _].
    by rewrite bool_decide_eq_true_2.
  - simpl in Hsp. apply andb_true_iff in Hsp as [Hxy Hsp].
    apply Forall_cons in Hall as [_ Hall].
    change (bool_decide (x + d ≤ y) && spaced d ((y :: ts) ++ [t]) = true).
    rewrite Hxy. simpl. by apply IH.
Qed.

Lemma request_times_snoc tr e :
  request_times (tr ++ [e]) =
  request_times tr ++ match e with
                      | EvFetch t _ => [t]
                      | _ => []
                      end.
Proof.
  unfold request_times, requests. rewrite omap_app, fmap_app. f_equal.
  by destruct e.
Qed.

Lemma spaced_tail d x ts : spaced d (x :: ts) = true → spaced d ts = true.
Proof.
  destruct ts as [|y ts]; [done|]. simpl. by intros [_ ?]%andb_true_iff.
Qed.

Lemma spaced_head_bound d x ts :
  0 ≤ d → spaced d (x :: ts) = true → Forall (λ t, x + d ≤ t) ts.
Proof.
  intros Hd. revert x. induction ts as [|y ts IH]; intros x Hsp; [done|].
  pose proof (spaced_tail _ _ _ Hsp) as Hsp'.
  simpl in Hsp. apply andb_true_iff in Hsp as [Hxy%bool_decide_eq_true _].
  constructor; [done|].
  eapply Forall_impl; [by apply IH|]. simpl. lia.
Qed.

(** In a minute there is room for at most [n] instants that are [d]
    apart, as soon as [n * d] covers the minute. *)
Lemma spaced_from_bound d ts : 0 < d → spaced d ts = true →
  ∀ (n : nat) lo T, T ≤ lo → Forall (λ t, lo ≤ t) ts →
    T + 60000 - lo ≤ Z.of_nat n * d →
    (length (in_minute T ts) ≤ n)%nat.
Proof.
  intros Hd. induction ts as [|x ts IH]; intros Hsp n lo T HT Hlo Hn; [simpl; lia|].
  apply Forall_cons in Hlo as [Hx Hlo].
  pose proof (spaced_tail _ _ _ Hsp) as Hsp'.
  assert (Hnext : Forall (λ t, x + d ≤ t) ts) by (apply spaced_head_bound; [lia|done]).
  unfold in_minute. rewrite filter_cons. case_decide as Hin.
  - destruct n as [|n]; [lia|]. simpl.
    apply le_n_S. apply (IH Hsp' n (x + d) T); [lia|done|lia].
  - apply (IH Hsp' n (x + d) T); [lia|done|lia].
Qed.

Lemma spaced_minute_bound d ts (n : nat) :
  0 < d → 60000 ≤ Z.of_nat n * d → spaced d ts = true →
  ∀ T, (length (in_minute T ts) ≤ n)%nat.
Proof.
  intros Hd Hn. induction ts as [|x ts IH]; intros Hsp T; [simpl; lia|].
  pose proof (spaced_tail _ _ _ Hsp) as Hsp'.
  destruct (decide (T ≤ x)) as [Hx|Hx].
  - apply (spaced_from_bound d (x :: ts) Hd Hsp n x T Hx); [|lia].
    constructor; [lia|].
    eapply Forall_impl; [apply (spaced_head_bound d x ts); [lia|done]|]. simpl. lia.
  - unfold in_minute. rewrite filter_cons. case_decide as Hin; [lia|].
    by apply IH.
Qed.

End spacing.

Section pacing.
Variable n : nat.
Variable d : Z.
Hypothesis d_nonneg : 0 ≤ d.
Hypothesis d_delay : d ≤ DELAY_BETWEEN_REQUESTS.
Hypothesis d_cooldown : d ≤ 30000.
Implicit Types (w : world).

Lemma paced_settled w : paced n d w → settled n d w.
Proof.
  intros (Hn & Hsp & Hall). repeat split; [done|done|].
  eapply Forall_impl; [done|]. simpl. lia.
Qed.

Lemma request_times_drop_snoc w e :
  (n ≤ length (trace w))%nat →
  request_times (drop n (trace w ++ [e])) =
  request_times (drop n (trace w)) ++ match e with
                                      | EvFetch t _ => [t]
                                      | _ => []
                                      end.
Proof. intros Hn. rewrite drop_app_le by done. apply request_times_snoc. Qed.

(** One more event that is no request, and a clock that does not run
    backwards, keep either state. *)
Lemma settled_step w w' e :
  settled n d w → clock w ≤ clock w' →
  trace w' = trace w ++ [e] → request_of e = None → settled n d w'.
Proof.
  intros (Hn & Hsp & Hall) Hclk Htr He. unfold settled. rewrite Htr.
  rewrite request_times_drop_snoc by done.
  rewrite length_app. simpl.
  destruct e; try discriminate; rewrite app_nil_r;
    (repeat split; [lia|done|]); (eapply Forall_impl; [done|]); simpl; lia.
Qed.

Lemma paced_step w w' e :
  paced n d w → clock w ≤ clock w' →
  trace w' = trace w ++ [e] → request_of e = None → paced n d w'.
Proof.
  intros (Hn & Hsp & Hall) Hclk Htr He. unfold paced. rewrite Htr.
  rewrite request_times_drop_snoc by done.
  rewrite length_app. simpl.
  destruct e; try discriminate; rewrite app_nil_r;
    (repeat split; [lia|done|]); (eapply Forall_impl; [done|]); simpl; lia.
Qed.

Lemma paced_after_wait w w' e :
  settled n d w → clock w + d ≤ clock w' →
  trace w' = trace w ++ [e] → request_of e = None → paced n d w'.
Proof.
  intros (Hn & Hsp & Hall) Hclk Htr He. unfold paced. rewrite Htr.
  rewrite request_times_drop_snoc by done.
  rewrite length_app. simpl.
  destruct e; try discriminate; rewrite app_nil_r;
    (repeat split; [lia|done|]); (eapply Forall_impl; [done|]); simpl; lia.
Qed.

Lemma settled_after_request w w' url :
  paced n d w → clock w ≤ clock w' →
  trace w' = trace w ++ [EvFetch (clock w) url] → settled n d w'.
Proof.
  intros (Hn & Hsp & Hall) Hclk Htr. unfold settled. rewrite Htr.
  rewrite request_times_drop_snoc by done.
  rewrite length_app. simpl. repeat split; [lia| |].
  - by apply spaced_snoc.
  - apply Forall_app. split.
    + eapply Forall_impl; [done|]. simpl. lia.
    + constructor; [lia|done].
Qed.

Lemma triple_log_paced l Qa :
  triple (paced n d) (log l) (λ _, paced n d) Qa.
Proof.
  intros w Hw. simpl. eapply paced_step; [done|simpl; lia|reflexivity|reflexivity].
Qed.

Lemma triple_log_settled l Qa :
  triple (settled n d) (log l) (λ _, settled n d) Qa.
Proof.
  intros w Hw. simpl. eapply settled_step; [done|simpl; lia|reflexivity|reflexivity].
Qed.

Lemma triple_now_paced Qa :
  triple (paced n d) now (λ _, paced n d) Qa.
Proof. by intros w Hw. Qed.

Lemma triple_sleep_settled ms Qa :
  d ≤ ms →
  triple (settled n d) (sleep ms) (λ _, paced n d) Qa.
Proof.
  intros Hms w Hw. unfold sleep. unfold_fetch. simpl.
  eapply paced_after_wait; [done|simpl; lia|reflexivity|reflexivity].
Qed.

Lemma triple_sleep_paced ms Qa :
  d ≤ ms →
  triple (paced n d) (sleep ms) (λ _, paced n d) Qa.
Proof.
  intros Hms. eapply triple_consequence; [by apply (triple_sleep_settled ms Qa)| |done|done].
  intros w. by apply paced_settled.
Qed.

Lemma triple_fetch url :
  triple (paced n d) (fetch url) (λ _, settled n d) (settled n d).
Proof.
  intros w Hw. unfold fetch. unfold_fetch. simpl.
  destruct (replies w) as [|[lat|lat st b] rest]; simpl;
    (eapply settled_after_request; [done|simpl; lia|reflexivity]).
Qed.

Lemma triple_query_paced {A} q (run : Z → list games_row → store → option (A * store)) :
  triple (paced n d) (query q run) (λ _, paced n d) (settled n d).
Proof.
  intros w Hw. unfold query. unfold_run. simpl.
  assert (Hq : paced n d
            {| clock := clock w; replies := replies w; lateness := lateness w;
               db_available := db_available w; games := games w; db := db w;
               trace := trace w ++ [EvQuery q] |}).
  { eapply paced_step; [done|simpl; lia|reflexivity|reflexivity]. }
  destruct (if db_available w then run (clock w) (games w) (db w) else None)
    as [[a st']|]; simpl.
  - eapply paced_step; [exact Hq|simpl; lia|reflexivity|reflexivity].
  - apply paced_settled.
    eapply paced_step; [exact Hq|simpl; lia|reflexivity|reflexivity].
Qed.

Lemma triple_fetchTokenPrice_rec fuel tokenId :
  triple (paced n d) (fetchTokenPrice_rec fuel tokenId)
         (λ _, settled n d) (settled n d).
Proof.
  induction fuel as [|fuel IH].
  { intros w Hw. simpl. by apply paced_settled. }
  simpl. eapply triple_try_catch with (Qa' := settled n d); [| |done].
  - step with triple_fetch as response.
    destruct (negb (ok response)).
    + case_bool_decide.
      * step with triple_log_settled.
        step with triple_sleep_settled.
        apply IH.
      * step with triple_log_settled.
        by apply triple_ret.
    + eapply triple_bind with (R := λ _, settled n d).
      * intros w Hw. unfold json_price_mid. by destruct (payload response).
      * intros [p m]. destruct (or_field p m).
        -- step with triple_log_settled.
           by apply triple_ret.
        -- step with triple_log_settled.
           by apply triple_ret.
        -- by apply triple_ret.
  - intros e. step with triple_log_settled.
    by apply triple_ret.
Qed.

Lemma triple_fetchTokenPrice tokenId :
  triple (paced n d) (fetchTokenPrice tokenId) (λ _, settled n d) (settled n d).
Proof. intros w Hw. by apply (triple_fetchTokenPrice_rec _ tokenId w). Qed.

Lemma triple_collect_outcome timestamp m o vars :
  triple (paced n d) (collect_outcome timestamp m o vars) (λ _, paced n d) (settled n d).
Proof.
  unfold collect_outcome.
  assert (Hskip : triple (paced n d)
            (log (LogNoTokenId (title o));; mret vars) (λ _, paced n d) (settled n d)).
  { step with triple_log_paced. by apply triple_ret. }
  destruct (tokenID o) as [tokenId|]; [|done].
  case_bool_decide; [done|].
  eapply triple_bind with (R := λ _, paced n d).
  { destruct (_ && _).
    - step with triple_log_paced.
      by apply triple_sleep_paced.
    - by apply triple_ret. }
  intros ?.
  step with triple_fetchTokenPrice as price.
  eapply triple_bind with (R := λ _, settled n d).
  { destruct price as [p|].
    - step with triple_log_settled. by apply triple_ret.
    - step with triple_log_settled. by apply triple_ret. }
  intros vars'.
  step with triple_sleep_settled.
  by apply triple_ret.
Qed.

Lemma triple_collect_market timestamp m vars :
  triple (paced n d) (collect_market timestamp m vars) (λ _, paced n d) (settled n d).
Proof.
  unfold collect_market.
  assert (Hskip : triple (paced n d)
            (log (LogNoOutcomes (marketSlug m));; mret vars) (λ _, paced n d) (settled n d)).
  { step with triple_log_paced. by apply triple_ret. }
  destruct (outcomes m) as [[|o os]|]; try done.
  apply (triple_for_of (λ _, paced n d)). intros. apply triple_collect_outcome.
Qed.

Lemma triple_collect_game timestamp g vars :
  triple (paced n d) (collect_game timestamp g vars) (λ _, paced n d) (settled n d).
Proof.
  unfold collect_game.
  step with triple_log_paced.
  apply (triple_for_of (λ _, paced n d)). intros. apply triple_collect_market.
Qed.

Lemma triple_batchInsertPrices prices :
  triple (paced n d) (batchInsertPrices prices) (λ _, paced n d) (settled n d).
Proof.
  unfold batchInsertPrices. destruct prices as [|p prices]; [by apply triple_ret|].
  step with triple_query_paced.
  apply triple_log_paced.
Qed.

Lemma triple_getActiveGames :
  triple (paced n d) getActiveGames (λ _, paced n d) (settled n d).
Proof.
  unfold getActiveGames.
  step with triple_query_paced. by apply triple_ret.
Qed.

(** A run keeps the pace: started when the last request is at least [d]
    ago, it never issues two requests less than [d] apart, and when it
    returns the last request is again at least [d] ago. *)
Lemma triple_collectPrices :
  triple (paced n d) collectPrices (λ _, paced n d) (settled n d).
Proof.
  unfold collectPrices.
  step with triple_now_paced as startTime.
  step with triple_log_paced.
  eapply triple_try_catch with (Qa' := settled n d); [| |done].
  - step with triple_getActiveGames as gs.
    step with triple_log_paced.
    destruct gs as [|g gs].
    { step with triple_log_paced. by apply triple_ret. }
    step with triple_now_paced as timestamp.
    eapply triple_bind.
    { apply (triple_for_of (λ _, paced n d)). intros. apply triple_collect_game. }
    intros vars.
    eapply triple_bind with (R := λ _, paced n d).
    { destruct (priceRecords vars) as [|p ps].
      - apply triple_log_paced.
      - step with triple_log_paced.
        step with triple_batchInsertPrices.
        apply triple_log_paced. }
    intros ?.
    step with triple_now_paced as finished.
    apply triple_log_paced.
  - intros e. step with triple_log_settled.
    by intros w Hw.
Qed.

End pacing.

(** The requests of a run are counted from the events the run adds. *)
Lemma paced_from_here (d : Z) (w : world) : paced (length (trace w)) d w.
Proof. unfold paced. rewrite drop_all. by repeat split. Qed.

(** From one run to the next: a run that starts when the last request of
    the process is at least 667 ms ago keeps all the requests of the
    process 667 ms apart, and leaves the process in such a state when it
    returns. *)
Lemma collectPrices_keeps_pace (w : world) :
  paced 0 DELAY_BETWEEN_REQUESTS w →
  settled 0 DELAY_BETWEEN_REQUESTS (collectPrices w).2 ∧
  ((collectPrices w).1 = Ret tt → paced 0 DELAY_BETWEEN_REQUESTS (collectPrices w).2).
Proof.
  intros Hw.
  assert (Hd : DELAY_BETWEEN_REQUESTS = 667) by reflexivity.
  pose proof (triple_collectPrices 0 DELAY_BETWEEN_REQUESTS) as Hrun.
  rewrite Hd in *.
  specialize (Hrun ltac:(lia) ltac:(lia) ltac:(lia) w Hw).
  split.
  - destruct (collectPrices w).1; try done. by apply paced_settled.
  - intros Hret. by rewrite Hret in Hrun.
Qed.

(** C6, as the specification states it, fails on the first request of a
    run: in a run over one outcome the request is issued at once, with no
    timer before it; the one timer of the run comes after it. *)
Lemma collectPrices_first_request_not_delayed :
  trace Examples.single_quote = [] ∧
  requests (trace (collectPrices Examples.single_quote).2) =
    [(5000, "https://clob.polymarket.com/price?token_id=111&side=SELL")] ∧
  timers (trace (collectPrices Examples.single_quote).2) = [DELAY_BETWEEN_REQUESTS] ∧
  delay_before_each_request DELAY_BETWEEN_REQUESTS false
    (trace (collectPrices Examples.single_quote).2) = false.
Proof. vm_compute. done. Qed.

(** C6, amended.  The inter-request delay is [ceil(60000 / 90) = 667] ms and
    it is waited after every quote request, not before the first: the quote
    requests of a run are issued at least 667 ms apart, so that no minute
    holds more than 90 of them, whatever the latencies; and when the run
    returns, its last request is at least 667 ms ago. *)
Theorem collectPrices_request_rate (w : world) (T : Z) :
  DELAY_BETWEEN_REQUESTS = 667 ∧
  60000 ≤ RATE_LIMIT_PER_MINUTE * DELAY_BETWEEN_REQUESTS < 60000 + RATE_LIMIT_PER_MINUTE ∧
  spaced DELAY_BETWEEN_REQUESTS
    (request_times (events_since w (collectPrices w).2)) = true ∧
  (length (in_minute T (request_times (events_since w (collectPrices w).2))) ≤ 90)%nat ∧
  ((collectPrices w).1 = Ret tt →
   Forall (λ t, t + DELAY_BETWEEN_REQUESTS ≤ clock (collectPrices w).2)
     (request_times (events_since w (collectPrices w).2))).
Proof.
  assert (Hd : DELAY_BETWEEN_REQUESTS = 667) by reflexivity.
  pose proof (triple_collectPrices (length (trace w)) DELAY_BETWEEN_REQUESTS) as Hrun.
  unfold events_since. rewrite Hd in *.
  specialize (Hrun ltac:(lia) ltac:(lia) ltac:(lia) w (paced_from_here 667 w)).
  assert (Hsettled : settled (length (trace w)) 667 (collectPrices w).2).
  { destruct (collectPrices w).1; try done. by apply paced_settled. }
  destruct Hsettled as (_ & Hsp & _).
  split; [done|]. split; [by vm_compute|]. split; [done|]. split.
  - apply (spaced_minute_bound 667); [lia|lia|done].
  - intros Hret. rewrite Hret in Hrun. by destruct Hrun as (_ & _ & Hall).
Qed.

Lemma collectPrices_request_rate_witness :
  DELAY_BETWEEN_REQUESTS = 667 ∧
  60000 ≤ RATE_LIMIT_PER_MINUTE * DELAY_BETWEEN_REQUESTS < 60000 + RATE_LIMIT_PER_MINUTE ∧
  spaced DELAY_BETWEEN_REQUESTS
    (request_times (events_since Examples.limited_once
                      (collectPrices Examples.limited_once).2)) = true ∧
  (length (in_minute 0 (request_times (events_since Examples.limited_once
                                         (collectPrices Examples.limited_once).2)))
   ≤ 90)%nat ∧
  ((collectPrices Examples.limited_once).1 = Ret tt →
   Forall (λ t, t + DELAY_BETWEEN_REQUESTS ≤ clock (collectPrices Examples.limited_once).2)
     (request_times (events_since Examples.limited_once
                       (collectPrices Examples.limited_once).2))).
Proof.
  apply (collectPrices_request_rate Examples.limited_once 0).
Defined.

(** ** Retrying on the rate-limit signal *)

Section retry.
Variable tokenId : string.
Implicit Types (w : world) (r : reply) (rl rest : list reply).






End retry.

Section rate_limited_run.
Implicit Types (w : world).



End rate_limited_run.



(** ** A whole run *)

(** Two games, three outcomes, quotes 0.3 and 0.7 and one request without
    a response: the run makes three requests, counts two successes and one
    failure, stores two records, and each of the two outcomes that got a
    quote gains an extremes row whose lowest, highest and current price are
    that quote. *)
Example collectPrices_two_games :
  let w' := (collectPrices Examples.two_games).2 in
  (collectPrices Examples.two_games).1 = Ret tt
  ∧ tally (events_since Examples.two_games w') = (2, 2, 1, 2)%nat
  ∧ length (requests (events_since Examples.two_games w')) = 3%nat
  ∧ last (trace w') = Some (EvLog (LogSummary 2214 2 3 2 1 2))
  ∧ size (market_prices (db w')) = 2%nat
  ∧ size (market_price_extremes (db w')) = 2%nat
  ∧ Examples.price_columns <$> market_price_extremes (db w') !! ("0xabc", "111")
    = Some (Some (Num 30000000), Some (Num 30000000), Some (Num 30000000))
  ∧ Examples.price_columns <$> market_price_extremes (db w') !! ("0xabc", "222")
    = Some (Some (Num 70000000), Some (Num 70000000), Some (Num 70000000)).
Proof. by vm_compute. Qed.

(** * Further properties *)

Import Ledger Migrations.

(** ** The two tables agree *)

Section ledger.
Implicit Types (st : store) (v : price_values).

Lemma insert_row_taken now v st r :
  market_prices st !! values_key v = Some r →
  insert_row now v st =
  {| market_prices := market_prices st;
     market_price_extremes := market_price_extremes st;
     market_prices_id_seq := market_prices_id_seq st + 1;
     market_price_extremes_id_seq := market_price_extremes_id_seq st |}.
Proof. intros H. unfold insert_row. by rewrite H. Qed.

Lemma insert_row_free now v st :
  market_prices st !! values_key v = None →
  insert_row now v st =
  {| market_prices :=
       <[values_key v := new_row now (market_prices_id_seq st) v]> (market_prices st);
     market_price_extremes :=
       <[values_outcome v :=
           match market_price_extremes st !! values_outcome v with
           | None => proposed_extremes now (market_price_extremes_id_seq st)
                       (new_row now (market_prices_id_seq st) v)
           | Some old => do_update_set now (new_row now (market_prices_id_seq st) v) old
           end]> (market_price_extremes st);
     market_prices_id_seq := market_prices_id_seq st + 1;
     market_price_extremes_id_seq := market_price_extremes_id_seq st + 1 |}.
Proof. intros H. unfold insert_row. by rewrite H. Qed.

Lemma insert_rows_snoc now vs v st :
  insert_rows now (vs ++ [v]) st = insert_row now v (insert_rows now vs st).
Proof. unfold insert_rows. by rewrite foldl_app. Qed.

Lemma tracks_same_rows st st' c t r :
  (∀ ts, market_prices st' !! (c, t, ts) = market_prices st !! (c, t, ts)) →
  tracks st c t r → tracks st' c t r.
Proof.
  intros Hsame (Hlo & Hhi & Hcur & Hfirst & Hall).
  unfold tracks, inserted_last, inserted_first in *.
  setoid_rewrite Hsame. done.
Qed.

Lemma keyed_insert_row now v st : keyed st → keyed (insert_row now v st).
Proof.
  intros [Hp He].
  destruct (market_prices st !! values_key v) as [r0|] eqn:Hk.
  { by rewrite (insert_row_taken _ _ _ _ Hk). }
  rewrite (insert_row_free _ _ _ Hk). split; simpl.
  - intros k r [[<- <-]|[_ Hr]]%lookup_insert_Some; [done|by apply Hp].
  - intros k r [[<- <-]|[_ Hr]]%lookup_insert_Some; [|by apply He].
    destruct (market_price_extremes st !! values_outcome v) as [old|] eqn:Ho; [|done].
    simpl. by apply He.
Qed.

Lemma serial_insert_row now v st : serial st → serial (insert_row now v st).
Proof.
  intros (Hp & He & Hpi & Hei).
  destruct (market_prices st !! values_key v) as [r0|] eqn:Hk.
  { rewrite (insert_row_taken _ _ _ _ Hk). repeat split; simpl; try done.
    intros k r Hr. specialize (Hp k r Hr). lia. }
  rewrite (insert_row_free _ _ _ Hk). repeat split; simpl.
  - intros k r [[<- <-]|[_ Hr]]%lookup_insert_Some; simpl; [lia|].
    specialize (Hp k r Hr). lia.
  - intros k r [[<- <-]|[_ Hr]]%lookup_insert_Some.
    + destruct (market_price_extremes st !! values_outcome v) as [old|] eqn:Ho;
        simpl; [|lia].
      specialize (He _ _ Ho). lia.
    + specialize (He k r Hr). lia.
  - intros k k' r r' [[<- <-]|[_ Hr]]%lookup_insert_Some
      [[<- <-]|[_ Hr']]%lookup_insert_Some; simpl; try done.
    + intros Hid. specialize (Hp _ _ Hr'). lia.
    + intros Hid. specialize (Hp _ _ Hr). lia.
    + by apply Hpi.
  - intros k k' r r' [[<- <-]|[Hne Hr]]%lookup_insert_Some
      [[<- <-]|[Hne' Hr']]%lookup_insert_Some; try done.
    + destruct (market_price_extremes st !! values_outcome v) as [old|] eqn:Ho; simpl.
      * intros Hid. by apply (Hei _ _ _ _ Ho Hr').
      * intros Hid. specialize (He _ _ Hr'). lia.
    + destruct (market_price_extremes st !! values_outcome v) as [old|] eqn:Ho; simpl.
      * intros Hid. by apply (Hei _ _ _ _ Hr Ho).
      * intros Hid. specialize (He _ _ Hr). lia.
    + by apply Hei.
Qed.

Lemma rows_after_insert (m : gmap (string * string * Z) market_prices_row)
    v NEW ts row :
  <[values_key v := NEW]> m !! (v_condition_id v, v_token_id v, ts) = Some row ↔
  (ts = v_timestamp v ∧ row = NEW) ∨
  (ts ≠ v_timestamp v ∧ m !! (v_condition_id v, v_token_id v, ts) = Some row).
Proof.
  unfold values_key. rewrite lookup_insert_Some. split.
  - intros [[[= <-] <-]|[Hne Hrow]]; [by left|right]. split; [|done].
    intros ->. by apply Hne.
  - intros [[-> ->]|[Hne Hrow]]; [by left|right]. split; [|done].
    intros [= <-]. by apply Hne.
Qed.

Lemma tracks_first (now i : Z) v (m : gmap (string * string * Z) market_prices_row) st' :
  (∀ ts, m !! (v_condition_id v, v_token_id v, ts) = None) →
  market_prices st' = <[values_key v := new_row now i v]> m →
  ∀ j, tracks st' (v_condition_id v) (v_token_id v)
         (proposed_extremes now j (new_row now i v)).
Proof.
  intros Hnone Hst' j.
  assert (Hnew : market_prices st' !! (v_condition_id v, v_token_id v, v_timestamp v)
                 = Some (new_row now i v)).
  { rewrite Hst'. apply rows_after_insert. by left. }
  assert (Honly : ∀ ts row,
    market_prices st' !! (v_condition_id v, v_token_id v, ts) = Some row →
    row = new_row now i v).
  { intros ts row. rewrite Hst'. intros [[_ ->]|[_ Hrow]]%rows_after_insert; [done|].
    by rewrite Hnone in Hrow. }
  repeat split.
  - by exists (v_timestamp v), (new_row now i v).
  - by exists (v_timestamp v), (new_row now i v).
  - exists (v_timestamp v), (new_row now i v). repeat split; [done|].
    intros ts' row' ->%Honly. done.
  - exists (v_timestamp v), (new_row now i v). repeat split; [done|].
    intros ts' row' ->%Honly. done.
  - intros ts row ->%Honly. exists (v_price v), (v_price v). simpl.
    by rewrite numeric_le_refl.
Qed.

Lemma tracks_next (now i : Z) v st st' old :
  market_prices st !! values_key v = None →
  (∀ k row, market_prices st !! k = Some row → Store.id row < i) →
  market_prices st' = <[values_key v := new_row now i v]> (market_prices st) →
  tracks st (v_condition_id v) (v_token_id v) old →
  tracks st' (v_condition_id v) (v_token_id v)
    (do_update_set now (new_row now i v) old).
Proof.
  intros Hfree Hids Hst' (Hlo & Hhi & Hcur & Hfirst & Hall).
  assert (Hnew : market_prices st' !! (v_condition_id v, v_token_id v, v_timestamp v)
                 = Some (new_row now i v)).
  { rewrite Hst'. apply rows_after_insert. by left. }
  assert (Hold : ∀ ts row,
    market_prices st !! (v_condition_id v, v_token_id v, ts) = Some row →
    market_prices st' !! (v_condition_id v, v_token_id v, ts) = Some row).
  { intros ts row Hrow. rewrite Hst'. apply rows_after_insert. right.
    split; [|done]. intros ->. unfold values_key in Hfree. by rewrite Hfree in Hrow. }
  assert (Hinv : ∀ ts row,
    market_prices st' !! (v_condition_id v, v_token_id v, ts) = Some row →
    (row = new_row now i v ∧ ts = v_timestamp v) ∨
    market_prices st !! (v_condition_id v, v_token_id v, ts) = Some row).
  { intros ts row. rewrite Hst'. intros [[-> ->]|[_ Hrow]]%rows_after_insert; auto. }
  destruct Hlo as (tl & rl & Hrl & Hlp & Hlt).
  destruct Hhi as (th & rh & Hrh & Hhp & Hht).
  unfold tracks, do_update_set; simpl. rewrite Hlp, Hlt, Hhp, Hht; simpl.
  destruct (numeric_lt (v_price v) (price rl)) eqn:Hlow;
    destruct (numeric_lt (price rh) (v_price v)) eqn:Hhigh; simpl.
  all: repeat split.
  all: try (by exists (v_timestamp v), (new_row now i v)).
  all: try (by exists tl, rl; split; [apply Hold|]).
  all: try (by exists th, rh; split; [apply Hold|]).
  all: try (exists (v_timestamp v), (new_row now i v); repeat split; [done|];
            intros ts' row' [[-> _]|Hrow]%Hinv; simpl; [lia|];
            specialize (Hids _ _ Hrow); lia).
  all: try (destruct Hfirst as (tf & rf & [Hrf Hmin] & Hfr & Hout);
            exists tf, rf; repeat split; [by apply Hold| |done|done];
            intros ts' row' [[-> _]|Hrow]%Hinv; simpl;
            [specialize (Hids _ _ Hrf); lia|by apply (Hmin ts')]).
  all: intros ts row [[-> _]|Hrow]%Hinv; simpl.
  all: try (destruct (Hall _ _ Hrow) as (lo & hi & Hlo & Hhi & Hle1 & Hle2);
            rewrite Hlp in Hlo; rewrite Hhp in Hhi;
            injection Hlo as <-; injection Hhi as <-).
  all: eexists _, _; split; [reflexivity|]; split; [reflexivity|].
  all: split; eauto using numeric_le_refl, numeric_lt_le, numeric_not_lt_le,
                          numeric_le_trans.
Qed.

Lemma consistent_empty : consistent empty_store.
Proof.
  split; [|split; [|split]].
  - split; intros k r Hr; simpl in Hr; by rewrite lookup_empty in Hr.
  - repeat split; intros *; simpl; by rewrite lookup_empty.
  - apply well_formed_empty.
  - intros c t r Hr. simpl in Hr. by rewrite lookup_empty in Hr.
Qed.

Lemma consistent_insert_row now v st :
  consistent st → consistent (insert_row now v st).
Proof.
  intros (Hkeyed & Hserial & Hwf & Htr).
  split; [by apply keyed_insert_row|].
  split; [by apply serial_insert_row|].
  split; [by apply well_formed_insert_row|].
  intros c t r'.
  destruct (market_prices st !! values_key v) as [r0|] eqn:Hk.
  { rewrite (insert_row_taken _ _ _ _ Hk). simpl. intros Hr'.
    eapply tracks_same_rows; [|by apply Htr]. done. }
  pose proof (insert_row_free now v st Hk) as Hst'.
  assert (Hrows : market_prices (insert_row now v st) =
                  <[values_key v := new_row now (market_prices_id_seq st) v]>
                    (market_prices st)) by by rewrite Hst'.
  assert (Hext : market_price_extremes (insert_row now v st) =
    <[values_outcome v :=
        match market_price_extremes st !! values_outcome v with
        | None => proposed_extremes now (market_price_extremes_id_seq st)
                    (new_row now (market_prices_id_seq st) v)
        | Some old => do_update_set now (new_row now (market_prices_id_seq st) v) old
        end]> (market_price_extremes st)) by by rewrite Hst'.
  rewrite Hext. intros [[Heq <-]|[Hne Hr']]%lookup_insert_Some.
  - unfold values_outcome in Heq. injection Heq as Hc Ht. subst c t.
    destruct (market_price_extremes st !! values_outcome v) as [old|] eqn:Ho.
    + eapply tracks_next; [done| |done|by apply Htr].
      destruct Hserial as [Hp _]. apply Hp.
    + eapply tracks_first; [|done].
      intros ts. destruct Hwf as [_ Hiff].
      destruct (market_prices st !! (v_condition_id v, v_token_id v, ts)) eqn:Hrow;
        [|done].
      assert (is_Some (market_price_extremes st !! (v_condition_id v, v_token_id v)))
        as [x Hx] by (apply Hiff; eauto).
      unfold values_outcome in Ho. congruence.
  - eapply tracks_same_rows; [|by apply Htr].
    intros ts. rewrite Hrows. apply lookup_insert_ne.
    unfold values_key. intros [= Hc Ht _]. apply Hne.
    unfold values_outcome. by rewrite Hc, Ht.
Qed.

Lemma consistent_insert_rows now vs st :
  consistent st → consistent (insert_rows now vs st).
Proof.
  revert st. induction vs as [|v vs IH]; intros st Hst; [done|].
  simpl. apply IH. by apply consistent_insert_row.
Qed.

Lemma reachable_consistent st : reachable st → consistent st.
Proof.
  induction 1 as [|now vs st _ IH]; [apply consistent_empty|].
  by apply consistent_insert_rows.
Qed.

End ledger.

(** X1.  In every store the pipeline can produce, an extremes record
    agrees with the stored observations of its outcome: its lowest and its
    highest price are the prices of stored observations, with their
    timestamps, and every stored observation of the outcome has its price
    between them; its current price is that of the observation inserted
    last, and [first_recorded] and the outcome label are those of the
    observation inserted first. *)
Theorem extremes_track_observations (st : store) (c t : string)
    (r : market_price_extremes_row) :
  reachable st →
  market_price_extremes st !! (c, t) = Some r →
  tracks st c t r.
Proof.
  intros Hst Hr. destruct (reachable_consistent st Hst) as (_ & _ & _ & Htr).
  by apply Htr.
Qed.

Lemma extremes_track_observations_witness :
  ∃ r, market_price_extremes (insert_rows 100 Examples.observations empty_store)
         !! ("0xabc", "111") = Some r ∧
       tracks (insert_rows 100 Examples.observations empty_store) "0xabc" "111" r.
Proof.
  eexists. split; [by vm_compute|].
  apply extremes_track_observations; [|by vm_compute].
  apply reachable_insert, reachable_empty.
Defined.

(** X2.  In every store the pipeline can produce, each row is stored under
    its own key, the serial ids lie below their sequences, and no two rows
    of a table share an id (conflicting tuples use ids up, they never
    reuse one). *)
Theorem reachable_keyed_serial (st : store) :
  reachable st → keyed st ∧ serial st.
Proof.
  intros Hst. destruct (reachable_consistent st Hst) as (Hk & Hs & _). done.
Qed.

Lemma reachable_keyed_serial_witness :
  keyed (insert_rows 100 Examples.observations empty_store) ∧
  serial (insert_rows 100 Examples.observations empty_store).
Proof.
  apply reachable_keyed_serial. apply reachable_insert, reachable_empty.
Defined.

(** ** What inserts never undo *)

Section monotone.
Implicit Types (st : store) (v : price_values) (r : market_price_extremes_row).

Lemma price_le_refl (a : option numeric) : is_Some a → price_le a a.
Proof. intros [x ->]. exists x, x. by rewrite numeric_le_refl. Qed.

Lemma price_le_trans (a b c : option numeric) :
  price_le a b → price_le b c → price_le a c.
Proof.
  intros (x & y & -> & -> & Hxy) (y' & z & [= <-] & -> & Hyz).
  exists x, z. eauto using numeric_le_trans.
Qed.

Lemma later_state_refl r :
  is_Some (lowest_price r) → is_Some (highest_price r) → later_state r r.
Proof. intros Hlo Hhi. repeat split; by apply price_le_refl. Qed.

Lemma later_state_trans r1 r2 r3 :
  later_state r1 r2 → later_state r2 r3 → later_state r1 r3.
Proof.
  intros (? & ? & ? & ? & ? & Hlo & Hhi) (? & ? & ? & ? & ? & Hlo' & Hhi').
  repeat split; try congruence; eauto using price_le_trans.
Qed.

Lemma later_state_update now NEW r :
  is_Some (lowest_price r) → is_Some (highest_price r) →
  later_state r (do_update_set now NEW r).
Proof.
  intros [lo Hlo] [hi Hhi]. repeat split; simpl; rewrite ?Hlo, ?Hhi; simpl.
  - destruct (numeric_lt (price NEW) lo) eqn:Hcmp; simpl.
    + exists (price NEW), lo. eauto using numeric_lt_le.
    + exists lo, lo. eauto using numeric_le_refl.
  - destruct (numeric_lt hi (price NEW)) eqn:Hcmp; simpl.
    + exists hi, (price NEW). eauto using numeric_lt_le.
    + exists hi, hi. eauto using numeric_le_refl.
Qed.

Lemma later_state_insert_row now v st k r0 r :
  market_price_extremes st !! k = Some r → later_state r0 r →
  ∃ r', market_price_extremes (insert_row now v st) !! k = Some r' ∧ later_state r0 r'.
Proof.
  intros Hr Hlater.
  destruct (market_prices st !! values_key v) as [row|] eqn:Hk.
  { rewrite (insert_row_taken _ _ _ _ Hk). simpl. eauto. }
  rewrite (insert_row_free _ _ _ Hk). simpl.
  destruct (decide (values_outcome v = k)) as [<-|Hne].
  - rewrite lookup_insert_eq, Hr. eexists. split; [done|].
    eapply later_state_trans; [done|].
    destruct Hlater as (_ & _ & _ & _ & _ & (? & ? & ? & ? & _) & (? & ? & ? & ? & _)).
    apply later_state_update; eauto.
  - rewrite lookup_insert_ne by done. eauto.
Qed.

Lemma later_state_insert_rows now vs : ∀ st k r0 r,
  market_price_extremes st !! k = Some r → later_state r0 r →
  ∃ r', market_price_extremes (insert_rows now vs st) !! k = Some r' ∧ later_state r0 r'.
Proof.
  induction vs as [|v vs IH]; intros st k r0 r Hr Hlater; simpl; [eauto|].
  destruct (later_state_insert_row now v st k r0 r Hr Hlater) as (r1 & Hr1 & Hl1).
  by eapply IH.
Qed.

(** Once the highest price of an outcome is [NaN], no insert changes it. *)
Lemma highest_NaN_insert_row now v st k r :
  market_price_extremes st !! k = Some r → highest_price r = Some NumNaN →
  ∃ r', market_price_extremes (insert_row now v st) !! k = Some r' ∧
        highest_price r' = Some NumNaN.
Proof.
  intros Hr Hhi.
  destruct (market_prices st !! values_key v) as [row|] eqn:Hk.
  { rewrite (insert_row_taken _ _ _ _ Hk). simpl. eauto. }
  rewrite (insert_row_free _ _ _ Hk). simpl.
  destruct (decide (values_outcome v = k)) as [<-|Hne].
  - rewrite lookup_insert_eq, Hr. eexists. split; [done|].
    simpl. by rewrite Hhi.
  - rewrite lookup_insert_ne by done. eauto.
Qed.

Lemma highest_NaN_insert_rows now vs : ∀ st k r,
  market_price_extremes st !! k = Some r → highest_price r = Some NumNaN →
  ∃ r', market_price_extremes (insert_rows now vs st) !! k = Some r' ∧
        highest_price r' = Some NumNaN.
Proof.
  induction vs as [|v vs IH]; intros st k r Hr Hhi; simpl; [eauto|].
  destruct (highest_NaN_insert_row now v st k r Hr Hhi) as (r1 & Hr1 & Hhi1).
  by eapply IH.
Qed.

End monotone.

Section inserts_through_calls.
Variable P : store → Prop.
Hypothesis P_insert_rows : ∀ now vs st, P st → P (insert_rows now vs st).

Lemma insertPrice_keeps data w : P (db w) → P (db (insertPrice data w).2).
Proof.
  intros Hw.
  assert (Hq : triple (λ w, P (db w)) (insertPrice data)
                      (λ _ w, P (db w)) (λ w, P (db w))).
  { apply keeps_query. intros NOW catalog st a st' Hrun Hst.
    unfold insert_market_prices in Hrun.
    destruct (mapM to_values [data]) as [vs|]; simpl in Hrun; [|done].
    injection Hrun as _ <-. by apply P_insert_rows. }
  specialize (Hq w Hw). by destruct (insertPrice data w).1.
Qed.

Lemma batchInsertPrices_keeps prices w :
  P (db w) → P (db (batchInsertPrices prices w).2).
Proof.
  intros Hw. pose proof (keeps_batchInsertPrices P P_insert_rows prices w Hw) as Hrun.
  by destruct (batchInsertPrices prices w).1.
Qed.

Lemma collectPrices_keeps w : P (db w) → P (db (collectPrices w).2).
Proof.
  intros Hw. pose proof (keeps_collectPrices P P_insert_rows w Hw) as Hrun.
  by destruct (collectPrices w).1.
Qed.

End inserts_through_calls.

(** X3.  The observation table is append-only under the pipeline: a row
    that is stored is still stored, unchanged, after [insertPrice], after
    [batchInsertPrices] and after a whole run of [collectPrices], however
    the call ends. *)
Theorem pipeline_keeps_observations (w : world) (data : price_record)
    (prices : list price_record) (k : string * string * Z) (row : market_prices_row) :
  market_prices (db w) !! k = Some row →
  market_prices (db (insertPrice data w).2) !! k = Some row ∧
  market_prices (db (batchInsertPrices prices w).2) !! k = Some row ∧
  market_prices (db (collectPrices w).2) !! k = Some row.
Proof.
  intros Hrow.
  assert (Hins : ∀ now vs st, market_prices st !! k = Some row →
                              market_prices (insert_rows now vs st) !! k = Some row).
  { intros. by apply insert_rows_keeps. }
  split; [|split].
  - by apply (insertPrice_keeps _ Hins).
  - by apply (batchInsertPrices_keeps _ Hins).
  - by apply (collectPrices_keeps _ Hins).
Qed.

Lemma pipeline_keeps_observations_witness :
  let w := Examples.a_minute_later in
  let row := MarketPrice 1 "0xabc" "111" (Some "A") (Num 65000000) 5000
                         (Some "rest") (Some 10) in
  market_prices (db (insertPrice Samples.correction w).2)
    !! ("0xabc", "111", 5000) = Some row ∧
  market_prices (db (batchInsertPrices Examples.batch w).2)
    !! ("0xabc", "111", 5000) = Some row ∧
  market_prices (db (collectPrices w).2) !! ("0xabc", "111", 5000) = Some row.
Proof.
  apply (pipeline_keeps_observations Examples.a_minute_later). by vm_compute.
Defined.

(** X4.  An extremes record only widens: after [batchInsertPrices] and
    after a run of [collectPrices], however they end, the record of an
    outcome is still there with the same id, outcome label and
    [first_recorded], a lowest price that is no higher and a highest price
    that is no lower than before. *)
Theorem pipeline_widens_extremes (w : world) (prices : list price_record)
    (k : string * string) (r : market_price_extremes_row) :
  reachable (db w) →
  market_price_extremes (db w) !! k = Some r →
  (∃ r', market_price_extremes (db (batchInsertPrices prices w).2) !! k = Some r' ∧
         later_state r r') ∧
  (∃ r', market_price_extremes (db (collectPrices w).2) !! k = Some r' ∧
         later_state r r').
Proof.
  intros Hst Hr.
  destruct (reachable_well_formed _ Hst) as [Hsome _].
  destruct (Hsome _ _ Hr) as [Hlo Hhi].
  set (P := λ st, ∃ r', market_price_extremes st !! k = Some r' ∧ later_state r r').
  assert (Hins : ∀ now vs st, P st → P (insert_rows now vs st)).
  { intros now vs st (r' & Hr' & Hlater). by eapply later_state_insert_rows. }
  assert (Hw : P (db w)).
  { exists r. split; [done|]. by apply later_state_refl. }
  split.
  - by apply (batchInsertPrices_keeps P Hins).
  - by apply (collectPrices_keeps P Hins).
Qed.

Lemma pipeline_widens_extremes_witness :
  let w := Examples.a_minute_later in
  ∃ r,
    market_price_extremes (db w) !! ("0xabc", "111") = Some r ∧
    (∃ r', market_price_extremes (db (batchInsertPrices Examples.batch w).2)
             !! ("0xabc", "111") = Some r' ∧ later_state r r') ∧
    (∃ r', market_price_extremes (db (collectPrices w).2)
             !! ("0xabc", "111") = Some r' ∧ later_state r r').
Proof.
  eexists. split; [by vm_compute|].
  apply (pipeline_widens_extremes Examples.a_minute_later); [|by vm_compute].
  apply batchInsertPrices_reachable. apply reachable_empty.
Defined.

(** ** [insertPrice] and [batchInsertPrices] *)

Section single_insert.
Implicit Types (w : world) (data : price_record).

Lemma insertPrice_run data w :
  insertPrice data w =
    match (if db_available w then to_values data else None) with
    | Some v =>
        (Ret tt,
         {| clock := clock w; replies := replies w; lateness := lateness w;
            db_available := db_available w; games := games w;
            db := insert_row (clock w) v (db w);
            trace := trace w ++ [EvQuery (InsertMarketPrices 1);
                                 EvLog LogQueryExecuted] |})
    | None =>
        (Throw DatabaseError,
         {| clock := clock w; replies := replies w; lateness := lateness w;
            db_available := db_available w; games := games w; db := db w;
            trace := trace w ++ [EvQuery (InsertMarketPrices 1);
                                 EvLog LogQueryError] |})
    end.
Proof.
  unfold insertPrice, insert_market_prices. unfold_run. simpl.
  destruct (db_available w); simpl.
  - destruct (to_values data) as [v|]; simpl; by rewrite <- app_assoc.
  - by rewrite <- app_assoc.
Qed.

Lemma to_values_fields data v :
  to_values data = Some v →
  v_condition_id v = pr_conditionId data ∧ v_token_id v = pr_tokenId data ∧
  v_outcome v = pr_outcome data ∧
  to_decimal_18_8 (pr_price data) = Some (v_price v) ∧
  v_timestamp v = pr_timestamp data ∧
  v_source v = Some (or_string (pr_source data) "rest").
Proof.
  unfold to_values. case_match; [|done].
  destruct (to_decimal_18_8 (pr_price data)); simpl; [|done].
  by intros [= <-].
Qed.

End single_insert.

(** X5.  [insertPrice] followed by a lookup.  For a record the database
    accepts, the call returns normally.  When the key (condition id, token
    id, timestamp) is free, the row is then stored under it with the price
    rounded to eight decimals, the given outcome label (NULL when the
    caller had none), the source
    defaulted to "rest" when absent or empty, and the extremes record of
    the outcome has this price as its current price.  When the key is
    taken, whatever the price of the new record, the call still returns
    normally and both tables are as before: the first write wins. *)
Theorem insertPrice_then_lookup (data : price_record) (w : world) :
  db_available w = true →
  is_Some (to_values data) →
  (insertPrice data w).1 = Ret tt ∧
  match market_prices (db w) !! (pr_conditionId data, pr_tokenId data, pr_timestamp data) with
  | Some old =>
      market_prices (db (insertPrice data w).2) = market_prices (db w) ∧
      market_price_extremes (db (insertPrice data w).2) = market_price_extremes (db w)
  | None =>
      ∃ row x r,
        market_prices (db (insertPrice data w).2)
          !! (pr_conditionId data, pr_tokenId data, pr_timestamp data) = Some row ∧
        to_decimal_18_8 (pr_price data) = Some x ∧
        price row = x ∧
        Store.outcome row = pr_outcome data ∧
        source row = Some (or_string (pr_source data) "rest") ∧
        created_at row = Some (clock w) ∧
        market_price_extremes (db (insertPrice data w).2)
          !! (pr_conditionId data, pr_tokenId data) = Some r ∧
        current_price r = Some x ∧
        current_price_timestamp r = Some (pr_timestamp data)
  end.
Proof.
  intros Hup [v Hv]. rewrite insertPrice_run, Hup, Hv. simpl. split; [done|].
  pose proof (to_values_key _ _ Hv) as Hkey.
  destruct (to_values_fields _ _ Hv) as (Hc & Ht & Ho & Hp & Hts & Hsrc).
  rewrite <- Hkey.
  destruct (market_prices (db w) !! values_key v) as [old|] eqn:Hk.
  - by rewrite (insert_row_taken _ _ _ _ Hk).
  - rewrite (insert_row_free _ _ _ Hk). simpl.
    exists (new_row (clock w) (market_prices_id_seq (db w)) v), (v_price v).
    eexists. rewrite lookup_insert_eq. repeat split; try done.
    + rewrite <- Hc, <- Ht. apply lookup_insert_eq.
    + by destruct (market_price_extremes (db w) !! values_outcome v).
    + rewrite <- Hts. by destruct (market_price_extremes (db w) !! values_outcome v).
Qed.

Lemma insertPrice_then_lookup_witness :
  (insertPrice Samples.correction Examples.a_minute_later).1 = Ret tt ∧
  market_prices (db (insertPrice Samples.correction Examples.a_minute_later).2)
  = market_prices (db Examples.a_minute_later) ∧
  market_price_extremes (db (insertPrice Samples.correction Examples.a_minute_later).2)
  = market_price_extremes (db Examples.a_minute_later).
Proof.
  apply (insertPrice_then_lookup Samples.correction Examples.a_minute_later).
  - reflexivity.
  - eexists. by vm_compute.
Defined.

(** X6.  A batch is written entirely or not at all.  An empty batch
    returns at once and touches nothing, not even a database that is down.
    A batch that is not empty either returns normally, and then every one
    of its records was accepted and has a row under its key; or it throws
    the database error, which happens exactly when the database is down or
    one record at least is refused, and then nothing of the batch is
    stored, the acceptable records included. *)
Theorem batchInsertPrices_all_or_nothing (B : list price_record) (w : world) :
  match B with
  | [] => batchInsertPrices B w = (Ret tt, w)
  | _ :: _ =>
      ((batchInsertPrices B w).1 = Ret tt ∧
       db_available w = true ∧
       Forall (λ p, is_Some (to_values p)) B ∧
       ∀ p, p ∈ B →
         is_Some (market_prices (db (batchInsertPrices B w).2)
                    !! (pr_conditionId p, pr_tokenId p, pr_timestamp p)))
      ∨
      ((batchInsertPrices B w).1 = Throw DatabaseError ∧
       (db_available w = false ∨ Exists (λ p, to_values p = None) B) ∧
       db (batchInsertPrices B w).2 = db w)
  end.
Proof.
  destruct B as [|p0 B0]; [done|].
  destruct (batchInsertPrices_cases (p0 :: B0) w) as
    [(Hup & vs & Hvs & Hret & Hdb)|([Hdown|Hnone] & Hthrow & Hdb)]; [done| | |].
  - left. split; [done|]. split; [done|]. split.
    + assert (is_Some (mapM to_values (p0 :: B0))) as Hsome by eauto.
      apply mapM_is_Some_1 in Hsome.
      eapply Forall_impl; [exact Hsome|]. by intros p Hp.
    + intros p Hp. apply mapM_Some_1 in Hvs.
      apply list_elem_of_lookup in Hp as [i Hi].
      destruct (Forall2_lookup_l _ _ _ _ _ Hvs Hi) as (v & Hv & Hpv).
      rewrite Hdb, <- (to_values_key _ _ Hpv).
      apply insert_rows_present. by eapply list_elem_of_lookup_2.
  - right. auto.
  - right. split; [done|]. split; [|done]. right. by apply mapM_None_1.
Qed.

(** X7.  A price that is not a number stays.  When an observation whose
    price is [NaN] (the number [parseFloat] gives for a quote that does
    not parse) is inserted under a free key, the database stores it, and
    from then on the highest price of that outcome is [NaN]: no later
    batch and no later run changes it, whatever prices they observe. *)
Theorem NaN_price_pins_highest (data : price_record) (w w1 : world)
    (prices : list price_record) :
  reachable (db w) →
  (insertPrice data w).1 = Ret tt →
  pr_price data = NaN →
  market_prices (db w) !! (pr_conditionId data, pr_tokenId data, pr_timestamp data) = None →
  db w1 = db (insertPrice data w).2 →
  (∃ row, market_prices (db w1)
            !! (pr_conditionId data, pr_tokenId data, pr_timestamp data) = Some row ∧
          price row = NumNaN) ∧
  (∃ r, market_price_extremes (db (batchInsertPrices prices w1).2)
          !! (pr_conditionId data, pr_tokenId data) = Some r ∧
        highest_price r = Some NumNaN) ∧
  (∃ r, market_price_extremes (db (collectPrices w1).2)
          !! (pr_conditionId data, pr_tokenId data) = Some r ∧
        highest_price r = Some NumNaN).
Proof.
  intros Hst Hret Hnan Hfree Hw1.
  rewrite insertPrice_run in Hret, Hw1.
  destruct (db_available w); [|done].
  destruct (to_values data) as [v|] eqn:Hv; [|done]. simpl in Hw1.
  pose proof (to_values_key _ _ Hv) as Hkey.
  destruct (to_values_fields _ _ Hv) as (Hc & Ht & _ & Hp & _ & _).
  rewrite Hnan in Hp. injection Hp as Hp.
  rewrite <- Hkey in Hfree |- *. rewrite <- Hc, <- Ht.
  change (v_condition_id v, v_token_id v) with (values_outcome v).
  rewrite (insert_row_free _ _ _ Hfree) in Hw1.
  set (P := λ st, ∃ r, market_price_extremes st !! values_outcome v = Some r ∧
                       highest_price r = Some NumNaN).
  assert (Hins : ∀ now vs st, P st → P (insert_rows now vs st)).
  { intros now vs st (r & Hr & Hhi). by eapply highest_NaN_insert_rows. }
  assert (HP : P (db w1)).
  { rewrite Hw1. unfold P. simpl. rewrite lookup_insert_eq. eexists. split; [done|].
    destruct (market_price_extremes (db w) !! values_outcome v) as [old|] eqn:Hold;
      simpl; [|by rewrite <- Hp].
    destruct (reachable_well_formed _ Hst) as [Hsome _].
    destruct (Hsome _ _ Hold) as [_ [hi Hhi]]. rewrite Hhi, <- Hp. simpl.
    by destruct hi. }
  split; [|split].
  - rewrite Hw1. simpl. rewrite lookup_insert_eq. eexists. split; [done|]. by simpl.
  - by apply (batchInsertPrices_keeps P Hins).
  - by apply (collectPrices_keeps P Hins).
Qed.

Lemma NaN_price_pins_highest_witness :
  (∃ row, market_prices (db Samples.after_unparsed) !! ("0xabc", "111", 4000) = Some row ∧
          price row = NumNaN) ∧
  (∃ r, market_price_extremes
          (db (batchInsertPrices Examples.batch Samples.after_unparsed).2)
          !! ("0xabc", "111") = Some r ∧
        highest_price r = Some NumNaN) ∧
  (∃ r, market_price_extremes (db (collectPrices Samples.after_unparsed).2)
          !! ("0xabc", "111") = Some r ∧
        highest_price r = Some NumNaN).
Proof.
  apply (NaN_price_pins_highest Samples.unparsed Examples.idle Samples.after_unparsed).
  - apply reachable_empty.
  - by vm_compute.
  - by vm_compute.
  - by vm_compute.
  - reflexivity.
Defined.

(** ** The clean-up migrations *)

Section clean_up.
Implicit Types (st : store).

Lemma delete_old_prices_rows st k row :
  keyed st →
  market_prices (delete_old_prices st) !! k = Some row ↔
  market_prices st !! k = Some row ∧ like_0x k.1.1 = true.
Proof.
  intros [Hp _]. unfold delete_old_prices; simpl.
  rewrite map_lookup_filter_Some. simpl. split.
  - intros [Hrow Hhex]. split; [done|]. by rewrite <- (Hp _ _ Hrow).
  - intros [Hrow Hhex]. split; [done|]. by rewrite <- (Hp _ _ Hrow) in Hhex.
Qed.

Lemma delete_orphaned_extremes_rows st k r :
  keyed st →
  market_price_extremes (delete_orphaned_extremes st) !! k = Some r ↔
  market_price_extremes st !! k = Some r ∧ like_0x k.1 = true.
Proof.
  intros [_ He]. unfold delete_orphaned_extremes; simpl.
  rewrite map_lookup_filter_Some. simpl. split.
  - intros [Hr Hhex]. split; [done|]. by rewrite <- (He _ _ Hr).
  - intros [Hr Hhex]. split; [done|]. by rewrite <- (He _ _ Hr) in Hhex.
Qed.

Lemma delete_old_prices_hex_rows st c t ts :
  keyed st → like_0x c = true →
  market_prices (delete_old_prices st) !! (c, t, ts) = market_prices st !! (c, t, ts).
Proof.
  intros Hk Hhex. apply option_eq. intros row.
  rewrite delete_old_prices_rows by done. simpl.
  split; [by intros [? _]|by intros].
Qed.

Lemma consistent_delete_old_prices st :
  consistent st → consistent (delete_old_prices st).
Proof.
  intros (Hkeyed & (Hs1 & Hs2 & Hs3 & Hs4) & [Hsome Hiff] & Htr).
  assert (Hext : ∀ k r,
    market_price_extremes (delete_old_prices st) !! k = Some r ↔
    market_price_extremes st !! k = Some r ∧ like_0x k.1 = true).
  { intros k r. by apply delete_orphaned_extremes_rows. }
  assert (Hrows : ∀ k row,
    market_prices (delete_old_prices st) !! k = Some row ↔
    market_prices st !! k = Some row ∧ like_0x k.1.1 = true).
  { intros k row. by apply delete_old_prices_rows. }
  split; [|split; [|split; [split|]]].
  - destruct Hkeyed as [Hp He]. split.
    + intros k row [Hrow _]%Hrows. by apply Hp.
    + intros k r [Hr _]%Hext. by apply He.
  - repeat split.
    + intros k row [Hrow _]%Hrows. by eapply Hs1.
    + intros k r [Hr _]%Hext. by eapply Hs2.
    + intros k k' r r' [Hr _]%Hrows [Hr' _]%Hrows. by eapply Hs3.
    + intros k k' r r' [Hr _]%Hext [Hr' _]%Hext. by eapply Hs4.
  - intros k r [Hr _]%Hext. by eapply Hsome.
  - intros c t. split.
    + intros [r [Hr Hhex]%Hext]. simpl in Hhex.
      destruct (proj1 (Hiff c t)) as [ts [row Hrow]]; [eauto|].
      exists ts, row. apply Hrows. done.
    + intros [ts [row [Hrow Hhex]%Hrows]]. simpl in Hhex.
      destruct (proj2 (Hiff c t)) as [r Hr]; [eauto|].
      exists r. apply Hext. done.
  - intros c t r [Hr Hhex]%Hext. simpl in Hhex.
    eapply tracks_same_rows; [|by apply Htr].
    intros ts. by apply delete_old_prices_hex_rows.
Qed.

End clean_up.

(** X8.  The alternative clean-up (delete the extremes records, then the
    observations, whose condition id does not start with 0x), run on a
    store of the pipeline: a row of either table remains exactly when the
    condition id of its key starts with 0x; the two tables still agree
    with each other as the pipeline keeps them, also after any inserts
    that follow; and running the migration again changes nothing. *)
Theorem delete_old_prices_keeps_ledger (st : store) (now : Z) (vs : list price_values) :
  reachable st →
  (∀ k row, market_prices (delete_old_prices st) !! k = Some row ↔
            market_prices st !! k = Some row ∧ like_0x k.1.1 = true) ∧
  (∀ k r, market_price_extremes (delete_old_prices st) !! k = Some r ↔
          market_price_extremes st !! k = Some r ∧ like_0x k.1 = true) ∧
  consistent (delete_old_prices st) ∧
  consistent (insert_rows now vs (delete_old_prices st)) ∧
  delete_old_prices (delete_old_prices st) = delete_old_prices st.
Proof.
  intros Hst. pose proof (reachable_consistent _ Hst) as Hcons.
  pose proof Hcons as (Hkeyed & _).
  pose proof (consistent_delete_old_prices _ Hcons) as Hcons'.
  split; [intros; by apply delete_old_prices_rows|].
  split; [intros; by apply delete_orphaned_extremes_rows|].
  split; [done|]. split; [by apply consistent_insert_rows|].
  unfold delete_old_prices, delete_non_hex_prices, delete_orphaned_extremes; simpl.
  f_equal.
  - apply map_filter_id. by intros k row [_ Hhex]%map_lookup_filter_Some.
  - apply map_filter_id. by intros k r [_ Hhex]%map_lookup_filter_Some.
Qed.

Lemma delete_old_prices_keeps_ledger_witness :
  let st := Samples.mixed_store in
  (∀ k row, market_prices (delete_old_prices st) !! k = Some row ↔
            market_prices st !! k = Some row ∧ like_0x k.1.1 = true) ∧
  (∀ k r, market_price_extremes (delete_old_prices st) !! k = Some r ↔
          market_price_extremes st !! k = Some r ∧ like_0x k.1 = true) ∧
  consistent (delete_old_prices st) ∧
  consistent (insert_rows 200 Examples.observations_swapped (delete_old_prices st)) ∧
  delete_old_prices (delete_old_prices st) = delete_old_prices st.
Proof.
  apply delete_old_prices_keeps_ledger. apply reachable_insert, reachable_empty.
Defined.

(** X9.  Migration 006 (delete the extremes records whose condition id does
    not start with 0x), run on a store of the pipeline: the observations
    are untouched and its verification count is zero; an outcome has an
    extremes record afterwards exactly when its condition id starts with
    0x and it has an observation, so the observations under other ids are
    left without a record; the records that remain still agree with the
    stored observations.  The next observation inserted for an outcome
    that lost its record starts a new record from that observation alone,
    whatever the older observations still stored. *)
Theorem delete_orphaned_extremes_effect (st : store) (now : Z) (v : price_values) :
  reachable st →
  like_0x (v_condition_id v) = false →
  market_prices st !! values_key v = None →
  market_prices (delete_orphaned_extremes st) = market_prices st ∧
  remaining_non_hex (delete_orphaned_extremes st) = 0%nat ∧
  (∀ c t, is_Some (market_price_extremes (delete_orphaned_extremes st) !! (c, t)) ↔
          like_0x c = true ∧ ∃ ts, is_Some (market_prices st !! (c, t, ts))) ∧
  (∀ c t r, market_price_extremes (delete_orphaned_extremes st) !! (c, t) = Some r →
            tracks (delete_orphaned_extremes st) c t r) ∧
  (∃ r, market_price_extremes (insert_row now v (delete_orphaned_extremes st))
          !! values_outcome v = Some r ∧
        lowest_price r = Some (v_price v) ∧
        highest_price r = Some (v_price v) ∧
        first_recorded r = Some (v_timestamp v)).
Proof.
  intros Hst Hhex Hfree.
  pose proof (reachable_consistent _ Hst) as (Hkeyed & _ & [_ Hiff] & Htr).
  split; [done|]. split; [|split; [|split]].
  - unfold remaining_non_hex. apply map_size_empty_iff, map_empty. intros k.
    apply map_lookup_filter_None. right. intros r [_ Hr]%map_lookup_filter_Some.
    simpl in *. by rewrite Hr.
  - intros c t. split.
    + intros [r [Hr Hc]%delete_orphaned_extremes_rows]; [|done]. split; [done|].
      apply Hiff. eauto.
    + intros [Hc [r Hr]%Hiff]. exists r. by apply delete_orphaned_extremes_rows.
  - intros c t r [Hr _]%delete_orphaned_extremes_rows; [|done].
    eapply tracks_same_rows; [|by apply Htr]. done.
  - assert (Hgone : market_price_extremes (delete_orphaned_extremes st)
                      !! values_outcome v = None).
    { apply eq_None_not_Some. intros [r [_ Hc]%delete_orphaned_extremes_rows]; [|done].
      simpl in Hc. congruence. }
    rewrite insert_row_free by done. cbn [market_price_extremes].
    rewrite lookup_insert_eq, Hgone. eexists. by split.
Qed.

Lemma delete_orphaned_extremes_effect_witness :
  let st := Samples.mixed_store in
  let v := Samples.legacy 90000000 3 in
  market_prices (delete_orphaned_extremes st) = market_prices st ∧
  remaining_non_hex (delete_orphaned_extremes st) = 0%nat ∧
  (∀ c t, is_Some (market_price_extremes (delete_orphaned_extremes st) !! (c, t)) ↔
          like_0x c = true ∧ ∃ ts, is_Some (market_prices st !! (c, t, ts))) ∧
  (∀ c t r, market_price_extremes (delete_orphaned_extremes st) !! (c, t) = Some r →
            tracks (delete_orphaned_extremes st) c t r) ∧
  (∃ r, market_price_extremes (insert_row 300 v (delete_orphaned_extremes st))
          !! values_outcome v = Some r ∧
        lowest_price r = Some (v_price v) ∧
        highest_price r = Some (v_price v) ∧
        first_recorded r = Some (v_timestamp v)).
Proof.
  apply delete_orphaned_extremes_effect.
  - apply reachable_insert, reachable_empty.
  - reflexivity.
  - by vm_compute.
Defined.

(** ** The next start date *)

Section next_start.
Implicit Types (l : list Z).

Lemma sql_min_None l : sql_min l = None ↔ l = [].
Proof.
  destruct l as [|x l]; [done|]. split; [|done].
  unfold sql_min. simpl. by case_match.
Qed.

Lemma sql_min_Some l d :
  sql_min l = Some d ↔ d ∈ l ∧ ∀ x, x ∈ l → d ≤ x.
Proof.
  revert d. induction l as [|x l IH]; intros d.
  - split; [done|]. by intros [?%elem_of_nil _].
  - change (sql_min (x :: l)) with
      (match sql_min l with None => Some x | Some y => Some (Z.min x y) end).
    destruct (sql_min l) as [y|] eqn:Hmin.
    + destruct (proj1 (IH y) eq_refl) as [Hy Hle]. split.
      * intros [= <-]. split.
        -- destruct (Z.min_spec x y) as [[_ ->]|[_ ->]]; [by left|by right].
        -- intros z [->|Hz]%elem_of_cons; [lia|]. specialize (Hle z Hz). lia.
      * intros [Hd Hall]. f_equal.
        assert (d ≤ x) by (apply Hall; by left).
        assert (d ≤ y) by (apply Hall; by right).
        apply elem_of_cons in Hd as [->|Hd]; [lia|].
        specialize (Hle d Hd). lia.
    + apply sql_min_None in Hmin as ->. split.
      * intros [= <-]. split; [by left|].
        by intros z ->%list_elem_of_singleton.
      * by intros [->%list_elem_of_singleton _].
Qed.

End next_start.

(** X10.  The [nextGameStart] that [shouldUseHighFrequency] reports.  With
    the database up, it is the earliest start date among the games that
    are not closed and start later than now, provided that date lies
    within the next 48 hours; it is absent exactly when no game that is not
    closed starts within the next 48 hours, later games notwithstanding.
    With the database down the call throws the database error. *)
Theorem shouldUseHighFrequency_next_start (toISOString : Z → string) (w : world) :
  if db_available w then
    ∃ f,
      (shouldUseHighFrequency toISOString w).1 = Ret f ∧
      match nextGameStart f with
      | Some d =>
          clock w < d < clock w + hours 48 ∧
          (∃ g, g ∈ games w ∧ closed g = false ∧ start_date g = d) ∧
          (∀ g, g ∈ games w → closed g = false → clock w < start_date g →
                d ≤ start_date g)
      | None =>
          ∀ g, g ∈ games w → closed g = false →
               ¬ (clock w < start_date g < clock w + hours 48)
      end
  else (shouldUseHighFrequency toISOString w).1 = Throw DatabaseError.
Proof.
  destruct (db_available w) eqn:Hup.
  2: { unfold shouldUseHighFrequency. unfold_run. simpl. by rewrite Hup. }
  eexists. split; [by apply shouldUseHighFrequency_result|].
  set (row := select_frequency (clock w) (games w)).
  assert (Hnext : ∀ f : frequency,
    f = (if (0 <? active_count row)%N then
           {| highFrequency := true;
              reason := pretty (active_count row) +:+ " active game(s) in progress";
              nextGameStart := next_start_date row |}
         else if (0 <? upcoming_count row)%N then
           {| highFrequency := true;
              reason := pretty (upcoming_count row)
                        +:+ " game(s) starting within 10 minutes";
              nextGameStart := next_start_date row |}
         else
           {| highFrequency := false;
              reason := match next_start_date row with
                        | Some d => "Next game starts at " +:+ toISOString d
                        | None => "No upcoming games"
                        end;
              nextGameStart := next_start_date row |}) →
    nextGameStart f = next_start_date row).
  { intros f ->. by repeat case_match. }
  rewrite (Hnext _ eq_refl). clear Hnext. subst row. unfold select_frequency; simpl.
  set (future := filter (λ g, clock w < start_date g)
                   (filter (frequency_where (clock w)) (games w))).
  assert (Hfuture : ∀ g, g ∈ future ↔
    g ∈ games w ∧ closed g = false ∧ clock w < start_date g < clock w + hours 48).
  { intros g. unfold future. rewrite !list_elem_of_filter. unfold frequency_where.
    split.
    - intros (Hlater & [Hopen Hnear] & Hin). auto.
    - intros (Hin & Hopen & Hlater & Hnear). auto. }
  destruct (sql_min (start_date <$> future)) as [d|] eqn:Hmin.
  - apply sql_min_Some in Hmin as [Hd Hle].
    apply list_elem_of_fmap in Hd as (g & -> & Hg).
    pose proof (proj1 (Hfuture g) Hg) as (Hin & Hopen & Hwindow).
    split; [done|]. split; [by exists g|].
    intros g' Hin' Hopen' Hlater.
    destruct (decide (start_date g' < clock w + hours 48)) as [Hnear|Hfar]; [|lia].
    apply Hle. apply list_elem_of_fmap. exists g'. split; [done|].
    apply Hfuture. auto.
  - apply sql_min_None in Hmin. apply fmap_nil_inv in Hmin.
    intros g Hin Hopen Hwindow.
    assert (Hg : g ∈ future) by (apply Hfuture; auto).
    rewrite Hmin in Hg. by apply elem_of_nil in Hg.
Qed.

(** ** The account of a run *)

Import Accounting.

Lemma triple_pure_pre {A : Type} (φ : Prop) (P : world → Prop) (m : M A) Qn Qa :
  (φ → triple P m Qn Qa) → triple (λ w, P w ∧ φ) m Qn Qa.
Proof. intros Hm w [Hw Hφ]. by apply Hm. Qed.

(** A loop whose body adds [f x] to what has been accumulated. *)
Lemma triple_for_of_acc {X S B : Type} (f : X → list B)
    (J : list B → S → world → Prop) (Qa : world → Prop)
    (body : X → S → M S) (l : list X) :
  (∀ acc x s, x ∈ l → triple (J acc s) (body x s) (J (acc ++ f x)) Qa) →
  ∀ acc s, triple (J acc s) (for_of l body s) (J (acc ++ (l ≫= f))) Qa.
Proof.
  induction l as [|x l IH]; intros Hbody acc s; simpl.
  - apply triple_ret. intros w Hw. by rewrite app_nil_r.
  - eapply triple_bind.
    + apply Hbody. by left.
    + intros s'. rewrite (assoc_L (++)). apply IH.
      intros acc' x' s'' Hx'. apply Hbody. by right.
Qed.

Section results.
Implicit Types (tr evs : list event) (e : event).

Lemma results_app tr evs : results (tr ++ evs) = results tr ++ results evs.
Proof. apply omap_app. Qed.

Lemma store_writes_app tr evs :
  store_writes (tr ++ evs) = (store_writes tr + store_writes evs)%nat.
Proof. unfold store_writes. by rewrite filter_app, length_app. Qed.

Lemma results_length tr : length (results tr) = calls tr.
Proof.
  unfold calls, successes, failures, results.
  induction tr as [|e tr IH]; [done|].
  rewrite !filter_cons. destruct e as [[]| | |]; simpl.
  all: change (list_omap event (option string) result_of tr) with (omap result_of tr).
  all: rewrite IH; lia.
Qed.

End results.

Section loops.
Variable w0 : world.
Implicit Types (w : world) (acc : list (option string)) (lo : Z).

#[local] Abbreviation untouched := (unwritten w0).

Lemma in_loops_untouched acc lo w : in_loops w0 acc lo w → untouched w.
Proof. by intros (_ & [_ Hclock] & Hdb & _). Qed.

Lemma in_loops_event acc lo w e :
  in_loops w0 acc lo w → is_store_write e = false →
  in_loops w0 (acc ++ option_list (result_of e)) lo
    {| clock := clock w; replies := replies w; lateness := lateness w;
       db_available := db_available w; games := games w; db := db w;
       trace := trace w ++ [e] |}.
Proof.
  intros ((evs & Htr & Hres & Hsw) & Hlo & Hdb & Hup) He.
  split; [|done]. exists (evs ++ [e]). simpl.
  rewrite Htr, results_app, store_writes_app, Hres, Hsw, (assoc_L (++)).
  repeat split. unfold store_writes. simpl. rewrite filter_cons, He. done.
Qed.

Lemma in_loops_later acc lo lo' w :
  in_loops w0 acc lo w → lo' ≤ lo → in_loops w0 acc lo' w.
Proof. intros (Hevs & Hlo & Hrest) Hle. split; [done|]. split; [lia|done]. Qed.

Lemma triple_log_quiet l acc lo Qa :
  result_of (EvLog l) = None →
  triple (in_loops w0 acc lo) (log l) (λ _, in_loops w0 acc lo) Qa.
Proof.
  intros Hl w Hw. simpl.
  pose proof (in_loops_event acc lo w (EvLog l) Hw eq_refl) as Hw'.
  by rewrite Hl, app_nil_r in Hw'.
Qed.

Lemma triple_log_result l title acc lo Qa :
  result_of (EvLog l) = Some title →
  triple (in_loops w0 acc lo) (log l) (λ _, in_loops w0 (acc ++ [title]) lo) Qa.
Proof.
  intros Hl w Hw. simpl.
  pose proof (in_loops_event acc lo w (EvLog l) Hw eq_refl) as Hw'.
  by rewrite Hl in Hw'.
Qed.

Lemma triple_sleep_in_loops ms acc lo Qa :
  0 ≤ ms →
  triple (in_loops w0 acc lo) (sleep ms) (λ _, in_loops w0 acc (lo + ms)) Qa.
Proof.
  intros Hms w Hw. unfold sleep. unfold_fetch. simpl.
  pose proof (in_loops_event acc lo w (EvSleep (clock w) ms) Hw eq_refl) as Hw'.
  simpl in Hw'. rewrite app_nil_r in Hw'.
  destruct Hw' as (Hevs & Hlo & Hdb & Hup). simpl in *.
  split; [done|]. simpl. split; [lia|done].
Qed.

Lemma triple_fetch_in_loops url acc lo :
  triple (in_loops w0 acc lo) (fetch url)
         (λ _, in_loops w0 acc lo) (in_loops w0 acc lo).
Proof.
  intros w Hw. unfold fetch. unfold_fetch. simpl.
  pose proof (in_loops_event acc lo w (EvFetch (clock w) url) Hw eq_refl) as Hw'.
  simpl in Hw'. rewrite app_nil_r in Hw'.
  destruct Hw' as (Hevs & Hlo & Hdb & Hup). simpl in *.
  destruct (replies w) as [|[lat|lat st b] rest]; simpl.
  - done.
  - split; [done|]. simpl. split; [lia|done].
  - split; [done|]. simpl. split; [lia|done].
Qed.

Lemma triple_fetchTokenPrice_in_loops tokenId acc lo :
  triple (in_loops w0 acc lo) (fetchTokenPrice tokenId)
         (λ _, in_loops w0 acc lo) (in_loops w0 acc lo).
Proof.
  assert (Hrec : ∀ fuel,
    triple (in_loops w0 acc lo) (fetchTokenPrice_rec fuel tokenId)
           (λ _, in_loops w0 acc lo) (in_loops w0 acc lo)).
  { induction fuel as [|fuel IH]; [by intros w Hw|].
    simpl. eapply triple_try_catch with (Qa' := in_loops w0 acc lo); [| |done].
    - eapply triple_bind; [apply triple_fetch_in_loops|].
      intros response. destruct (negb (ok response)).
      + case_bool_decide.
        * eapply triple_bind; [by apply triple_log_quiet|]. intros ?.
          eapply triple_bind with (R := λ _, in_loops w0 acc lo); [|by intros ?].
          eapply triple_consequence;
            [by apply (triple_sleep_in_loops 30000 acc lo (in_loops w0 acc lo))
            |auto| |auto].
          intros ? w Hw. apply (in_loops_later acc (lo + 30000)); [exact Hw|lia].
        * eapply triple_bind; [by apply triple_log_quiet|]. intros ?.
          by apply triple_ret.
      + eapply triple_bind with (R := λ _, in_loops w0 acc lo).
        * intros w Hw. unfold json_price_mid. by destruct (payload response).
        * intros [p m]. destruct (or_field p m).
          -- eapply triple_bind; [by apply triple_log_quiet|]. intros ?.
             by apply triple_ret.
          -- eapply triple_bind; [by apply triple_log_quiet|]. intros ?.
             by apply triple_ret.
          -- by apply triple_ret.
    - intros e. eapply triple_bind; [by apply triple_log_quiet|]. intros ?.
      by apply triple_ret. }
  intros w Hw. by apply (Hrec _ w).
Qed.

Variables ts t0 : Z.

#[local] Abbreviation in_run acc vars :=
  (λ w : world,
     in_loops w0 acc (t0 + DELAY_BETWEEN_REQUESTS * requestCount vars) w ∧
     booked ts acc vars).

Lemma triple_skip_in_run l acc vars :
  result_of (EvLog l) = None →
  triple (in_run acc vars) (log l;; mret vars) (λ vars', in_run (acc ++ []) vars') untouched.
Proof.
  intros Hl. rewrite app_nil_r. apply triple_pure_pre. intros Hb.
  eapply triple_bind; [by apply triple_log_quiet|]. intros ?.
  by apply triple_ret.
Qed.

Lemma triple_collect_outcome_in_run m o acc vars :
  triple (in_run acc vars) (collect_outcome ts m o vars)
         (λ vars', in_run (acc ++ titles_of_outcome o) vars') untouched.
Proof.
  unfold collect_outcome, titles_of_outcome, has_token.
  destruct (tokenID o) as [tokenId|]; [|by apply triple_skip_in_run].
  case_bool_decide; simpl; [by apply triple_skip_in_run|].
  apply triple_pure_pre. intros [[Hrc Hsc] Hrecs].
  set (lo := t0 + DELAY_BETWEEN_REQUESTS * requestCount vars).
  assert (Hdelay : 0 ≤ DELAY_BETWEEN_REQUESTS) by by vm_compute.
  eapply triple_consequence with
    (P' := in_loops w0 acc lo)
    (Qn' := λ vars', in_run (acc ++ [title o]) vars')
    (Qa' := λ w, in_loops w0 acc lo w ∨ in_loops w0 (acc ++ [title o]) lo w);
    [|done|done|].
  2: { intros w [Hw|Hw]; by eapply in_loops_untouched. }
  eapply triple_bind with (R := λ _, in_loops w0 acc lo).
  { destruct (_ && _).
    - eapply triple_bind; [by apply triple_log_quiet|]. intros ?.
      eapply triple_consequence;
        [by apply (triple_sleep_in_loops DELAY_BETWEEN_REQUESTS acc lo
                      (in_loops w0 acc lo))
        |auto| |by left].
      intros ? w Hw. apply (in_loops_later acc (lo + DELAY_BETWEEN_REQUESTS));
        [exact Hw|lia].
    - by apply triple_ret. }
  intros ?. eapply triple_bind.
  { eapply triple_consequence; [apply triple_fetchTokenPrice_in_loops|done|done|by left]. }
  intros price.
  eapply triple_bind with
    (R := λ vars' w, in_loops w0 (acc ++ [title o]) lo w ∧
                     booked ts (acc ++ [title o]) vars' ∧
                     requestCount vars' = requestCount vars + 1).
  { destruct price as [p|].
    - eapply triple_bind; [by apply triple_log_result|]. intros ?.
      apply triple_ret. intros w Hw. split; [done|]. split; [|done].
      split; simpl.
      + rewrite !length_app. simpl. lia.
      + apply Forall_app. split; [done|]. by apply Forall_singleton.
    - eapply triple_bind; [by apply triple_log_result|]. intros ?.
      apply triple_ret. intros w Hw. split; [done|]. split; [|done].
      split; simpl; [|done].
      rewrite length_app. simpl. lia. }
  intros vars'. apply triple_pure_pre with (P := in_loops w0 (acc ++ [title o]) lo).
  intros [Hb' Hrc'].
  eapply triple_bind with
    (R := λ _, in_loops w0 (acc ++ [title o]) (lo + DELAY_BETWEEN_REQUESTS)).
  { eapply triple_consequence;
      [by apply (triple_sleep_in_loops DELAY_BETWEEN_REQUESTS (acc ++ [title o]) lo
                   (in_loops w0 (acc ++ [title o]) lo))|done|done|by right]. }
  intros ?. apply triple_ret. intros w Hw. split; [|done].
  eapply in_loops_later; [exact Hw|]. subst lo. rewrite Hrc'. lia.
Qed.

Lemma triple_collect_market_in_run m acc vars :
  triple (in_run acc vars) (collect_market ts m vars)
         (λ vars', in_run (acc ++ titles_of_market m) vars') untouched.
Proof.
  assert (Hloop : ∀ os,
    triple (in_run acc vars) (for_of os (collect_outcome ts m) vars)
           (λ vars', in_run (acc ++ os ≫= titles_of_outcome) vars') untouched).
  { intros os.
    apply (triple_for_of_acc titles_of_outcome (λ acc vars, in_run acc vars)).
    intros acc' o' vars' _. apply triple_collect_outcome_in_run. }
  unfold collect_market, titles_of_market.
  destruct (outcomes m) as [[|o os]|].
  - by apply triple_skip_in_run.
  - exact (Hloop (o :: os)).
  - by apply triple_skip_in_run.
Qed.

Lemma triple_collect_game_in_run g acc vars :
  triple (in_run acc vars) (collect_game ts g vars)
         (λ vars', in_run (acc ++ titles_of_game g) vars') untouched.
Proof.
  unfold collect_game, titles_of_game.
  eapply triple_bind with (R := λ _, in_run acc vars).
  { apply triple_pure_pre. intros Hb.
    eapply triple_consequence;
      [by apply (triple_log_quiet (LogGame (game_title g) (id g)) acc
                   (t0 + DELAY_BETWEEN_REQUESTS * requestCount vars) untouched)
      |done| |done].
    by intros ? w Hw. }
  intros ?.
  apply (triple_for_of_acc titles_of_market (λ acc vars, in_run acc vars)).
  intros acc' m' vars' _. apply triple_collect_market_in_run.
Qed.

Lemma triple_games_in_run gs acc vars :
  triple (in_run acc vars) (for_of gs (collect_game ts) vars)
         (λ vars', in_run (acc ++ sampled_titles gs) vars') untouched.
Proof.
  apply (triple_for_of_acc titles_of_game (λ acc vars, in_run acc vars)).
  intros acc' g' vars' _. apply triple_collect_game_in_run.
Qed.

End loops.

Lemma batchInsertPrices_run B w :
  B ≠ [] →
  batchInsertPrices B w =
    match (if db_available w then mapM to_values B else None) with
    | Some vs =>
        (Ret tt,
         {| clock := clock w; replies := replies w; lateness := lateness w;
            db_available := db_available w; games := games w;
            db := insert_rows (clock w) vs (db w);
            trace := trace w ++ [EvQuery (InsertMarketPrices (length B));
                                 EvLog LogQueryExecuted;
                                 EvLog (LogBatchInserted (length B))] |})
    | None =>
        (Throw DatabaseError,
         {| clock := clock w; replies := replies w; lateness := lateness w;
            db_available := db_available w; games := games w; db := db w;
            trace := trace w ++ [EvQuery (InsertMarketPrices (length B));
                                 EvLog LogQueryError] |})
    end.
Proof.
  intros HB. destruct B as [|p B]; [done|].
  unfold batchInsertPrices, insert_market_prices. unfold_run. simpl.
  destruct (db_available w); simpl; [|by rewrite <- ?app_assoc].
  destruct (mapM to_values (p :: B)) as [vs|] eqn:Hvs.
  all: change (to_values p ≫= λ y, mapM to_values B ≫= λ k, mret (y :: k))
         with (mapM to_values (p :: B)).
  all: rewrite Hvs; simpl; by rewrite <- ?app_assoc.
Qed.

Section whole_run.
Variable w0 : world.

#[local] Abbreviation found := (to_game <$> select_active_games (clock w0) (games w0)).
#[local] Abbreviation vars0 :=
  {| priceRecords := []; requestCount := 0; successCount := 0; failureCount := 0 |}.

(** The state after the batch has been written. *)
#[local] Abbreviation written gs vars :=
  (λ w : world,
     (∃ evs, trace w = trace w0 ++ evs ∧ results evs = sampled_titles gs ∧
             (store_writes evs ≤ 1)%nat) ∧
     clock w0 + DELAY_BETWEEN_REQUESTS * requestCount vars ≤ clock w ∧
     ((priceRecords vars = [] ∧ db w = db w0) ∨
      (∃ vs, mapM to_values (priceRecords vars) = Some vs ∧
             db w = insert_rows (clock w) vs (db w0)))).

Lemma written_log gs vars l w :
  written gs vars w → result_of (EvLog l) = None →
  written gs vars
    {| clock := clock w; replies := replies w; lateness := lateness w;
       db_available := db_available w; games := games w; db := db w;
       trace := trace w ++ [EvLog l] |}.
Proof.
  intros ((evs & Htr & Hres & Hsw) & Hlo & Hdb) Hl. split; [|done].
  assert (Hquiet : results [EvLog l] = []).
  { change (results [EvLog l])
      with (match result_of (EvLog l) with Some y => [y] | None => [] end).
    by rewrite Hl. }
  exists (evs ++ [EvLog l]). cbn [trace].
  rewrite Htr, results_app, store_writes_app, Hres, Hquiet, (assoc_L (++)), app_nil_r.
  repeat split. change (store_writes [EvLog l]) with 0%nat. lia.
Qed.

Lemma triple_write gs vars :
  triple (in_loops w0 (sampled_titles gs)
            (clock w0 + DELAY_BETWEEN_REQUESTS * requestCount vars))
    (match priceRecords vars with
     | _ :: _ =>
         log (LogInserting (length (priceRecords vars)));;
         batchInsertPrices (priceRecords vars);;
         log (LogStored (length (priceRecords vars)))
     | [] => log LogNothingToInsert
     end)
    (λ _, written gs vars) (unwritten w0).
Proof.
  assert (Hstart : ∀ w,
    in_loops w0 (sampled_titles gs)
      (clock w0 + DELAY_BETWEEN_REQUESTS * requestCount vars) w →
    (∃ evs, trace w = trace w0 ++ evs ∧ results evs = sampled_titles gs ∧
            (store_writes evs ≤ 1)%nat) ∧
    clock w0 + DELAY_BETWEEN_REQUESTS * requestCount vars ≤ clock w).
  { intros w ((evs & Htr & Hres & Hsw) & [Hlo _] & _). split; [|done].
    exists evs. repeat split; try done. lia. }
  assert (Hcases : ∀ recs, priceRecords vars = recs →
    triple (in_loops w0 (sampled_titles gs)
              (clock w0 + DELAY_BETWEEN_REQUESTS * requestCount vars))
      (match recs with
       | _ :: _ =>
           log (LogInserting (length (priceRecords vars)));;
           batchInsertPrices (priceRecords vars);;
           log (LogStored (length (priceRecords vars)))
       | [] => log LogNothingToInsert
       end)
      (λ _, written gs vars) (unwritten w0)); [|by apply Hcases].
  intros [|p ps] Hrecs.
  - intros w Hw. simpl. apply written_log; [|done].
    destruct (Hstart w Hw) as [Hevs Hlo]. split; [done|]. split; [done|].
    left. split; [done|]. by destruct Hw as (_ & _ & Hdb & _).
  - eapply triple_bind; [by apply triple_log_quiet|]. intros ?.
    eapply triple_bind with (R := λ _, written gs vars).
    + intros w ((evs & Htr & Hres & Hsw) & [Hlo Hmono] & Hdb & Hup).
      rewrite batchInsertPrices_run by (by rewrite Hrecs).
      destruct (db_available w); [|by split].
      destruct (mapM to_values (priceRecords vars)) as [vs|] eqn:Hvs; [|by split].
      simpl. split; [|split; [done|]].
      * exists (evs ++ [EvQuery (InsertMarketPrices (length (priceRecords vars)));
                        EvLog LogQueryExecuted;
                        EvLog (LogBatchInserted (length (priceRecords vars)))]).
        rewrite Htr, results_app, store_writes_app, Hres, Hsw, (assoc_L (++)).
        simpl. rewrite app_nil_r. repeat split.
        change (store_writes [_; _; _]) with 1%nat. lia.
      * right. exists vs. by rewrite Hdb.
    + intros ? w Hw. simpl. by apply written_log.
Qed.

Lemma run_tail gs vars startTime :
  gs ≠ [] → startTime = clock w0 →
  triple (λ w, in_loops w0 (sampled_titles gs)
                 (clock w0 + DELAY_BETWEEN_REQUESTS * requestCount vars) w ∧
               booked (clock w0) (sampled_titles gs) vars)
    ((match priceRecords vars with
      | _ :: _ =>
          log (LogInserting (length (priceRecords vars)));;
          batchInsertPrices (priceRecords vars);;
          log (LogStored (length (priceRecords vars)))
      | [] => log LogNothingToInsert
      end);;
     finished ← now;
     log (LogSummary (finished - startTime) (length gs)
            (requestCount vars) (successCount vars) (failureCount vars)
            (length (priceRecords vars))))
    (λ _ w', run_account w0 gs w') (unwritten w0).
Proof.
  intros Hgs ->. apply triple_pure_pre. intros Hb.
  eapply triple_bind; [apply triple_write|]. intros ?.
  intros w ((evs & Htr & Hres & Hsw) & Hlo & Hdb). simpl.
  exists vars, (evs ++ [EvLog (LogSummary (clock w - clock w0) (length gs)
                                   (requestCount vars) (successCount vars)
                                   (failureCount vars)
                                   (length (priceRecords vars)))]).
  rewrite Htr, results_app, store_writes_app, Hres, (assoc_L (++)).
  simpl. rewrite app_nil_r. repeat split; try done.
  - change (store_writes [EvLog _]) with 0%nat. lia.
  - by destruct Hb as [[? ?] ?].
  - by destruct Hb as [[? ?] ?].
  - by destruct Hb as [[? ?] ?].
  - destruct gs; [done|]. by rewrite last_app.
Qed.

Lemma triple_collectPrices_account :
  triple (λ w, w = w0) collectPrices
         (λ _ w', db_available w0 = true ∧ run_account w0 found w')
         (unwritten w0).
Proof.
  unfold collectPrices.
  eapply triple_bind with (R := λ startTime w, w = w0 ∧ startTime = clock w0).
  { by intros w ->. }
  intros startTime. apply triple_pure_pre. intros ->.
  eapply triple_bind with (R := λ _ w, w = with_events w0 [EvLog LogStarting]).
  { by intros w ->. }
  intros ?. eapply triple_try_catch with (Qa' := unwritten w0); [| |done].
  2: { intros e. eapply triple_bind with (R := λ _, unwritten w0);
         [by intros w Hw|]. intros ?. by intros w Hw. }
  eapply triple_bind with
    (R := λ gs w, w = with_events w0 [EvLog LogStarting; EvQuery SelectActiveGames;
                                       EvLog LogQueryExecuted] ∧
                  (gs = found ∧ db_available w0 = true)).
  { intros w ->. destruct (db_available w0) eqn:Hup.
    - rewrite getActiveGames_run by done. simpl. split; [|done].
      unfold with_events. simpl. by rewrite <- app_assoc, Hup.
    - unfold getActiveGames. unfold_run. simpl. rewrite Hup. by split. }
  intros gs. apply triple_pure_pre. intros [-> Hup].
  eapply triple_bind with
    (R := λ _ w, w = with_events w0 [EvLog LogStarting; EvQuery SelectActiveGames;
                                      EvLog LogQueryExecuted;
                                      EvLog (LogFound (length found))]).
  { intros w ->. unfold with_events. simpl. by rewrite <- app_assoc. }
  intros ?. destruct found as [|g gs] eqn:Hfound.
  - intros w ->. simpl. split; [done|].
    exists vars0, [EvLog LogStarting; EvQuery SelectActiveGames; EvLog LogQueryExecuted;
                   EvLog (LogFound 0); EvLog LogNoActiveGames].
    simpl. repeat split; try done.
    + by rewrite <- app_assoc.
    + change (store_writes [_; _; _; _; _]) with 0%nat. lia.
    + lia.
    + by left.
  - eapply triple_bind with
      (R := λ timestamp w,
              w = with_events w0 [EvLog LogStarting; EvQuery SelectActiveGames;
                                  EvLog LogQueryExecuted;
                                  EvLog (LogFound (length (g :: gs)))] ∧
              timestamp = clock w0).
    { by intros w ->. }
    intros timestamp. apply triple_pure_pre. intros ->.
    eapply triple_bind.
    { eapply triple_consequence;
        [apply (triple_games_in_run w0 (clock w0) (clock w0) (g :: gs) [] vars0)
        | |by intros vars w Hw; exact Hw|done].
      intros w ->. split; [|by split].
      split; [|simpl; split; [lia|done]].
      eexists. split; [reflexivity|]. done. }
    intros vars. eapply triple_consequence; [by apply run_tail| |done|done].
    intros w Hw. exact Hw.
Qed.

Lemma collectPrices_account :
  match (collectPrices w0).1 with
  | Ret _ => db_available w0 = true ∧ run_account w0 found (collectPrices w0).2
  | _ => unwritten w0 (collectPrices w0).2
  end.
Proof. by apply triple_collectPrices_account. Qed.

End whole_run.

(** ** What a run asks and what it pushes *)

Lemma triple_exists_pre {A X : Type} (P : X → world → Prop) (m : M A) Qn Qa :
  (∀ x, triple (P x) m Qn Qa) → triple (λ w, ∃ x, P x w) m Qn Qa.
Proof. intros Hm w [x Hw]. by apply (Hm x). Qed.

Section sampling.
Variable w0 : world.
Implicit Types (w : world) (sts : list step) (acc : list sample).

#[local] Abbreviation anywhere := (λ _ : world, True).

Lemma steps_app tr evs : steps (tr ++ evs) = steps tr ++ steps evs.
Proof. apply omap_app. Qed.

Lemma stepped_event sts w e :
  stepped w0 sts w → is_store_write e = false →
  stepped w0 (sts ++ option_list (step_of e))
    {| clock := clock w; replies := replies w; lateness := lateness w;
       db_available := db_available w; games := games w; db := db w;
       trace := trace w ++ [e] |}.
Proof.
  intros [(evs & Htr & Hsts) Hdb] _. split; [|done].
  exists (evs ++ [e]). simpl. rewrite Htr, steps_app, Hsts, (assoc_L (++)). done.
Qed.

Lemma triple_log_stepped l sts Qa :
  triple (stepped w0 sts) (log l)
         (λ _, stepped w0 (sts ++ option_list (step_of (EvLog l)))) Qa.
Proof. intros w Hw. simpl. by apply stepped_event. Qed.

Lemma triple_log_unstepped l sts Qa :
  step_of (EvLog l) = None →
  triple (stepped w0 sts) (log l) (λ _, stepped w0 sts) Qa.
Proof.
  intros Hl w Hw. pose proof (triple_log_stepped l sts Qa w Hw) as Hw'.
  simpl in *. by rewrite Hl, app_nil_r in Hw'.
Qed.

Lemma triple_sleep_stepped ms sts Qa :
  triple (stepped w0 sts) (sleep ms) (λ _, stepped w0 sts) Qa.
Proof.
  intros w Hw. unfold sleep. unfold_fetch. simpl.
  pose proof (stepped_event sts w (EvSleep (clock w) ms) Hw eq_refl) as Hw'.
  simpl in Hw'. rewrite app_nil_r in Hw'. by destruct Hw' as [? ?].
Qed.

(** A call of [fetchTokenPrice] that returns has requested the URL of its
    token, once more after every rate-limit warning, and has done nothing
    else that shows. *)
Lemma fetchTokenPrice_rec_attempts fuel tokenId : ∀ w a,
  (fetchTokenPrice_rec fuel tokenId w).1 = Ret a →
  ∃ k evs,
    trace (fetchTokenPrice_rec fuel tokenId w).2 = trace w ++ evs ∧
    steps evs = attempts (price_url tokenId) k ∧
    db (fetchTokenPrice_rec fuel tokenId w).2 = db w.
Proof.
  induction fuel as [|fuel IH]; intros w a; [done|].
  simpl. unfold_fetch. simpl.
  destruct (replies w) as [|[lat|lat st b] rest] eqn:Hr; simpl; [done| |].
  { intros _. exists 0%nat. eexists. rewrite <- !app_assoc. by split. }
  unfold ok; simpl.
  destruct (bool_decide (200 ≤ st ≤ 299)); simpl.
  - intros _. exists 0%nat.
    destruct b as [| |p m]; simpl.
    1,2: eexists; rewrite <- !app_assoc; by split.
    destruct (or_field p m); simpl.
    all: eexists; rewrite <- ?app_assoc; by split.
  - destruct (bool_decide (st = 429)); simpl.
    2: { intros _. exists 0%nat. eexists. rewrite <- !app_assoc. by split. }
    match goal with
    | |- context [fetchTokenPrice_rec fuel tokenId ?w1] =>
        pose proof (IH w1) as IHw;
        pose proof (fetchTokenPrice_rec_no_throw fuel tokenId w1) as Hno;
        destruct (fetchTokenPrice_rec fuel tokenId w1) as [[r|e|] w2]
    end; simpl in *; [|by destruct (Hno e)|done].
    intros _. destruct (IHw r eq_refl) as (k & evs & Htr & Hsteps & Hdb).
    exists (S k). eexists. rewrite Htr, <- !app_assoc. split; [done|].
    split; [|done]. rewrite !steps_app, Hsteps. done.
Qed.

Lemma triple_fetchTokenPrice_stepped tokenId sts :
  triple (stepped w0 sts) (fetchTokenPrice tokenId)
         (λ _ w, ∃ k, stepped w0 (sts ++ attempts (price_url tokenId) k) w)
         anywhere.
Proof.
  intros w [(evs0 & Htr0 & Hsts) Hdb0]. unfold fetchTokenPrice.
  pose proof (fetchTokenPrice_rec_attempts (S (length (replies w))) tokenId w) as Hrec.
  destruct (fetchTokenPrice_rec _ _ w) as [[a|e|] w1]; simpl in *; [|done|done].
  destruct (Hrec a eq_refl) as (k & evs & Htr & Hsteps & Hdb).
  exists k. split; [|congruence].
  exists (evs0 ++ evs). by rewrite Htr, Htr0, steps_app, Hsts, Hsteps, (assoc_L (++)).
Qed.

Variable ts : Z.

(** In the loops: the outcomes [acc] have been sampled, and [vars] holds
    the records pushed for them. *)
#[local] Abbreviation sampling acc vars :=
  (λ w : world,
     ∃ qs, stepped w0 (mjoin (zip_with steps_of_sample acc qs)) w ∧
           (length qs = length acc ∧
            priceRecords vars
            = omap (λ sq, record_of_sample ts sq.1 sq.2) (zip acc qs))).

Lemma steps_snoc acc qs s q :
  length qs = length acc →
  mjoin (zip_with steps_of_sample (acc ++ [s]) (qs ++ [q]))
  = mjoin (zip_with steps_of_sample acc qs) ++ steps_of_sample s q.
Proof.
  intros Hlen. rewrite zip_with_app by done. rewrite join_app. simpl.
  by rewrite app_nil_r.
Qed.

Lemma records_snoc acc qs s q :
  length qs = length acc →
  omap (λ sq, record_of_sample ts sq.1 sq.2) (zip (acc ++ [s]) (qs ++ [q]))
  = omap (λ sq, record_of_sample ts sq.1 sq.2) (zip acc qs)
    ++ option_list (record_of_sample ts s q).
Proof.
  intros Hlen. rewrite zip_with_app by done. rewrite omap_app. simpl.
  by destruct (record_of_sample ts s q).
Qed.

Lemma triple_skip_sampling l acc vars :
  step_of (EvLog l) = None →
  triple (sampling acc vars) (log l;; mret vars)
         (λ vars', sampling (acc ++ []) vars') anywhere.
Proof.
  intros Hl. rewrite app_nil_r. apply triple_exists_pre. intros qs.
  apply triple_pure_pre. intros Hqs.
  eapply triple_bind; [by apply triple_log_unstepped|]. intros ?.
  apply triple_ret. intros w Hw. by exists qs.
Qed.

Lemma triple_collect_outcome_sampling m o acc vars :
  triple (sampling acc vars) (collect_outcome ts m o vars)
         (λ vars', sampling (acc ++ samples_of_outcome m o) vars') anywhere.
Proof.
  unfold collect_outcome, samples_of_outcome.
  destruct (tokenID o) as [tokenId|]; [|by apply triple_skip_sampling].
  case_bool_decide; [by apply triple_skip_sampling|].
  apply triple_exists_pre. intros qs. apply triple_pure_pre. intros [Hlen Hrecs].
  set (sts := mjoin (zip_with steps_of_sample acc qs)).
  set (s := Sample m o tokenId).
  eapply triple_bind with (R := λ _, stepped w0 sts).
  { destruct (_ && _).
    - eapply triple_bind; [by apply triple_log_unstepped|]. intros ?.
      apply triple_sleep_stepped.
    - by apply triple_ret. }
  intros ?. eapply triple_bind; [apply triple_fetchTokenPrice_stepped|].
  intros price. apply triple_exists_pre. intros k.
  eapply triple_bind with
    (R := λ vars' w,
            stepped w0 (sts ++ steps_of_sample s (Quote k price)) w ∧
            priceRecords vars'
            = priceRecords vars ++ option_list (record_of_sample ts s (Quote k price))).
  { destruct price as [p|].
    - eapply triple_bind; [apply triple_log_stepped|]. intros ?.
      apply triple_ret. intros w Hw. cbn [step_of option_list] in Hw.
      rewrite <- (assoc_L (++)) in Hw. by split.
    - eapply triple_bind; [apply triple_log_stepped|]. intros ?.
      apply triple_ret. intros w Hw. cbn [step_of option_list] in Hw.
      rewrite <- (assoc_L (++)) in Hw. split; [exact Hw|]. simpl.
      by rewrite app_nil_r. }
  intros vars'. apply triple_pure_pre. intros Hrecs'.
  eapply triple_bind; [apply triple_sleep_stepped|]. intros ?.
  apply triple_ret. intros w Hw. exists (qs ++ [Quote k price]).
  rewrite steps_snoc, records_snoc by done. rewrite length_app, length_app. simpl.
  split; [done|]. split; [lia|]. by rewrite Hrecs', Hrecs.
Qed.

Lemma triple_collect_market_sampling m acc vars :
  triple (sampling acc vars) (collect_market ts m vars)
         (λ vars', sampling (acc ++ samples_of_market m) vars') anywhere.
Proof.
  assert (Hloop : ∀ os,
    triple (sampling acc vars) (for_of os (collect_outcome ts m) vars)
           (λ vars', sampling (acc ++ os ≫= samples_of_outcome m) vars') anywhere).
  { intros os.
    apply (triple_for_of_acc (samples_of_outcome m) (λ acc vars, sampling acc vars)).
    intros acc' o' vars' _. apply triple_collect_outcome_sampling. }
  unfold collect_market, samples_of_market.
  destruct (outcomes m) as [[|o os]|].
  - by apply triple_skip_sampling.
  - exact (Hloop (o :: os)).
  - by apply triple_skip_sampling.
Qed.

Lemma triple_collect_game_sampling g acc vars :
  triple (sampling acc vars) (collect_game ts g vars)
         (λ vars', sampling (acc ++ samples_of_game g) vars') anywhere.
Proof.
  unfold collect_game, samples_of_game.
  eapply triple_bind with (R := λ _, sampling acc vars).
  { apply triple_exists_pre. intros qs. apply triple_pure_pre. intros Hqs.
    eapply triple_consequence;
      [by apply (triple_log_unstepped (LogGame (game_title g) (id g))
                   (mjoin (zip_with steps_of_sample acc qs)) anywhere)|done| |done].
    intros ? w Hw. by exists qs. }
  intros ?.
  apply (triple_for_of_acc samples_of_market (λ acc vars, sampling acc vars)).
  intros acc' m' vars' _. apply triple_collect_market_sampling.
Qed.

Lemma triple_games_sampling gs acc vars :
  triple (sampling acc vars) (for_of gs (collect_game ts) vars)
         (λ vars', sampling (acc ++ samples gs) vars') anywhere.
Proof.
  apply (triple_for_of_acc samples_of_game (λ acc vars, sampling acc vars)).
  intros acc' g' vars' _. apply triple_collect_game_sampling.
Qed.

End sampling.

Section sampled_run.
Variable w0 : world.

#[local] Abbreviation found := (to_game <$> select_active_games (clock w0) (games w0)).
#[local] Abbreviation vars0 :=
  {| priceRecords := []; requestCount := 0; successCount := 0; failureCount := 0 |}.
#[local] Abbreviation anywhere := (λ _ : world, True).

(** The state after the batch [recs] has been written, or not. *)
#[local] Abbreviation settled_batch :=
  (λ (sts : list step) (recs : list price_record) (w : world),
     (∃ evs, trace w = trace w0 ++ evs ∧ steps evs = sts) ∧
     ((recs = [] ∧ db w = db w0) ∨
      (∃ vs, mapM to_values recs = Some vs ∧
             db w = insert_rows (clock w) vs (db w0)))).

Lemma settled_batch_log sts recs l w :
  settled_batch sts recs w → step_of (EvLog l) = None →
  settled_batch sts recs
    {| clock := clock w; replies := replies w; lateness := lateness w;
       db_available := db_available w; games := games w; db := db w;
       trace := trace w ++ [EvLog l] |}.
Proof.
  intros [(evs & Htr & Hsts) Hdb] Hl. split; [|done].
  exists (evs ++ [EvLog l]). cbn [trace].
  rewrite Htr, steps_app, Hsts, (assoc_L (++)). split; [done|].
  change (steps [EvLog l]) with (option_list (step_of (EvLog l))).
  by rewrite Hl, app_nil_r.
Qed.

Lemma triple_write_sampled sts vars :
  triple (stepped w0 sts)
    (match priceRecords vars with
     | _ :: _ =>
         log (LogInserting (length (priceRecords vars)));;
         batchInsertPrices (priceRecords vars);;
         log (LogStored (length (priceRecords vars)))
     | [] => log LogNothingToInsert
     end)
    (λ _, settled_batch sts (priceRecords vars)) anywhere.
Proof.
  assert (Hcases : ∀ recs, priceRecords vars = recs →
    triple (stepped w0 sts)
      (match recs with
       | _ :: _ =>
           log (LogInserting (length (priceRecords vars)));;
           batchInsertPrices (priceRecords vars);;
           log (LogStored (length (priceRecords vars)))
       | [] => log LogNothingToInsert
       end)
      (λ _, settled_batch sts (priceRecords vars)) anywhere); [|by apply Hcases].
  intros [|p ps] Hrecs.
  - intros w [Hevs Hdb]. simpl. apply settled_batch_log; [|done].
    split; [done|]. by left.
  - eapply triple_bind; [by apply triple_log_unstepped|]. intros ?.
    eapply triple_bind with (R := λ _, settled_batch sts (priceRecords vars)).
    + intros w [(evs & Htr & Hsts) Hdb].
      rewrite batchInsertPrices_run by (by rewrite Hrecs).
      destruct (db_available w); [|done].
      destruct (mapM to_values (priceRecords vars)) as [vs|] eqn:Hvs; [|done].
      simpl. split.
      * exists (evs ++ [EvQuery (InsertMarketPrices (length (priceRecords vars)));
                        EvLog LogQueryExecuted;
                        EvLog (LogBatchInserted (length (priceRecords vars)))]).
        rewrite Htr, steps_app, Hsts, (assoc_L (++)). simpl.
        by rewrite app_nil_r.
      * right. exists vs. by rewrite Hdb.
    + intros ? w Hw. simpl. by apply settled_batch_log.
Qed.

Lemma triple_collectPrices_sampling :
  triple (λ w, w = w0) collectPrices
         (λ _ w', sampling_account w0 found w') anywhere.
Proof.
  unfold collectPrices.
  eapply triple_bind with (R := λ startTime w, w = w0 ∧ startTime = clock w0).
  { by intros w ->. }
  intros startTime. apply triple_pure_pre. intros ->.
  eapply triple_bind with (R := λ _ w, w = with_events w0 [EvLog LogStarting]).
  { by intros w ->. }
  intros ?. eapply triple_try_catch with (Qa' := anywhere); [| |done].
  2: { intros e. eapply triple_bind with (R := λ _, anywhere);
         [by intros w Hw; destruct (log _ w).1|]. intros ?. by intros w Hw. }
  eapply triple_bind with
    (R := λ gs w, w = with_events w0 [EvLog LogStarting; EvQuery SelectActiveGames;
                                       EvLog LogQueryExecuted] ∧
                  gs = found).
  { intros w ->. destruct (db_available w0) eqn:Hup.
    - rewrite getActiveGames_run by done. simpl. split; [|done].
      unfold with_events. simpl. by rewrite <- app_assoc, Hup.
    - unfold getActiveGames. unfold_run. simpl. by rewrite Hup. }
  intros gs. apply triple_pure_pre. intros ->.
  eapply triple_bind with
    (R := λ _ w, w = with_events w0 [EvLog LogStarting; EvQuery SelectActiveGames;
                                      EvLog LogQueryExecuted;
                                      EvLog (LogFound (length found))]).
  { intros w ->. unfold with_events. simpl. by rewrite <- app_assoc. }
  intros ?. destruct found as [|g gs] eqn:Hfound.
  - intros w ->. simpl.
    exists [EvLog LogStarting; EvQuery SelectActiveGames; EvLog LogQueryExecuted;
            EvLog (LogFound 0); EvLog LogNoActiveGames], [].
    split; [by rewrite <- app_assoc|]. split; [by exists []|]. by left.
  - eapply triple_bind with
      (R := λ timestamp w,
              w = with_events w0 [EvLog LogStarting; EvQuery SelectActiveGames;
                                  EvLog LogQueryExecuted;
                                  EvLog (LogFound (length (g :: gs)))] ∧
              timestamp = clock w0).
    { by intros w ->. }
    intros timestamp. apply triple_pure_pre. intros ->.
    eapply triple_bind.
    { eapply triple_consequence;
        [apply (triple_games_sampling w0 (clock w0) (g :: gs) [] vars0)
        | |by intros vars w Hw; exact Hw|done].
      intros w ->. exists []. split; [|done]. split; [|done].
      eexists. split; [reflexivity|]. done. }
    intros vars. apply triple_exists_pre. intros qs.
    apply triple_pure_pre. intros [Hlen Hrecs].
    eapply triple_bind; [apply triple_write_sampled|]. intros ?.
    intros w [(evs & Htr & Hsts) Hdb]. simpl.
    exists (evs ++ [EvLog (LogSummary (clock w - clock w0) (length (g :: gs))
                             (requestCount vars) (successCount vars)
                             (failureCount vars)
                             (length (priceRecords vars)))]),
           (priceRecords vars).
    split; [by rewrite Htr, (assoc_L (++))|]. split; [|done].
    exists qs. split; [done|]. split; [|done].
    rewrite steps_app, Hsts. simpl. by rewrite app_nil_r.
Qed.

Lemma collectPrices_sampling :
  (collectPrices w0).1 = Ret tt → sampling_account w0 found (collectPrices w0).2.
Proof.
  intros Hret. pose proof (triple_collectPrices_sampling w0 eq_refl) as Hrun.
  by rewrite Hret in Hrun.
Qed.

End sampled_run.

(** ** What a run samples, writes and takes *)

Lemma samples_elem (rows : list games_row) (m : market) (o : outcome)
    (tokenId : string) :
  Sample m o tokenId ∈ samples (to_game <$> rows) ↔
  ∃ row,
    row ∈ rows ∧ m ∈ default [] (g_markets row) ∧
    sportsMarketType m = Some "moneyline" ∧
    o ∈ default [] (outcomes m) ∧
    tokenID o = Some tokenId ∧ tokenId ≠ "".
Proof.
  unfold samples, samples_of_game, samples_of_market, samples_of_outcome.
  split.
  - intros (g & (m' & (o' & Ho & Hm)%list_elem_of_bind & Hg)%list_elem_of_bind
              & (row & -> & Hrow)%list_elem_of_fmap)%list_elem_of_bind.
    simpl in Hg. apply list_elem_of_filter in Hg as [Hmoney Hg].
    destruct (tokenID o') as [tokenId'|] eqn:Htok; [|by apply elem_of_nil in Ho].
    case_bool_decide; [by apply elem_of_nil in Ho|].
    apply list_elem_of_singleton in Ho. injection Ho as -> -> ->.
    by exists row.
  - intros (row & Hrow & Hm & Hmoney & Ho & Htok & Hne).
    apply list_elem_of_bind. exists (to_game row). split; [|by apply list_elem_of_fmap_2].
    apply list_elem_of_bind. exists m. split.
    + apply list_elem_of_bind. exists o. split; [|done].
      rewrite Htok. rewrite bool_decide_eq_false_2 by done. by left.
    + simpl. by apply list_elem_of_filter.
Qed.

Lemma fmap_bind_pointwise {A B C : Type} (f : B → C) (g : A → list B)
    (h : A → list C) (l : list A) :
  (∀ x, f <$> g x = h x) → f <$> (l ≫= g) = l ≫= h.
Proof.
  intros Hgh. induction l as [|x l IH]; [done|].
  rewrite !bind_cons, fmap_app, Hgh, IH. done.
Qed.

(** The titles the results of a run are checked against are those of the
    outcomes sampled. *)
Lemma sampled_titles_samples (gs : list game) :
  sampled_titles gs = (λ s, title (of_outcome s)) <$> samples gs.
Proof.
  symmetry. apply fmap_bind_pointwise. intros g.
  apply fmap_bind_pointwise. intros m.
  apply fmap_bind_pointwise. intros o.
  unfold samples_of_outcome, titles_of_outcome, has_token.
  destruct (tokenID o) as [tokenId|]; [|done]. by case_bool_decide.
Qed.

(** X11.  A run that returns has asked a price for every outcome it was
    meant to sample, by the token of that outcome, each in its turn.  The
    outcomes sampled are those of the games that [getActiveGames] returned
    which belong to a moneyline market and have a token id that is not
    empty, each as often as the catalog lists it.  Of the quote requests,
    rate-limit warnings and result lines of the run, taken in order, each
    sampled outcome has its own stretch: the URL of its token requested
    once, and once more after every rate-limit warning, then one success
    or failure line with its title; there is no other request, warning or
    result line.  The number of calls of [fetchTokenPrice], and the
    request count of the summary, is the number of outcomes sampled. *)
Theorem collectPrices_samples_each_outcome (w : world) :
  (collectPrices w).1 = Ret tt →
  let rows := select_active_games (clock w) (games w) in
  let run := events_since w (collectPrices w).2 in
  (getActiveGames w).1 = Ret (to_game <$> rows) ∧
  (∀ m o tokenId,
     Sample m o tokenId ∈ samples (to_game <$> rows) ↔
     ∃ row,
       row ∈ rows ∧ m ∈ default [] (g_markets row) ∧
       sportsMarketType m = Some "moneyline" ∧
       o ∈ default [] (outcomes m) ∧
       tokenID o = Some tokenId ∧ tokenId ≠ "") ∧
  (∃ qs : list quote,
     length qs = length (samples (to_game <$> rows)) ∧
     steps run = mjoin (zip_with steps_of_sample (samples (to_game <$> rows)) qs)) ∧
  calls run = length (samples (to_game <$> rows)) ∧
  (rows ≠ [] →
   ∃ d sc fl n,
     last run = Some (EvLog (LogSummary d (length rows)
                               (Z.of_nat (length (samples (to_game <$> rows))))
                               sc fl n))).
Proof.
  intros Hret rows run.
  pose proof (collectPrices_account w) as Hacc. rewrite Hret in Hacc.
  destruct Hacc as
    (Hup & vars & evs & Htr & Hres & Hsw & [[Hrc Hsc] Hrecs] & Hclock & Hlast & Hdb).
  destruct (collectPrices_sampling w Hret)
    as (evs' & recs & Htr' & (qs & Hlen & Hsteps & _) & _).
  assert (Hrun : run = evs) by by apply events_since_app.
  assert (Hrun' : run = evs') by by apply events_since_app.
  assert (Hcount : length (sampled_titles (to_game <$> rows))
                   = length (samples (to_game <$> rows))).
  { by rewrite sampled_titles_samples, length_fmap. }
  split; [by apply getActiveGames_result|].
  split; [intros m o tokenId; apply samples_elem|].
  split; [exists qs; by rewrite Hrun'|].
  rewrite Hrun.
  split; [by rewrite <- results_length, Hres|].
  intros Hrows. fold rows in Hlast, Hrc. rewrite <- Hcount.
  destruct (to_game <$> rows) as [|g gs] eqn:Hgs.
  { by apply fmap_nil_inv in Hgs. }
  rewrite Hlast, Hrc. rewrite <- Hgs, length_fmap. eauto.
Qed.

Lemma collectPrices_samples_each_outcome_witness :
  let w := Examples.limited_once in
  let rows := select_active_games (clock w) (games w) in
  let run := events_since w (collectPrices w).2 in
  (collectPrices w).1 = Ret tt ∧
  steps run = [Asked (price_url "111"); RateLimited; Asked (price_url "111");
               Succeeded (Some "A") (parseFloat "0.65")] ∧
  ∃ qs : list quote,
    length qs = length (samples (to_game <$> rows)) ∧
    steps run = mjoin (zip_with steps_of_sample (samples (to_game <$> rows)) qs).
Proof.
  intros w rows run. split; [by vm_compute|]. split; [by vm_compute|].
  destruct (collectPrices_samples_each_outcome Examples.limited_once)
    as (_ & _ & Hqs & _); [by vm_compute|exact Hqs].
Defined.

Lemma insert_rows_new now vs : ∀ st k row,
  market_prices (insert_rows now vs st) !! k = Some row →
  market_prices st !! k = Some row ∨
  ∃ v i, v ∈ vs ∧ k = values_key v ∧ row = new_row now i v.
Proof.
  induction vs as [|v vs IH]; intros st k row Hrow; [by left|].
  simpl in Hrow. destruct (IH _ _ _ Hrow) as [Hold|(v' & i & Hv' & -> & ->)].
  - destruct (market_prices st !! values_key v) as [r0|] eqn:Hk.
    + rewrite (insert_row_taken _ _ _ _ Hk) in Hold. by left.
    + rewrite (insert_row_free _ _ _ Hk) in Hold. simpl in Hold.
      apply lookup_insert_Some in Hold as [[<- <-]|[_ Hold]]; [|by left].
      right. exists v, (market_prices_id_seq st). split; [by left|done].
  - right. exists v', i. split; [by right|done].
Qed.

(** X12.  A run writes at the end, once, or not at all.  When
    [collectPrices] throws or stays pending, the store is as it was before
    the run.  When it returns, it has issued at most one INSERT statement,
    and the store is the old one or the old one after that one
    statement. *)
Theorem collectPrices_writes_at_most_once (w : world) :
  match (collectPrices w).1 with
  | Ret _ =>
      (store_writes (events_since w (collectPrices w).2) ≤ 1)%nat ∧
      (db (collectPrices w).2 = db w ∨
       ∃ vs, db (collectPrices w).2
             = insert_rows (clock (collectPrices w).2) vs (db w))
  | _ => db (collectPrices w).2 = db w
  end.
Proof.
  pose proof (collectPrices_account w) as Hacc.
  destruct (collectPrices w).1; [|by destruct Hacc|by destruct Hacc].
  destruct Hacc as (Hup & vars & evs & Htr & Hres & Hsw & _ & _ & _ & Hdb).
  rewrite (events_since_app _ _ _ Htr). split; [done|].
  destruct Hdb as [[_ Hdb]|(vs & _ & Hdb)]; [by left|right; by exists vs].
Qed.

(** X13.  Every row a run adds to the observation table is the row of an
    outcome the run sampled: its key is the condition id of the market,
    the token of the outcome and the one timestamp of the run, taken once
    before the loops (the clock at which the run began: the enumeration
    query takes no time here); its outcome label is the title of the
    outcome, NULL when the catalog entry has none; its source is "rest"
    and its [created_at] the insertion time of the batch. *)
Theorem collectPrices_rows_carry_run_timestamp (w : world)
    (k : string * string * Z) (row : market_prices_row) :
  market_prices (db (collectPrices w).2) !! k = Some row →
  market_prices (db w) !! k = None →
  ∃ s,
    s ∈ samples (to_game <$> select_active_games (clock w) (games w)) ∧
    k = (conditionId (of_market s), token s, clock w) ∧
    condition_id row = conditionId (of_market s) ∧
    token_id row = token s ∧
    Store.outcome row = title (of_outcome s) ∧
    timestamp row = clock w ∧
    source row = Some "rest" ∧
    created_at row = Some (clock (collectPrices w).2).
Proof.
  intros Hrow Hnew.
  pose proof (collectPrices_account w) as Hacc.
  destruct (collectPrices w).1 as [[]| |] eqn:Hret;
    [|destruct Hacc; congruence|destruct Hacc; congruence].
  clear Hacc.
  destruct (collectPrices_sampling w Hret)
    as (evs & recs & _ & (qs & Hlen & _ & Hrecs) & Hdb).
  destruct Hdb as [[_ Hdb]|(vs & Hvs & Hdb)]; [congruence|].
  rewrite Hdb in Hrow.
  apply insert_rows_new in Hrow as [Hold|(v & i & Hv & -> & ->)]; [congruence|].
  apply mapM_Some_1 in Hvs.
  apply list_elem_of_lookup in Hv as [j Hj].
  destruct (Forall2_lookup_r _ _ _ _ _ Hvs Hj) as (p & Hp & Hpv).
  assert (Hin : p ∈ recs) by (by eapply list_elem_of_lookup_2).
  rewrite Hrecs in Hin.
  apply list_elem_of_omap in Hin as ([s q] & Hsq & Hrec).
  apply elem_of_zip_l in Hsq.
  unfold record_of_sample in Hrec. simpl in Hrec.
  destruct (quoted q) as [x|]; [|done]. injection Hrec as <-.
  destruct (to_values_fields _ _ Hpv) as (Hc & Ht & Ho & _ & Hts & Hsrc).
  simpl in *. exists s. unfold values_key. rewrite Hc, Ht, Ho, Hts, Hsrc. done.
Qed.

Lemma collectPrices_rows_carry_run_timestamp_witness :
  ∃ row s,
    market_prices (db (collectPrices Samples.unlabelled).2)
      !! ("0xabc", "111", 5000) = Some row ∧
    s ∈ samples (to_game <$> select_active_games (clock Samples.unlabelled)
                               (games Samples.unlabelled)) ∧
    token s = "111" ∧
    title (of_outcome s) = None ∧
    Store.outcome row = None ∧
    timestamp row = 5000 ∧
    source row = Some "rest" ∧
    created_at row = Some (clock (collectPrices Samples.unlabelled).2).
Proof.
  eexists.
  destruct (collectPrices_rows_carry_run_timestamp Samples.unlabelled
              ("0xabc", "111", 5000)
              (MarketPrice 1 "0xabc" "111" None (Num 50000000) 5000 (Some "rest")
                 (Some 5747)))
    as (s & Hs & Hk & _ & Htok & Ho & Hts & Hsrc & Hcr).
  - by vm_compute.
  - by vm_compute.
  - exists s. split; [by vm_compute|]. split; [exact Hs|].
    injection Hk as _ Htoken. split; [done|].
    split; [by rewrite <- Ho|]. repeat split; by vm_compute.
Defined.

(** X14.  A run takes at least [DELAY_BETWEEN_REQUESTS] for each outcome
    it samples: when it returns, the clock has advanced by 667 ms times
    the number of calls of [fetchTokenPrice], which is the number of
    outcomes sampled, or more. *)
Theorem collectPrices_duration (w : world) :
  (collectPrices w).1 = Ret tt →
  let run := events_since w (collectPrices w).2 in
  let asked := samples (to_game <$> select_active_games (clock w) (games w)) in
  calls run = length asked ∧
  clock w + 667 * Z.of_nat (length asked) ≤ clock (collectPrices w).2.
Proof.
  intros Hret run asked.
  pose proof (collectPrices_account w) as Hacc. rewrite Hret in Hacc.
  destruct Hacc as (Hup & vars & evs & Htr & Hres & Hsw & [[Hrc _] _] & Hclock & _).
  assert (Hrun : run = evs) by by apply events_since_app.
  assert (Hcalls : calls run = length asked).
  { rewrite Hrun, <- results_length, Hres, sampled_titles_samples.
    by rewrite length_fmap. }
  split; [done|].
  change DELAY_BETWEEN_REQUESTS with 667 in Hclock.
  rewrite sampled_titles_samples, length_fmap in Hrc. fold asked in Hrc. lia.
Qed.

Lemma collectPrices_duration_witness :
  (collectPrices Examples.two_games).1 = Ret tt ∧
  calls (events_since Examples.two_games (collectPrices Examples.two_games).2) = 3%nat ∧
  clock Examples.two_games + 667 * 3 ≤ clock (collectPrices Examples.two_games).2.
Proof.
  split; [by vm_compute|].
  destruct (collectPrices_duration Examples.two_games) as [Hcalls Hclock];
    [by vm_compute|].
  split; [by rewrite Hcalls|exact Hclock].
Defined.

Lemma insert_rows_size now vs : ∀ st,
  (size (market_prices st) ≤ size (market_prices (insert_rows now vs st))
   ≤ size (market_prices st) + length vs)%nat.
Proof.
  induction vs as [|v vs IH]; intros st; simpl; [lia|].
  specialize (IH (insert_row now v st)).
  destruct (market_prices st !! values_key v) as [r0|] eqn:Hk.
  - rewrite (insert_row_taken _ _ _ _ Hk) in IH |- *. simpl in *. lia.
  - rewrite (insert_row_free _ _ _ Hk) in IH |- *. simpl in *.
    rewrite map_size_insert_None in IH by done. lia.
Qed.

(** X15.  What the summary counts.  In the summary line of a run that
    returns, "Successful" and "Failed" are the numbers of success and
    failure lines of the run, "API requests" is their sum, and "Prices
    stored" equals "Successful": it is the size of the batch that was
    sent.  The number of rows the batch added to the observation table is
    never larger, and is smaller when a tuple met a key that was taken,
    which the run does not notice. *)
Theorem collectPrices_summary_counts (w : world) (d : Z) (g : nat)
    (rq sc fl : Z) (n : nat) :
  (collectPrices w).1 = Ret tt →
  last (events_since w (collectPrices w).2) = Some (EvLog (LogSummary d g rq sc fl n)) →
  sc = Z.of_nat (successes (events_since w (collectPrices w).2)) ∧
  fl = Z.of_nat (failures (events_since w (collectPrices w).2)) ∧
  rq = sc + fl ∧
  Z.of_nat n = sc ∧
  (rows_inserted (db w) (db (collectPrices w).2) ≤ n)%nat.
Proof.
  intros Hret Hsum.
  pose proof (collectPrices_account w) as Hacc. rewrite Hret in Hacc.
  destruct Hacc as
    (Hup & vars & evs & Htr & Hres & Hsw & [[Hrc Hsc] Hrecs] & Hclock & Hlast & Hdb).
  rewrite (events_since_app _ _ _ Htr) in Hsum |- *.
  destruct (to_game <$> select_active_games (clock w) (games w)) as [|g0 gs];
    [by rewrite Hlast in Hsum|].
  rewrite Hlast in Hsum. injection Hsum as _ _ Hrq Hsc' Hfl Hn.
  pose proof (collectPrices_summary (gamesProcessed (trace w)) (successes (trace w))
                (failures (trace w)) (priceRecordsStored (trace w)) w eq_refl) as Hagree.
  rewrite Hret, Htr in Hagree.
  assert (Hne : evs ≠ []) by (intros ->; done).
  destruct (Hagree (clock (collectPrices w).2 - clock w) (length (g0 :: gs))
              (requestCount vars) (successCount vars) (failureCount vars)
              (length (priceRecords vars)))
    as (_ & Hs & Hf & Hsum' & _).
  { destruct evs as [|e evs] using rev_ind; [done|].
    rewrite (assoc_L (++)), last_snoc. by rewrite last_snoc in Hlast. }
  unfold successes, failures in Hs, Hf |- *.
  rewrite filter_app, length_app in Hs, Hf.
  subst rq sc fl n.
  split; [lia|]. split; [lia|]. split; [done|]. split; [lia|].
  unfold rows_inserted.
  destruct Hdb as [[_ ->]|(vs & Hvs & ->)]; [lia|].
  pose proof (insert_rows_size (clock (collectPrices w).2) vs (db w)) as Hsize.
  apply mapM_Some_1, Forall2_length in Hvs. lia.
Qed.

Lemma collectPrices_summary_counts_witness :
  2 = Z.of_nat (successes (events_since Samples.listed_twice
                             (collectPrices Samples.listed_twice).2)) ∧
  0 = Z.of_nat (failures (events_since Samples.listed_twice
                            (collectPrices Samples.listed_twice).2)) ∧
  2 = 2 + 0 ∧
  Z.of_nat 2 = 2 ∧
  (rows_inserted (db Samples.listed_twice) (db (collectPrices Samples.listed_twice).2)
   ≤ 2)%nat.
Proof.
  apply (collectPrices_summary_counts Samples.listed_twice 1494 1 2 2 0 2);
    by vm_compute.
Defined.

(** ** The entry points and the scheduler *)

Import Process.

Section proc_logic.
Context {A : Type}.
Implicit Types (m : Proc A) (Pre : world → Prop).

Lemma proc_triple_ret Pre (a : A) Qn Qa :
  (∀ w, Pre w → Qn a w) → proc_triple Pre (mret a) Qn Qa.
Proof. intros H p Hp. by apply H. Qed.

Lemma proc_triple_lift Pre (c : M A) Qn Qa :
  triple Pre c Qn Qa → proc_triple Pre (lift c) Qn Qa.
Proof.
  intros Hc p Hp. specialize (Hc (env p) Hp). unfold lift.
  by destruct (c (env p)) as [[a|e|] w'].
Qed.

Lemma proc_triple_consequence Pre Pre' m (Qn Qn' : A → world → Prop)
    (Qa Qa' : world → Prop) :
  proc_triple Pre' m Qn' Qa' →
  (∀ w, Pre w → Pre' w) → (∀ a w, Qn' a w → Qn a w) → (∀ w, Qa' w → Qa w) →
  proc_triple Pre m Qn Qa.
Proof.
  intros Hm HP HQn HQa p Hp. specialize (Hm p (HP _ Hp)).
  destruct (m p).1; auto.
Qed.

Lemma proc_triple_try_catch Pre m (h : failure → Proc A) Qn Qa Qa' :
  proc_triple Pre m Qn Qa' →
  (∀ f, proc_triple Qa' (h f) Qn Qa) →
  (∀ w, Qa' w → Qa w) →
  proc_triple Pre (try_catch_proc m h) Qn Qa.
Proof.
  intros Hm Hh Hpend p Hp. specialize (Hm p Hp). unfold try_catch_proc.
  destruct (m p) as [[a|f| |code] p1]; simpl in *; auto.
  by apply Hh.
Qed.

End proc_logic.

Lemma proc_triple_bind {A B : Type} (Pre : world → Prop) (m : Proc A) (k : A → Proc B)
    (R : A → world → Prop) Qn Qa :
  proc_triple Pre m R Qa →
  (∀ a, proc_triple (R a) (k a) Qn Qa) →
  proc_triple Pre (m ≫= k) Qn Qa.
Proof.
  intros Hm Hk p Hp. specialize (Hm p Hp).
  unfold mbind, Proc_bind, proc_bind.
  destruct (m p) as [[a|f| |code] p1]; simpl in *; auto.
  by apply Hk.
Qed.

Lemma proc_triple_say (Pre : world → Prop) l Qa :
  proc_triple Pre (say l) (λ _, Pre) Qa.
Proof. by intros p Hp. Qed.

Section staying.

Lemma stays_ret {A} (a : A) : stays (mret a : Proc A).
Proof. by intros p code. Qed.

Lemma stays_lift {A} (c : M A) : stays (lift c).
Proof. intros p code. unfold lift. by destruct (c (env p)) as [[a|e|] w']. Qed.

Lemma stays_say l : stays (say l).
Proof. by intros p code. Qed.

Lemma stays_bind {A B} (m : Proc A) (k : A → Proc B) :
  stays m → (∀ a, stays (k a)) → stays (m ≫= k).
Proof.
  intros Hm Hk p code. unfold mbind, Proc_bind, proc_bind.
  specialize (Hm p). destruct (m p) as [[a|f| |code'] p1]; simpl in *; try done.
  - apply Hk.
  - by destruct (Hm code').
Qed.

End staying.

(** X16.  The ways out of [main] and [shutdown].  When the run returns,
    [main] closes the pool and is fulfilled, the store being the one the
    run left.  When the run throws, [main] prints the fatal line and exits
    with code 1 from the catch block: the finally block does not run, the
    pool is not closed, and the store is as it was.  While the run is
    pending so is [main].  [shutdown], on a process whose pool has not
    ended, closes the pool and exits with code 0. *)
Theorem main_exit_paths (w : world) (signal : string) :
  match (collectPrices w).1 with
  | Ret _ =>
      (main (started w)).1 = Fulfilled tt ∧
      pool_ended (main (started w)).2 = true ∧
      db (env (main (started w)).2) = db (collectPrices w).2 ∧
      said_since (started w) (main (started w)).2 = [LogPoolClosed]
  | Throw _ =>
      (main (started w)).1 = Exited 1 ∧
      pool_ended (main (started w)).2 = false ∧
      db (env (main (started w)).2) = db w ∧
      said_since (started w) (main (started w)).2 = [LogFatalUnhandled]
  | Pending =>
      (main (started w)).1 = Unsettled ∧
      pool_ended (main (started w)).2 = false
  end ∧
  (shutdown signal (started w)).1 = Exited 0 ∧
  pool_ended (shutdown signal (started w)).2 = true ∧
  db_available (env (shutdown signal (started w)).2) = false ∧
  said_since (started w) (shutdown signal (started w)).2
  = [LogShutdown signal; LogPoolClosed].
Proof.
  split; [|done].
  pose proof (collectPrices_account w) as Hacc.
  unfold main, try_finally, try_catch_proc, lift, started. simpl.
  destruct (collectPrices w) as [[[]|e|] w']; simpl in *; try done.
  by destruct Hacc.
Qed.

Section one_cycle.
Variable toISOString : Z → string.
Implicit Types (p : process) (runCount : Z).

Lemma proc_triple_pure_pre {A : Type} (φ : Prop) (Pre : world → Prop) (m : Proc A) Qn Qa :
  (φ → proc_triple Pre m Qn Qa) → proc_triple (λ w, Pre w ∧ φ) m Qn Qa.
Proof. intros Hm p [Hp Hφ]. by apply Hm. Qed.

Lemma triple_sleep_clock (c ms : Z) Qa :
  triple (λ w, c ≤ clock w) (sleep ms) (λ _ w, c + ms ≤ clock w) Qa.
Proof. intros w Hw. unfold sleep. unfold_fetch. simpl. lia. Qed.

Lemma triple_shouldUseHighFrequency_clock (t0 : Z) :
  triple (λ w, clock w = t0) (shouldUseHighFrequency toISOString)
         (λ _ w, clock w = t0) (λ w, t0 ≤ clock w).
Proof.
  intros w Hw. unfold shouldUseHighFrequency. unfold_run. simpl.
  destruct (db_available w); simpl; [|lia].
  repeat case_match; simpl; done.
Qed.

Lemma triple_collectPrices_clock (t0 : Z) :
  triple (λ w, clock w = t0) collectPrices
         (λ _ w, t0 ≤ clock w) (λ w, t0 ≤ clock w).
Proof.
  intros w Hw. pose proof (collectPrices_account w) as Hacc.
  destruct (collectPrices w).1.
  - destruct Hacc as (_ & vars & evs & _ & _ & _ & [[Hrc _] _] & Hclock & _).
    assert (0 ≤ DELAY_BETWEEN_REQUESTS) by by vm_compute. nia.
  - destruct Hacc. lia.
  - destruct Hacc. lia.
Qed.

(** A turn that is fulfilled ends a minute or more after it began. *)
Lemma proc_triple_cycle (t0 : Z) runCount :
  proc_triple (λ w, clock w = t0) (cycle toISOString runCount)
              (λ _ w, t0 + 60000 ≤ clock w) (λ _, True).
Proof.
  unfold cycle.
  eapply proc_triple_bind with (R := λ cycleStart w, clock w = t0 ∧ cycleStart = t0).
  { apply proc_triple_lift. by intros w Hw. }
  intros cycleStart. apply proc_triple_pure_pre. intros ->.
  eapply proc_triple_bind; [apply proc_triple_say|]. intros ?.
  eapply proc_triple_try_catch with (Qa' := λ w, t0 ≤ clock w); [| |done].
  2: { intros f.
       eapply proc_triple_bind; [apply proc_triple_say|]. intros ?.
       eapply proc_triple_bind; [apply proc_triple_say|]. intros ?.
       apply proc_triple_lift. apply triple_sleep_clock. }
  eapply proc_triple_bind.
  { apply proc_triple_lift. apply triple_shouldUseHighFrequency_clock. }
  intros frequencyCheck.
  eapply proc_triple_bind;
    [apply (proc_triple_say (λ w, clock w = t0) _ (λ w, t0 ≤ clock w))|]. intros ?.
  eapply proc_triple_bind with (R := λ _ w, clock w = t0).
  { destruct (nextGameStart frequencyCheck).
    - apply proc_triple_say.
    - by apply proc_triple_ret. }
  intros ?.
  eapply proc_triple_bind;
    [apply (proc_triple_say (λ w, clock w = t0) _ (λ w, t0 ≤ clock w))|]. intros ?.
  eapply proc_triple_bind.
  { apply proc_triple_lift. apply triple_collectPrices_clock. }
  intros ?.
  eapply proc_triple_bind with (R := λ finished w, clock w = finished ∧ t0 ≤ finished).
  { apply proc_triple_lift. by intros w Hw. }
  intros finished. simpl.
  eapply proc_triple_bind;
    [apply (proc_triple_say (λ w, clock w = finished ∧ t0 ≤ finished) _
              (λ w, t0 ≤ clock w))|]. intros ?.
  eapply proc_triple_bind;
    [apply (proc_triple_say (λ w, clock w = finished ∧ t0 ≤ finished) _
              (λ w, t0 ≤ clock w))|]. intros ?.
  case_bool_decide as Hpos.
  - apply proc_triple_lift.
    eapply triple_consequence;
      [apply (triple_sleep_clock finished _ (λ w, t0 ≤ clock w))| | |done].
    + intros w [Hw _]. lia.
    + intros ? w Hw. simpl in Hw. destruct (highFrequency frequencyCheck); lia.
  - apply proc_triple_ret. intros w [Hw Hle].
    destruct (highFrequency frequencyCheck); lia.
Qed.

Lemma stays_cycle runCount : stays (cycle toISOString runCount).
Proof.
  unfold cycle. apply stays_bind; [apply stays_lift|]. intros cycleStart.
  apply stays_bind; [apply stays_say|]. intros ?.
  intros p code. unfold try_catch_proc.
  match goal with
  | |- (match ?body p with _ => _ end).1 ≠ _ =>
      assert (Hbody : stays body); [|specialize (Hbody p); destruct (body p) as [[x|f| |c] p']]
  end; simpl; try done.
  apply stays_bind; [apply stays_lift|]. intros frequencyCheck.
  apply stays_bind; [apply stays_say|]. intros ?.
  apply stays_bind; [destruct (nextGameStart frequencyCheck);
                     [apply stays_say|apply stays_ret]|]. intros ?.
  apply stays_bind; [apply stays_say|]. intros ?.
  apply stays_bind; [apply stays_lift|]. intros ?.
  apply stays_bind; [apply stays_lift|]. intros finished. simpl.
  apply stays_bind; [apply stays_say|]. intros ?.
  apply stays_bind; [apply stays_say|]. intros ?.
  case_bool_decide; [apply stays_lift|apply stays_ret].
Qed.

Lemma cycle_not_rejected runCount p f :
  (cycle toISOString runCount p).1 ≠ Rejected f.
Proof.
  unfold cycle. unfold mbind at 1, Proc_bind, proc_bind at 1.
  unfold lift at 1. cbn [now fst snd].
  unfold mbind at 1, Proc_bind, proc_bind at 1. cbn [say].
  unfold try_catch_proc.
  match goal with
  | |- (match ?body ?p1 with _ => _ end).1 ≠ _ =>
      destruct (body p1) as [[x|f'| |c] p']
  end; simpl; done.
Qed.

Lemma cycle_db_down runCount p :
  db_available (env p) = false →
  cycle toISOString runCount p =
    (Fulfilled tt,
     {| env :=
          {| clock := clock (env p)
                      + (60000 + Z.of_N (default 0%N (head (lateness (env p)))));
             replies := replies (env p);
             lateness := tail (lateness (env p));
             db_available := db_available (env p); games := games (env p);
             db := db (env p);
             trace := trace (env p) ++ [EvQuery SelectFrequency; EvLog LogQueryError;
                                        EvSleep (clock (env p)) 60000] |};
        pool_ended := pool_ended p;
        console := console p ++
          [(length (trace (env p)), LogCycleStarting (clock (env p)) runCount);
           (length (trace (env p)) + 2, LogCycleFailed)%nat;
           (length (trace (env p)) + 2, LogWaitingToRetry)%nat] |}).
Proof.
  intros Hdown. unfold cycle, try_catch_proc, lift, say, shouldUseHighFrequency, sleep.
  unfold mbind, Proc_bind, proc_bind. unfold_fetch. unfold_run. simpl.
  rewrite Hdown. simpl. rewrite !length_app. simpl.
  rewrite <- !app_assoc, <- !Nat.add_assoc. done.
Qed.

End one_cycle.

(** X17.  A turn of the scheduler loop carries on.  It is never rejected
    and never exits the process: it is fulfilled, or pending with the
    collection.  When it is fulfilled, a minute or more has passed since
    it began, so the loop never spins. *)
Theorem cycle_carries_on (toISOString : Z → string) (runCount : Z) (p : process) :
  match (cycle toISOString runCount p).1 with
  | Fulfilled _ =>
      clock (env p) + 60000 ≤ clock (env (cycle toISOString runCount p).2)
  | Unsettled => True
  | Rejected _ | Exited _ => False
  end.
Proof.
  pose proof (proc_triple_cycle toISOString (clock (env p)) runCount p eq_refl) as Hclock.
  pose proof (stays_cycle toISOString runCount p) as Hstays.
  pose proof (cycle_not_rejected toISOString runCount p) as Hnot.
  destruct (cycle toISOString runCount p).1 as [a|f| |code]; try done.
  - by destruct (Hnot f).
  - by destruct (Hstays code).
Qed.

(** X18.  A turn that finds the database down.  The frequency check
    throws, so the turn makes no quote request and no write, prints that
    the cycle failed, waits the one minute of the catch block, once, and
    is fulfilled: the loop goes on to the next turn. *)
Theorem cycle_database_down (toISOString : Z → string) (runCount : Z) (p : process) :
  db_available (env p) = false →
  (cycle toISOString runCount p).1 = Fulfilled tt ∧
  requests (events_since (env p) (env (cycle toISOString runCount p).2)) = [] ∧
  timers (events_since (env p) (env (cycle toISOString runCount p).2)) = [60000] ∧
  db (env (cycle toISOString runCount p).2) = db (env p) ∧
  said_since p (cycle toISOString runCount p).2
  = [LogCycleStarting (clock (env p)) runCount; LogCycleFailed; LogWaitingToRetry].
Proof.
  intros Hdown. rewrite (cycle_db_down _ _ _ Hdown). simpl.
  unfold events_since, said_since. simpl. rewrite !drop_app_length. done.
Qed.

Lemma cycle_database_down_witness :
  let p := started Samples.database_down in
  db_available (env p) = false ∧
  (cycle (λ _, "") 1 p).1 = Fulfilled tt ∧
  requests (events_since (env p) (env (cycle (λ _, "") 1 p).2)) = [] ∧
  timers (events_since (env p) (env (cycle (λ _, "") 1 p).2)) = [60000] ∧
  db (env (cycle (λ _, "") 1 p).2) = db (env p) ∧
  said_since p (cycle (λ _, "") 1 p).2
  = [LogCycleStarting (clock (env p)) 1; LogCycleFailed; LogWaitingToRetry].
Proof.
  intros p. split; [reflexivity|].
  apply (cycle_database_down (λ _, "") 1 p). reflexivity.
Defined.

(** X19.  The interval between turns.  When the frequency check and the
    collection of a turn both return, the turn is fulfilled; if the
    collection ended before the interval the check asked for (two minutes
    in high frequency, ten otherwise) had passed since the turn began, the
    turn sleeps what is left of it, once, so that the next turn begins one
    interval after this one began, plus the lateness of the timer;
    otherwise it does not sleep and the next turn begins at once. *)
Theorem cycle_interval (toISOString : Z → string) (runCount : Z) (p : process)
    (f : frequency) :
  (shouldUseHighFrequency toISOString (env p)).1 = Ret f →
  (collectPrices (shouldUseHighFrequency toISOString (env p)).2).1 = Ret tt →
  let w2 := (collectPrices (shouldUseHighFrequency toISOString (env p)).2).2 in
  let t0 := clock (env p) in
  let p' := (cycle toISOString runCount p).2 in
  (cycle toISOString runCount p).1 = Fulfilled tt ∧
  (if bool_decide (clock w2 < t0 + interval_of f)
   then events_since w2 (env p') = [EvSleep (clock w2) (t0 + interval_of f - clock w2)] ∧
        clock (env p') = t0 + interval_of f + Z.of_N (default 0%N (head (lateness w2)))
   else env p' = w2) ∧
  said_since p p' =
    [LogCycleStarting t0 runCount;
     LogFrequencyCheck (highFrequency f) (reason f)]
    ++ match nextGameStart f with
       | Some d => [LogNextGame d]
       | None => []
       end
    ++ [LogStartingCollection;
        LogCycleCompleted (formatDuration (clock w2 - t0));
        LogNextCollection (formatDuration (Z.max 0 (interval_of f - (clock w2 - t0))))].
Proof.
  intros Hf Hc.
  destruct (shouldUseHighFrequency toISOString (env p)) as [r w1] eqn:Hsf.
  simpl in Hf, Hc. subst r.
  destruct (collectPrices w1) as [r w2] eqn:Hcp. simpl in Hc. subst r.
  cbn [fst snd]. unfold interval_of, cycle.
  replace (2 * 60 * 1000) with 120000 by done.
  replace (10 * 60 * 1000) with 600000 by done.
  revert Hsf Hcp.
  generalize (shouldUseHighFrequency toISOString) as sf.
  generalize collectPrices as cp.
  intros cp sf Hsf Hcp.
  unfold try_catch_proc, lift, say. unfold mbind, Proc_bind, proc_bind.
  cbn [now env fst snd]. rewrite Hsf.
  set (interval := if highFrequency f then 120000 else 600000).
  assert (Hpos : ∀ t1, bool_decide (0 < Z.max 0 (interval - (t1 - clock (env p))))
                       = bool_decide (t1 < clock (env p) + interval)).
  { intros t1. apply bool_decide_ext. lia. }
  destruct (nextGameStart f) as [d|]; simpl; rewrite Hcp; simpl; rewrite Hpos.
  all: destruct (bool_decide (clock w2 < clock (env p) + interval)) eqn:Hlt.
  all: unfold events_since, said_since, sleep; unfold_fetch; simpl.
  all: rewrite ?drop_app_length, <- ?app_assoc, ?drop_app_length; simpl.
  all: try apply bool_decide_eq_true in Hlt.
  all: repeat split; try done.
  all: try lia.
  all: do 2 f_equal; lia.
Qed.

Lemma cycle_interval_witness :
  let p := started Examples.single_quote in
  let f := {| highFrequency := true; reason := "1 active game(s) in progress";
              nextGameStart := None |} in
  let w2 := (collectPrices (shouldUseHighFrequency (λ _, "") (env p)).2).2 in
  let t0 := clock (env p) in
  let p' := (cycle (λ _, "") 1 p).2 in
  ((shouldUseHighFrequency (λ _, "") (env p)).1 = Ret f ∧
   (collectPrices (shouldUseHighFrequency (λ _, "") (env p)).2).1 = Ret tt) ∧
  (cycle (λ _, "") 1 p).1 = Fulfilled tt ∧
  (if bool_decide (clock w2 < t0 + interval_of f)
   then events_since w2 (env p') = [EvSleep (clock w2) (t0 + interval_of f - clock w2)] ∧
        clock (env p') = t0 + interval_of f + Z.of_N (default 0%N (head (lateness w2)))
   else env p' = w2) ∧
  said_since p p' =
    [LogCycleStarting t0 1;
     LogFrequencyCheck (highFrequency f) (reason f)]
    ++ match nextGameStart f with
       | Some d => [LogNextGame d]
       | None => []
       end
    ++ [LogStartingCollection;
        LogCycleCompleted (formatDuration (clock w2 - t0));
        LogNextCollection (formatDuration (Z.max 0 (interval_of f - (clock w2 - t0))))].
Proof.
  intros p f w2 t0 p'. split; [split; by vm_compute|].
  apply (cycle_interval (λ _, "") 1 p f); by vm_compute.
Defined.

Section scheduler_pace.
Variable toISOString : Z → string.
Variable d : Z.
Hypothesis d_nonneg : 0 ≤ d.
Hypothesis d_delay : d ≤ DELAY_BETWEEN_REQUESTS.
Hypothesis d_cooldown : d ≤ 30000.

Lemma triple_sleep_keeps_pace ms Qa :
  0 ≤ ms → triple (paced 0 d) (sleep ms) (λ _, paced 0 d) Qa.
Proof.
  intros Hms w Hw. unfold sleep. unfold_fetch. simpl.
  eapply paced_step; [exact Hw|simpl; lia|reflexivity|reflexivity].
Qed.

Lemma triple_shouldUseHighFrequency_paced :
  triple (paced 0 d) (shouldUseHighFrequency toISOString)
         (λ _, paced 0 d) (settled 0 d).
Proof.
  unfold shouldUseHighFrequency.
  eapply triple_bind; [by apply triple_query_paced|]. intros row. simpl.
  repeat case_match; by apply triple_ret.
Qed.

Lemma proc_triple_cycle_paced runCount :
  proc_triple (paced 0 d) (cycle toISOString runCount)
              (λ _, paced 0 d) (settled 0 d).
Proof.
  assert (Hd : d ≤ 60000) by lia.
  unfold cycle.
  eapply proc_triple_bind.
  { apply proc_triple_lift. by apply triple_now_paced. }
  intros cycleStart.
  eapply proc_triple_bind; [apply proc_triple_say|]. intros ?.
  eapply proc_triple_try_catch with (Qa' := settled 0 d); [| |done].
  2: { intros f.
       eapply proc_triple_bind; [apply proc_triple_say|]. intros ?.
       eapply proc_triple_bind; [apply proc_triple_say|]. intros ?.
       apply proc_triple_lift. by apply triple_sleep_settled. }
  eapply proc_triple_bind.
  { apply proc_triple_lift. apply triple_shouldUseHighFrequency_paced. }
  intros frequencyCheck.
  eapply proc_triple_bind; [apply proc_triple_say|]. intros ?.
  eapply proc_triple_bind with (R := λ _, paced 0 d).
  { destruct (nextGameStart frequencyCheck).
    - apply proc_triple_say.
    - by apply proc_triple_ret. }
  intros ?.
  eapply proc_triple_bind; [apply proc_triple_say|]. intros ?.
  eapply proc_triple_bind.
  { apply proc_triple_lift. by apply triple_collectPrices. }
  intros ?.
  eapply proc_triple_bind.
  { apply proc_triple_lift. by apply triple_now_paced. }
  intros finished. simpl.
  eapply proc_triple_bind; [apply proc_triple_say|]. intros ?.
  eapply proc_triple_bind; [apply proc_triple_say|]. intros ?.
  case_bool_decide as Hpos.
  - apply proc_triple_lift. apply triple_sleep_keeps_pace. lia.
  - by apply proc_triple_ret.
Qed.

Lemma proc_triple_cycles_paced turns : ∀ runCount,
  proc_triple (paced 0 d) (cycles toISOString turns runCount)
              (λ _, paced 0 d) (settled 0 d).
Proof.
  induction turns as [|turns IH]; intros runCount; simpl.
  - by apply proc_triple_ret.
  - eapply proc_triple_bind; [apply proc_triple_cycle_paced|]. intros ?. apply IH.
Qed.

Lemma proc_triple_scheduler_paced turns :
  proc_triple (paced 0 d) (scheduler toISOString turns)
              (λ _, paced 0 d) (settled 0 d).
Proof.
  unfold scheduler.
  eapply proc_triple_bind; [apply proc_triple_say|]. intros ?.
  apply proc_triple_cycles_paced.
Qed.

End scheduler_pace.

(** X20.  The scheduler keeps the request rate over all its turns.  Started
    when the last quote request of the process, if any, is 667 ms ago or
    more, the scheduler keeps every two consecutive quote requests of the
    process at least 667 ms apart, across turns, failed turns and retries
    included, however many turns it makes; so no minute holds more than 90
    requests. *)
Theorem scheduler_request_rate (toISOString : Z → string) (turns : nat)
    (p : process) (T : Z) :
  paced 0 DELAY_BETWEEN_REQUESTS (env p) →
  spaced DELAY_BETWEEN_REQUESTS
    (request_times (trace (env (scheduler toISOString turns p).2))) = true ∧
  (length (in_minute T (request_times (trace (env (scheduler toISOString turns p).2))))
   ≤ 90)%nat.
Proof.
  intros Hp.
  assert (Hd : DELAY_BETWEEN_REQUESTS = 667) by reflexivity.
  pose proof (proc_triple_scheduler_paced toISOString DELAY_BETWEEN_REQUESTS) as Hrun.
  rewrite Hd in *.
  specialize (Hrun ltac:(lia) ltac:(lia) ltac:(lia) turns p Hp).
  assert (Hsettled : settled 0 667 (env (scheduler toISOString turns p).2)).
  { destruct (scheduler toISOString turns p).1; try done. by apply paced_settled. }
  destruct Hsettled as (_ & Hsp & _). rewrite drop_0 in Hsp.
  split; [done|]. apply (spaced_minute_bound 667); [lia|lia|done].
Qed.

Lemma scheduler_request_rate_witness :
  spaced DELAY_BETWEEN_REQUESTS
    (request_times
       (trace (env (scheduler (λ _, "") 2 (started Examples.two_games)).2))) = true ∧
  (length (in_minute 0
             (request_times
                (trace (env (scheduler (λ _, "") 2 (started Examples.two_games)).2))))
   ≤ 90)%nat.
Proof.
  apply scheduler_request_rate. by vm_compute.
Defined.

(** X21.  [formatDuration] of a duration that is not negative shows whole
    minutes and the whole seconds of the minute begun: the seconds lie
    between 0 and 59, and the duration is the minutes and seconds shown
    plus less than one second; two durations within the same second are
    shown alike. *)
Theorem formatDuration_parts (ms ms' : Z) :
  0 ≤ ms →
  (∃ m s,
     formatDuration ms = pretty m +:+ "m " +:+ pretty s +:+ "s" ∧
     0 ≤ m ∧ 0 ≤ s ≤ 59 ∧
     60000 * m + 1000 * s ≤ ms < 60000 * m + 1000 * s + 1000) ∧
  (0 ≤ ms' → ms' `div` 1000 = ms `div` 1000 →
   formatDuration ms' = formatDuration ms).
Proof.
  intros Hms. split.
  - exists (ms `div` 60000), ((ms `rem` 60000) `div` 1000).
    split; [done|]. rewrite Z.rem_mod_nonneg by lia.
    pose proof (Z.mod_pos_bound ms 60000 ltac:(lia)) as Hmod.
    pose proof (Z_div_mod_eq_full ms 60000) as Hdiv.
    pose proof (Z.mod_pos_bound (ms `mod` 60000) 1000 ltac:(lia)) as Hmod'.
    pose proof (Z_div_mod_eq_full (ms `mod` 60000) 1000) as Hdiv'.
    assert (0 ≤ ms `div` 60000) by (apply Z.div_pos; lia).
    assert (0 ≤ (ms `mod` 60000) `div` 1000) by (apply Z.div_pos; lia).
    lia.
  - intros Hms' Hsame. unfold formatDuration.
    rewrite !Z.rem_mod_nonneg by lia.
    assert (Hmin : ms' `div` 60000 = ms `div` 60000).
    { replace 60000 with (1000 * 60) by done.
      rewrite <- !Z.div_div by lia. by rewrite Hsame. }
    assert (Hsec : (ms' `mod` 60000) `div` 1000 = (ms `mod` 60000) `div` 1000).
    { replace 60000 with (1000 * 60) by done.
      rewrite !Z.rem_mul_r by lia.
      rewrite !(Z.mul_comm 1000), !Z.div_add by lia.
      rewrite !Z.mod_div by lia. by rewrite Hsame. }
    by rewrite Hmin, Hsec.
Qed.

Lemma formatDuration_parts_witness :
  (∃ m s,
     formatDuration 125999 = pretty m +:+ "m " +:+ pretty s +:+ "s" ∧
     0 ≤ m ∧ 0 ≤ s ≤ 59 ∧
     60000 * m + 1000 * s ≤ 125999 < 60000 * m + 1000 * s + 1000) ∧
  (0 ≤ 125000 → 125000 `div` 1000 = 125999 `div` 1000 →
   formatDuration 125000 = formatDuration 125999).
Proof. apply (formatDuration_parts 125999 125000). lia. Defined.

(** ** What makes a run fail *)

Section failures.

#[local] Abbreviation only_db := (@throws_only_database_error).

Lemma only_db_ret {A} (a : A) : only_db A (mret a).
Proof. by intros w e. Qed.

Lemma only_db_bind {A B} (m : M A) (k : A → M B) :
  only_db A m → (∀ a, only_db B (k a)) → only_db B (m ≫= k).
Proof.
  intros Hm Hk w e. unfold mbind, M_bind, bind.
  specialize (Hm w). destruct (m w) as [[a|e'|] w1]; simpl in *; try done.
  - apply Hk.
  - intros [= <-]. by apply Hm.
Qed.

Lemma only_db_try_rethrow {A} (m : M A) l :
  only_db A m → only_db A (try_catch m (λ error, log l;; throw error)).
Proof.
  intros Hm w e. unfold try_catch.
  destruct (m w) as [[a|e'|] w1] eqn:Hmw; simpl; try done.
  unfold_run. simpl. intros [= <-]. apply (Hm w). by rewrite Hmw.
Qed.

Lemma only_db_for_of {X S} (body : X → S → M S) (l : list X) :
  (∀ x s, only_db S (body x s)) → ∀ s, only_db S (for_of l body s).
Proof.
  intros Hbody. induction l as [|x l IH]; intros s; simpl.
  - apply only_db_ret.
  - apply only_db_bind; [apply Hbody|apply IH].
Qed.

Lemma only_db_log l : only_db unit (log l).
Proof. by intros w e. Qed.

Lemma only_db_now : only_db Z now.
Proof. by intros w e. Qed.

Lemma only_db_sleep ms : only_db unit (sleep ms).
Proof. by intros w e. Qed.

Lemma only_db_query {A} q (run : Z → list games_row → store → option (A * store)) :
  only_db A (query q run).
Proof.
  intros w e. unfold query. unfold_run. simpl.
  destruct (if db_available w then run (clock w) (games w) (db w) else None)
    as [[a st']|]; simpl; [done|]. by intros [= <-].
Qed.

Lemma only_db_fetchTokenPrice tokenId : only_db (option number) (fetchTokenPrice tokenId).
Proof.
  intros w e He.
  by destruct (fetchTokenPrice_rec_no_throw (S (length (replies w))) tokenId w e).
Qed.

Lemma only_db_collect_outcome timestamp m o vars :
  only_db run_vars (collect_outcome timestamp m o vars).
Proof.
  unfold collect_outcome.
  assert (Hskip : only_db run_vars (log (LogNoTokenId (title o));; mret vars)).
  { apply only_db_bind; [apply only_db_log|]. intros ?. apply only_db_ret. }
  destruct (tokenID o) as [tokenId|]; [|done].
  case_bool_decide; [done|].
  apply only_db_bind.
  { destruct (_ && _).
    - apply only_db_bind; [apply only_db_log|]. intros ?. apply only_db_sleep.
    - apply only_db_ret. }
  intros ?. apply only_db_bind; [apply only_db_fetchTokenPrice|]. intros price.
  apply only_db_bind.
  { destruct price as [p|].
    - apply only_db_bind; [apply only_db_log|]. intros ?. apply only_db_ret.
    - apply only_db_bind; [apply only_db_log|]. intros ?. apply only_db_ret. }
  intros vars'. apply only_db_bind; [apply only_db_sleep|]. intros ?. apply only_db_ret.
Qed.

Lemma only_db_collect_game timestamp g vars :
  only_db run_vars (collect_game timestamp g vars).
Proof.
  unfold collect_game. apply only_db_bind; [apply only_db_log|]. intros ?.
  apply only_db_for_of. intros m vars'. unfold collect_market.
  assert (Hskip : only_db run_vars (log (LogNoOutcomes (marketSlug m));; mret vars')).
  { apply only_db_bind; [apply only_db_log|]. intros ?. apply only_db_ret. }
  destruct (outcomes m) as [[|o os]|]; try done.
  apply only_db_for_of. intros. apply only_db_collect_outcome.
Qed.

Lemma only_db_batchInsertPrices prices : only_db unit (batchInsertPrices prices).
Proof.
  unfold batchInsertPrices. destruct prices as [|p prices]; [apply only_db_ret|].
  apply only_db_bind; [apply only_db_query|]. intros ?. apply only_db_log.
Qed.

Lemma only_db_collectPrices : only_db unit collectPrices.
Proof.
  unfold collectPrices.
  apply only_db_bind; [apply only_db_now|]. intros startTime.
  apply only_db_bind; [apply only_db_log|]. intros ?.
  apply only_db_try_rethrow.
  apply only_db_bind.
  { unfold getActiveGames. apply only_db_bind; [apply only_db_query|].
    intros ?. apply only_db_ret. }
  intros gs. apply only_db_bind; [apply only_db_log|]. intros ?.
  destruct gs as [|g gs].
  { apply only_db_bind; [apply only_db_log|]. intros ?. apply only_db_ret. }
  apply only_db_bind; [apply only_db_now|]. intros timestamp.
  apply only_db_bind.
  { apply only_db_for_of. intros. apply only_db_collect_game. }
  intros vars. apply only_db_bind.
  { destruct (priceRecords vars) as [|p ps].
    - apply only_db_log.
    - apply only_db_bind; [apply only_db_log|]. intros ?.
      apply only_db_bind; [apply only_db_batchInsertPrices|]. intros ?.
      apply only_db_log. }
  intros ?. apply only_db_bind; [apply only_db_now|]. intros finished.
  apply only_db_log.
Qed.

End failures.

(** X22.  Only the database makes a run fail.  Whatever the quote API
    does (no answer to the call, an error status, a body that is not JSON,
    rate limiting), [collectPrices] does not throw for it: when it throws,
    the error is the database's, rethrown by the catch block, and the
    tables are as they were before the run. *)
Theorem collectPrices_fails_only_for_database (w : world) (e : error) :
  (collectPrices w).1 = Throw e →
  e = DatabaseError ∧ db (collectPrices w).2 = db w.
Proof.
  intros Hthrow. split; [by apply (only_db_collectPrices w)|].
  pose proof (collectPrices_account w) as Hacc. rewrite Hthrow in Hacc.
  by destruct Hacc.
Qed.

Lemma collectPrices_fails_only_for_database_witness :
  (collectPrices Samples.database_down).1 = Throw DatabaseError ∧
  DatabaseError = DatabaseError ∧
  db (collectPrices Samples.database_down).2 = db Samples.database_down.
Proof.
  split; [by vm_compute|].
  apply (collectPrices_fails_only_for_database Samples.database_down DatabaseError).
  by vm_compute.
Defined.

(** ** The frequency check and the enumeration *)

Section same_games.

Lemma active_where_frequency_where NOW g :
  active_where NOW g ↔ frequency_where NOW g.
Proof. unfold active_where, frequency_where, hours. split; intros [? ?]; split; [done|lia|done|lia]. Qed.

Lemma select_active_games_nil NOW catalog :
  select_active_games NOW catalog = [] ↔ filter (frequency_where NOW) catalog = [].
Proof.
  unfold select_active_games.
  rewrite (list_filter_iff _ _ _ (active_where_frequency_where NOW)).
  split.
  - intros Hnil. apply Permutation_nil_r. rewrite <- Hnil.
    by rewrite merge_sort_Permutation.
  - intros ->. done.
Qed.

End same_games.

(** X23.  The frequency check and the enumeration see the same games.  At
    one instant and with the database up, [getActiveGames] returns no game
    exactly when [shouldUseHighFrequency] answers low frequency with the
    reason "No upcoming games" and no next start; whenever the check
    chooses the high frequency, the enumeration returns at least one
    game. *)
Theorem frequency_check_matches_enumeration (toISOString : Z → string) (w : world) :
  db_available w = true →
  ∃ f gs,
    (shouldUseHighFrequency toISOString w).1 = Ret f ∧
    (getActiveGames w).1 = Ret gs ∧
    (gs = [] ↔ f = {| highFrequency := false; reason := "No upcoming games";
                      nextGameStart := None |}) ∧
    (highFrequency f = true → gs ≠ []).
Proof.
  intros Hup. eexists. eexists.
  split; [by apply shouldUseHighFrequency_result|].
  split; [by apply getActiveGames_result|].
  assert (Hgs : to_game <$> select_active_games (clock w) (games w) = [] ↔
                filter (frequency_where (clock w)) (games w) = []).
  { rewrite <- select_active_games_nil. split; [apply fmap_nil_inv|by intros ->]. }
  rewrite Hgs. unfold select_frequency. cbn [active_count upcoming_count next_start_date].
  destruct (filter (frequency_where (clock w)) (games w)) as [|g rows] eqn:Hrows.
  { simpl. split; [done|]. done. }
  assert (Hsome : (0 <? N.of_nat (length (filter (λ g, (start_date g ≤ clock w)%Z) (g :: rows))))%N
                  = true ∨
                  sql_min (start_date <$> filter (λ g, clock w < start_date g) (g :: rows))
                  ≠ None).
  { destruct (decide (start_date g ≤ clock w)) as [Hle|Hgt].
    - left. rewrite filter_cons_True by done. simpl. by apply N.ltb_lt; lia.
    - right. rewrite filter_cons_True by lia. rewrite sql_min_None. done. }
  split.
  - split; [done|]. intros Hf. exfalso.
    destruct Hsome as [Hact|Hnext].
    + rewrite Hact in Hf. done.
    + apply Hnext. apply (f_equal nextGameStart) in Hf. by repeat case_match.
  - done.
Qed.

Lemma frequency_check_matches_enumeration_witness :
  db_available Examples.idle = true ∧
  ∃ f gs,
    (shouldUseHighFrequency (λ _, "") Examples.idle).1 = Ret f ∧
    (getActiveGames Examples.idle).1 = Ret gs ∧
    (gs = [] ↔ f = {| highFrequency := false; reason := "No upcoming games";
                      nextGameStart := None |}) ∧
    (highFrequency f = true → gs ≠ []).
Proof.
  split; [reflexivity|].
  apply (frequency_check_matches_enumeration (λ _, "") Examples.idle). reflexivity.
Defined.
